(** * HEALPix correspondence matrices, rasterisation and patch extraction

    A shallow embedding of [src/ADL/preproc/HEALPix.py]: the recursive
    construction of the nested-scheme correspondence matrix, the gather of
    a flat sky bitmap through such a matrix, dot and disc rasterisation,
    the catalogue aligner, the patch-coordinate generator, the update of
    an old patch table and the mask writer.

    numpy arrays are lists (matrices: lists of rows), a view of an array is
    a window on its buffer, Python exceptions are the [Raise] results of an
    error monad, a directory is the map from the paths of its files to
    their contents, and the sphere pixelizer (healpy, astropy) is a
    parameter. *)

From stdpp Require Import base numbers list gmap strings pretty.
From Stdlib Require Import ZArith Lia Permutation Ascii.

Local Open Scope Z_scope.

(** ** Exceptions *)

Inductive py_error : Set :=
  | ZeroDivisionError
  | OverflowError
  | ValueError
  | TypeError
  | IndexError
  | RecursionError
  | OSError.

Inductive result (A : Type) : Type :=
  | Ok (a : A)
  | Raise (e : py_error).
Arguments Ok {A} a.
Arguments Raise {A} e.

#[global] Instance result_ret : MRet result := fun A a => Ok a.
#[global] Instance result_bind : MBind result := fun A B f r =>
  match r with Ok a => f a | Raise e => Raise e end.
#[global] Instance result_fmap : FMap result := fun A B f r =>
  match r with Ok a => Ok (f a) | Raise e => Raise e end.

(** [for x in xs: acc = body(acc, x)], stopping at the first exception. *)
Fixpoint for_each {A S : Type} (body : S -> A -> result S) (xs : list A) (acc : S) : result S :=
  match xs with
  | [] => Ok acc
  | x :: xs' => acc' ← body acc x; for_each body xs' acc'
  end.

(** [[f(x) for x in xs]], stopping at the first exception. *)
Fixpoint traverse {A B : Type} (f : A -> result B) (xs : list A) : result (list B) :=
  match xs with
  | [] => Ok []
  | x :: xs' => y ← f x; ys ← traverse f xs'; Ok (y :: ys)
  end.

(** ** Array elements

    [np.full(shape, o_pix)] takes its element type from the fill value: a
    Python int gives int64 when it fits, uint64 when it only fits unsigned,
    and an array of Python objects beyond that. Arithmetic on the first two
    wraps around. *)

Inductive dtype : Set := int64 | uint64 | object.

Definition dtype_of (v : Z) : dtype :=
  if (- 2 ^ 63 <=? v) && (v <? 2 ^ 63) then int64
  else if (0 <=? v) && (v <? 2 ^ 64) then uint64
  else object.

Definition cast (t : dtype) (z : Z) : Z :=
  match t with
  | int64 => (z + 2 ^ 63) mod 2 ^ 64 - 2 ^ 63
  | uint64 => z mod 2 ^ 64
  | object => z
  end.

(** [np.left_shift(v, 1)] and [v + 1] on an element of type [t]. *)
Definition left_shift1 (t : dtype) (v : Z) : Z := cast t (Z.shiftl v 1).
Definition add1 (t : dtype) (v : Z) : Z := cast t (v + 1).

(** ** Matrices and views *)

Abbreviation matrix A := (list (list A)) (only parsing).

(** The cell at row [r], column [c]. *)
Definition cell {A} (m : matrix A) (r c : nat) : option A :=
  row ← m !! r; row !! c.

(** Apply [f r c] to every cell. *)
Definition mapij {A B} (f : nat -> nat -> A -> B) (m : matrix A) : matrix B :=
  imap (fun r row => imap (fun c x => f r c x) row) m.

(** A rectangular view [buf[r0 : r0 + nrows, c0 : c0 + ncols]] of a buffer. *)
Record window : Set := Window { r0 : nat; c0 : nat; nrows : nat; ncols : nat }.

Definition in_window (w : window) (r c : nat) : bool :=
  ((r0 w <=? r) && (r <? r0 w + nrows w) && (c0 w <=? c) && (c <? c0 w + ncols w))%nat.

(** The view of a whole [n]-by-[k] array. *)
Definition whole (n k : nat) : window := Window 0 0 n k.

(** [w[i : i + h, j : j + k]]: numpy clips a slice to the view it is taken from. *)
Definition subview (w : window) (i h j k : nat) : window :=
  Window (r0 w + Nat.min i (nrows w)) (c0 w + Nat.min j (ncols w))
         (Nat.min (i + h) (nrows w) - Nat.min i (nrows w))
         (Nat.min (j + k) (ncols w) - Nat.min j (ncols w)).

(** [w[i:, :]] and [w[:, j:]]. *)
Definition rows_from (w : window) (i : nat) : window := subview w i (nrows w) 0 (ncols w).
Definition cols_from (w : window) (j : nat) : window := subview w 0 (nrows w) j (ncols w).

(** An in-place elementwise update of the view [w] of the buffer [m]. *)
Definition update_view (w : window) (f : Z -> Z) (m : matrix Z) : matrix Z :=
  mapij (fun r c x => if in_window w r c then f x else x) m.

(** ** The correspondence-matrix builder *)

(** [recursive_fill(matr)], where [matr] is the view [w] of the buffer [m];
    the buffer is updated in place, so the updated buffer is the result.
    [fuel] bounds the depth of the recursion: Python raises RecursionError
    when it is exceeded. *)
Fixpoint recursive_fill_fuel (fuel : nat) (t : dtype) (w : window) (m : matrix Z)
    : result (matrix Z) :=
  match fuel with
  | O => Raise RecursionError
  | S fuel' =>
    if (nrows w =? 1)%nat then Ok m
    else
      let mid := (nrows w / 2)%nat in
      let m := update_view w (left_shift1 t) m in
      let m := update_view (rows_from w mid) (add1 t) m in
      let m := update_view w (left_shift1 t) m in
      let m := update_view (cols_from w mid) (add1 t) m in
      m ← recursive_fill_fuel fuel' t (subview w 0 mid 0 mid) m;
      m ← recursive_fill_fuel fuel' t (subview w 0 mid mid mid) m;
      m ← recursive_fill_fuel fuel' t (subview w mid mid 0 mid) m;
      recursive_fill_fuel fuel' t (subview w mid mid mid mid) m
  end.

(** The number of rows at least halves at every call, so a view of [n >= 1]
    rows needs a recursion no deeper than [n]; a view of no rows recurses
    for ever ([mid = 0]), which is the RecursionError of zero fuel. *)
Definition recursive_fill (t : dtype) (w : window) (m : matrix Z) : result (matrix Z) :=
  recursive_fill_fuel (nrows w) t w m.

(** [int(np.log2(f_nside / o_nside))]: division by zero raises, [log2] of
    zero is [-inf] and of a negative number [nan], neither of which [int]
    converts, and [int] truncates towards zero. The code takes the
    quotient and the logarithm in float64; here they are exact. The two
    agree on the resolutions of at most [2 ^ 30] in absolute value, which
    are all that the pixelizer supports: there a quotient is exact to 53
    bits and is a power of two or further than [2 ^ -31] from one, in
    proportion, which float64 tells apart. On larger numbers they part:
    from [2 ^ 53] to [2 ^ 54 - 1] the float64 quotient is 2.0 and the code
    has depth 1 where this function has 0. The statements about ratios
    that are no powers of two carry the bound [2 ^ 30]. *)
Definition log2_ratio (o_nside f_nside : Z) : result Z :=
  if o_nside =? 0 then Raise ZeroDivisionError
  else if f_nside =? 0 then Raise OverflowError
  else if xorb (o_nside <? 0) (f_nside <? 0) then Raise ValueError
  else
    let o := Z.abs o_nside in
    let f := Z.abs f_nside in
    if o <=? f then Ok (Z.log2 (f / o)) else Ok (- Z.log2 (o / f)).

(** [one_pixel_fragmentation(o_nside, o_pix, f_nside)]. A negative depth
    makes [2 ** depth] a float, which [np.full] refuses as a dimension. *)
Definition one_pixel_fragmentation (o_nside o_pix f_nside : Z) : result (matrix Z) :=
  depth ← log2_ratio o_nside f_nside;
  if depth <? 0 then Raise TypeError
  else
    let m_len := Z.to_nat (2 ^ depth) in
    let f_matr := replicate m_len (replicate m_len o_pix) in
    recursive_fill (dtype_of o_pix) (whole m_len m_len) f_matr.

(** ** Indexing, slicing and ranges *)

(** The position a numpy index denotes in an array of [n] items: negative
    indices count from the end, anything else out of range raises. *)
Definition np_index (n : nat) (i : Z) : result nat :=
  if (0 <=? i) && (i <? Z.of_nat n) then Ok (Z.to_nat i)
  else if (- Z.of_nat n <=? i) && (i <? 0) then Ok (Z.to_nat (i + Z.of_nat n))
  else Raise IndexError.

(** [a[i]] *)
Definition get_at {A} (a : list A) (i : Z) : result A :=
  k ← np_index (length a) i;
  match a !! k with Some v => Ok v | None => Raise IndexError end.

(** [a[idx]] for an array of indices: a gather. *)
Definition take_at {A} (a : list A) (idx : list Z) : result (list A) :=
  traverse (get_at a) idx.

(** [a[idx] = v] for an array of indices: all of them are checked first. *)
Definition put_at {A} (a : list A) (idx : list Z) (v : A) : result (list A) :=
  ks ← traverse (np_index (length a)) idx;
  Ok (foldl (fun acc k => <[k := v]> acc) a ks).

(** A slice bound clipped to a sequence of [n] items. *)
Definition clip_bound (n : nat) (i : Z) : nat :=
  if i <? 0 then Z.to_nat (Z.max 0 (i + Z.of_nat n)) else Z.to_nat (Z.min i (Z.of_nat n)).

(** [l[a:b]] *)
Definition py_slice {A} (a b : Z) (l : list A) : list A :=
  let lo := clip_bound (length l) a in
  let hi := clip_bound (length l) b in
  take (hi - lo) (drop lo l).

(** [m[a:b, c:d]] *)
Definition slice2 {A} (a b c d : Z) (m : matrix A) : matrix A :=
  py_slice c d <$> py_slice a b m.

(** [range(start, stop, step)] *)
Definition py_range (start stop step : Z) : result (list Z) :=
  if step =? 0 then Raise ValueError
  else
    let n := if 0 <? step then (stop - start + step - 1) / step
             else (start - stop - step - 1) / (- step) in
    Ok ((fun k => start + Z.of_nat k * step) <$> seq 0 (Z.to_nat n)).

(** The items of [l] at positions [skip, skip + k, skip + 2k, ...], for
    [k >= 1]. *)
Fixpoint every_nth_from {A} (k skip : nat) (l : list A) : list A :=
  match l with
  | [] => []
  | x :: l' =>
    match skip with
    | O => x :: every_nth_from k (k - 1) l'
    | S skip' => every_nth_from k skip' l'
    end
  end.

Definition every_nth {A} (k : nat) (l : list A) : list A := every_nth_from k 0 l.

(** [l[::step]] for a step other than zero; a negative step walks back
    from the last item. *)
Definition py_stride {A} (step : Z) (l : list A) : list A :=
  if 0 <? step then every_nth (Z.to_nat step) l
  else every_nth (Z.to_nat (- step)) (reverse l).

(** ** The sphere pixelizer

    healpy and astropy are used through a fixed interface: the change of
    frame of [SkyCoord(...).galactic], [hp.ang2pix] on arrays of longitudes
    and latitudes, [hp.ang2vec], [hp.vec2pix], [hp.query_disc] (nested,
    inclusive) and [np.radians]. Each of them may refuse its arguments. *)

Class Pixelizer (angle vec : Type) : Type := {
  galactic : angle -> angle -> result (angle * angle);
  ang2pix : Z -> list angle -> list angle -> bool -> result (list Z);
  ang2vec : angle -> angle -> vec;
  vec2pix : Z -> vec -> result Z;
  query_disc : Z -> vec -> angle -> result (list Z);
  radians : angle -> angle
}.

(** [hp.nside2npix(nside)] *)
Definition nside2npix (nside : Z) : Z := 12 * nside * nside.

(** Arrays of one item broadcast against arrays of any length; other
    lengths have to agree. *)
Definition broadcast2 {A B} (l : list A) (k : list B) : result (list (A * B)) :=
  if (length l =? length k)%nat then Ok (zip l k)
  else match l, k with
       | [a], _ => Ok (pair a <$> k)
       | _, [b] => Ok ((fun a => (a, b)) <$> l)
       | _, _ => Raise ValueError
       end.

(** The radii of [draw_circles]: an array, or one number for every object. *)
Inductive radii (angle : Type) : Type :=
  | RadiusArray (rs : list angle)
  | RadiusScalar (r : angle).
Arguments RadiusArray {angle} rs.
Arguments RadiusScalar {angle} r.

(** A catalogue record: its coordinates and the coarse and fine pixels the
    catalogue source has computed for it. *)
Record source (angle : Type) : Type := Source {
  src_RA : angle;
  src_DEC : angle;
  src_pix2 : Z;
  src_pix11 : Z
}.
Arguments Source {angle}.
Arguments src_RA {angle}.
Arguments src_DEC {angle}.
Arguments src_pix2 {angle}.
Arguments src_pix11 {angle}.

(** A catalogue record with its coordinates inside a patch. *)
Record located (angle : Type) : Type := Located {
  loc_src : source angle;
  loc_x : Z;
  loc_y : Z
}.
Arguments Located {angle}.
Arguments loc_src {angle}.
Arguments loc_x {angle}.
Arguments loc_y {angle}.

(** A row of the patch table. *)
Record patch_row : Set := PatchRow {
  row_x : Z;
  row_y : Z;
  row_pix2 : Z;
  row_n_src : Z
}.

(** [v in m] for a matrix: some cell equals [v]. *)
Definition matrix_mem (v : Z) (m : matrix Z) : bool :=
  existsb (existsb (Z.eqb v)) m.

(** [np.where(m == v)]: the positions of [v], row by row. *)
Definition where_eq (m : matrix Z) (v : Z) : list (nat * nat) :=
  concat (imap (fun r row =>
    omap (fun p => if snd p =? v then Some (r, fst p) else None) (imap pair row)) m).

(** [m.any()] and [np.count_nonzero(m)] *)
Definition matrix_any (m : matrix Z) : bool :=
  existsb (existsb (fun v => negb (v =? 0))) m.
Definition count_nonzero (m : matrix Z) : Z :=
  Z.of_nat (length (filter (fun v => v ≠ 0) (concat m))).

(** [for k, v in d.items(): out[k] = f(v)] *)
Definition map_traverse {A B} (f : A -> result B) (d : gmap string A) : result (gmap string B) :=
  kvs ← traverse (fun kv => b ← f (snd kv); Ok (fst kv, b)) (map_to_list d);
  Ok (list_to_map kvs).

Section HEALPix.
Context {angle vec : Type} `{!Pixelizer angle vec}.

(** [radec2pix(ra, dec, nside, nest)] on arrays of coordinates. *)
Definition radec2pix (ra dec : list angle) (nside : Z) (nest : bool) : result (list Z) :=
  pairs ← broadcast2 ra dec;
  lb ← traverse (fun p => galactic (fst p) (snd p)) pairs;
  ang2pix nside (fst <$> lb) (snd <$> lb) nest.

(** [flat_arr2matr(h_arr, pix_matr)]: row [i] of the image is
    [h_arr[pix_matr[i]]]. *)
Definition flat_arr2matr {A} (h_arr : list A) (pix_matr : matrix Z) : result (matrix A) :=
  traverse (take_at h_arr) pix_matr.

(** The body of the loop of [draw_circles] for one object. *)
Definition draw_circle (nside : Z) (pix_matr : matrix Z) (centers_in_patch : bool)
    (h_arr : list Z) (obj : angle * angle * angle) : result (list Z) :=
  let '(ra, dec, radius) := obj in
  lb ← galactic ra dec;
  let v := ang2vec (fst lb) (snd lb) in
  skip ← (if centers_in_patch
          then cl_pix ← vec2pix nside v; Ok (negb (matrix_mem cl_pix pix_matr))
          else Ok false);
  if skip : bool then Ok h_arr
  else pix ← query_disc nside v (radians radius); put_at h_arr pix 1.

(** [zip(ras, decs, radiuses)], after a scalar radius has been repeated
    [len(ras)] times. *)
Definition zip_objects (ras decs : list angle) (radiuses : radii angle)
    : list (angle * angle * angle) :=
  let rs := match radiuses with
            | RadiusArray rs => rs
            | RadiusScalar r => replicate (length ras) r
            end in
  zip (zip ras decs) rs.

(** The flat bitmap [h_arr] of [draw_circles] after its loop over the
    objects. *)
Definition circles_bitmap (objs : list (angle * angle * angle)) (nside : Z)
    (pix_matr : matrix Z) (centers_in_patch : bool) : result (list Z) :=
  let h_arr := replicate (Z.to_nat (nside2npix nside)) 0 in
  for_each (draw_circle nside pix_matr centers_in_patch) objs h_arr.

(** [draw_circles(ras, decs, radiuses, nside, pix_matr, centers_in_patch)] *)
Definition draw_circles (ras decs : list angle) (radiuses : radii angle) (nside : Z)
    (pix_matr : matrix Z) (centers_in_patch : bool) : result (matrix Z) :=
  h_arr ← circles_bitmap (zip_objects ras decs radiuses) nside pix_matr centers_in_patch;
  flat_arr2matr h_arr pix_matr.

(** The flat bitmap [h_arr] of [draw_dots]. *)
Definition dots_bitmap (ras decs : list angle) (nside : Z) : result (list Z) :=
  let h_arr := replicate (Z.to_nat (nside2npix nside)) 0 in
  pix ← radec2pix ras decs nside true;
  put_at h_arr pix 1.

(** [draw_dots(ras, decs, nside, pix_matr)] *)
Definition draw_dots (ras decs : list angle) (nside : Z) (pix_matr : matrix Z)
    : result (matrix Z) :=
  h_arr ← dots_bitmap ras decs nside;
  flat_arr2matr h_arr pix_matr.

(** The first position of [pix] in the sub-window, as [coords[0][0]] and
    [coords[1][0]] read it off [np.where]. *)
Definition locate (f_matr : matrix Z) (s : source angle) : result (located angle) :=
  match where_eq f_matr (src_pix11 s) with
  | (r, c) :: _ => Ok (Located s (Z.of_nat r) (Z.of_nat c))
  | [] => Raise IndexError
  end.

(** [src_on_batch(patch_line, f_matr, cats)] *)
Definition src_on_batch (patch_line : patch_row) (f_matr : matrix Z)
    (cats : gmap string (list (source angle))) : result (gmap string (list (located angle))) :=
  let x := row_x patch_line in
  let y := row_y patch_line in
  let f_matr := slice2 x (x + 64) y (y + 64) f_matr in
  map_traverse (fun cat =>
    let cur_cat := filter (fun s => src_pix2 s = row_pix2 patch_line) cat in
    let cur_cat := filter (fun s => src_pix11 s ∈ concat f_matr) cur_cat in
    traverse (locate f_matr) cur_cat) cats.

(** The window scan of one coarse pixel in [generate_patch_coords]: the
    rows [(x, y, n_src)] of the windows of [pic] that hold an object. *)
Definition scan_windows (pic : matrix Z) (step patch_size : Z) (i : Z)
    : result (list patch_row) :=
  xs ← py_range 0 (1024 - 64) step;
  ys ← py_range 0 (1024 - 64) step;
  Ok (x ← xs; y ← ys;
      let patch_pic := slice2 x (x + patch_size) y (y + patch_size) pic in
      if matrix_any patch_pic then [PatchRow x y i (count_nonzero patch_pic)] else []).

(** The down-sampling at the end of [generate_patch_coords]: with more
    than [n_patches] rows, every [len(all_idx) // n_patches]-th row is
    kept. A slice of step zero, which an empty table and a negative
    target give, is refused. *)
Definition subsample (n_patches : Z) (all_idx : list patch_row) : result (list patch_row) :=
  if Z.of_nat (length all_idx) >? n_patches then
    if n_patches =? 0 then Raise ZeroDivisionError
    else
      let step := Z.of_nat (length all_idx) / n_patches in
      if step =? 0 then Raise ValueError else Ok (py_stride step all_idx)
  else Ok all_idx.

Section Generator.
(** [ADL.other.metr.cats2dict], which reads the catalogues of a
    directory into a dict, belongs to another module and is a parameter. *)
Variable cats2dict : string -> gmap string (list (source angle)).

(** The table [df] of [generate_patch_coords]: the records of the
    catalogues, or of those of [cats_subset], one after the other.
    [pd.concat] refuses an empty collection of tables. *)
Definition catalogue_rows (cats_path : string) (cats_subset : option (list string))
    : result (list (source angle)) :=
  let cats := cats2dict cats_path in
  let cats := match cats_subset with
              | Some subset => filter (fun kv => fst kv ∈ subset) cats
              | None => cats
              end in
  match map_to_list cats with
  | [] => Raise ValueError
  | tables => Ok (concat (snd <$> tables))
  end.

(** [generate_patch_coords(cats_path, step, o_nside, nside, radius,
    patch_size, n_patches, cats_subset)] *)
Definition generate_patch_coords (cats_path : string) (step o_nside nside : Z)
    (radius : angle) (patch_size : Z) (n_patches : option Z)
    (cats_subset : option (list string)) : result (list patch_row) :=
  let step := match n_patches with Some _ => 1 | None => step end in
  df ← catalogue_rows cats_path cats_subset;
  all_idx ← for_each (fun all_idx i =>
      pix_matr ← one_pixel_fragmentation o_nside i nside;
      pic ← draw_dots (src_RA <$> df) (src_DEC <$> df) nside pix_matr;
      rows ← scan_windows pic step patch_size i;
      Ok (all_idx ++ rows))
    (Z.of_nat <$> seq 0 (Z.to_nat (nside2npix 2))) [];
  match n_patches with
  | Some n => subsample n all_idx
  | None => Ok all_idx
  end.
End Generator.
End HEALPix.

(** ** Paths, the patch table file and the mask files *)

(** [s.startswith("/")] and [s.endswith("/")] *)
Definition starts_with_sep (s : string) : bool :=
  match s with
  | String c _ => Ascii.eqb c "/"
  | EmptyString => false
  end.

Fixpoint ends_with_sep (s : string) : bool :=
  match s with
  | EmptyString => false
  | String c EmptyString => Ascii.eqb c "/"
  | String _ s' => ends_with_sep s'
  end.

(** [os.path.join(a, b)] of [posixpath]: an absolute [b] replaces [a];
    the separator is added unless [a] is empty or ends with one. *)
Definition path_join (a b : string) : string :=
  if starts_with_sep b then b
  else if String.eqb a "" || ends_with_sep a then a +:+ b
  else a +:+ "/" +:+ b.

(** A row of [pc.csv]: the columns [x], [y] and [pix2] that
    [update_old_dataset] reads, and the column [n_src] that it sets, [None]
    where nothing is set. *)
Record csv_row : Set := CsvRow {
  csv_x : Z;
  csv_y : Z;
  csv_pix2 : Z;
  csv_n_src : option Z
}.

(** [patch_coords.loc[patch_coords["pix2"] == i, "n_src"] = n_src], with the
    lengths equal: the selected rows take the values in their order. *)
Fixpoint loc_assign (i : Z) (patch_coords : list csv_row) (n_src : list Z) : list csv_row :=
  match patch_coords with
  | [] => []
  | row :: rest =>
    if bool_decide (csv_pix2 row = i) then
      match n_src with
      | n :: n_src' =>
        CsvRow (csv_x row) (csv_y row) (csv_pix2 row) (Some n) :: loc_assign i rest n_src'
      | [] => row :: loc_assign i rest []
      end
    else row :: loc_assign i rest n_src
  end.

(** The same assignment as pandas checks it: a list whose length is not
    the number of the selected rows is refused. *)
Definition loc_set (i : Z) (patch_coords : list csv_row) (n_src : list Z)
    : result (list csv_row) :=
  if (length (filter (fun row => csv_pix2 row = i) patch_coords) =? length n_src)%nat
  then Ok (loc_assign i patch_coords n_src)
  else Raise ValueError.

(** [f"{i}.npy"] *)
Definition npy_name (i : Z) : string := pretty i +:+ ".npy".

(** [pic.reshape(pic.shape + (1,))]: every cell becomes an array of one
    item. *)
Definition add_axis (pic : matrix Z) : matrix (list Z) :=
  (fun row : list Z => (fun v => [v]) <$> row) <$> pic.

(** A loop that saves an array per item, in a directory taken as the map
    from the paths of its files to their contents. [np.save] goes through
    the file system, which may refuse the write: [save_fails file arr
    files] is [None] when the write succeeds, and the file of the path,
    new or not, then holds the array; otherwise it is the exception and
    the directory as the failed write leaves it. The files saved before
    an exception stay. *)
Fixpoint save_each {A}
    (save_fails : string -> A -> gmap string A -> option (py_error * gmap string A))
    (body : Z -> result (string * A)) (xs : list Z) (files : gmap string A)
    : gmap string A * result unit :=
  match xs with
  | [] => (files, Ok tt)
  | i :: xs' =>
    match body i with
    | Ok (file, arr) =>
      match save_fails file arr files with
      | None => save_each save_fails body xs' (<[file := arr]> files)
      | Some (e, files') => (files', Raise e)
      end
    | Raise e => (files, Raise e)
    end
  end.

Section Dataset.
Context {angle vec : Type} `{!Pixelizer angle vec}.
(** [ADL.other.metr.cats2dict], [pd.read_csv] and the file system under
    [np.save] are parameters: the catalogues of a directory, the rows of
    a table file that exists, and the writes that fail. *)
Variable cats2dict : string -> gmap string (list (source angle)).
Variable read_csv : string -> list csv_row.
Variable np_save_fails :
  string -> matrix (list Z) -> gmap string (matrix (list Z))
  -> option (py_error * gmap string (matrix (list Z))).

(** The body of the loop of [draw_masks_and_save] for coarse pixel [i]:
    the path and the array that [np.save] gets. *)
Definition mask_file (df : list (source angle)) (outpath : string) (o_nside nside : Z)
    (radius : angle) (i : Z) : result (string * matrix (list Z)) :=
  pix_matr ← one_pixel_fragmentation o_nside i nside;
  pic ← draw_circles (src_RA <$> df) (src_DEC <$> df) (RadiusScalar radius) nside pix_matr
                     false;
  let pic := add_axis pic in
  Ok (path_join outpath (npy_name i), pic).

(** [draw_masks_and_save(cats_path, outpath, o_nside, nside, radius)] on a
    directory tree [files]. *)
Definition draw_masks_and_save (cats_path outpath : string) (o_nside nside : Z)
    (radius : angle) (files : gmap string (matrix (list Z)))
    : gmap string (matrix (list Z)) * result unit :=
  match catalogue_rows cats2dict cats_path None with
  | Raise e => (files, Raise e)
  | Ok df =>
    save_each np_save_fails (mask_file df outpath o_nside nside radius)
              (Z.of_nat <$> seq 0 (Z.to_nat (nside2npix o_nside))) files
  end.
(** The body of the loop of [update_old_dataset] for coarse pixel [i]. *)
Definition update_pixel (df : list (source angle)) (patch_size o_nside nside : Z)
    (patch_coords : list csv_row) (i : Z) : result (list csv_row) :=
  let cur_patch_coords := filter (fun row => csv_pix2 row = i) patch_coords in
  pix_matr ← one_pixel_fragmentation o_nside i nside;
  pic ← draw_dots (src_RA <$> df) (src_DEC <$> df) nside pix_matr;
  let n_src := omap (fun row =>
      let x := csv_x row in
      let y := csv_y row in
      let patch_pic := slice2 x (x + patch_size) y (y + patch_size) pic in
      if matrix_any patch_pic then Some (count_nonzero patch_pic) else None)
    cur_patch_coords in
  loc_set i patch_coords n_src.

(** [update_old_dataset(path, cats_subset, patch_size, o_nside, nside)]:
    the result is the table that [to_csv] writes, with the path it is
    written to. *)
Definition update_old_dataset (path : string) (cats_subset : option (list string))
    (patch_size o_nside nside : Z) : result (string * list csv_row) :=
  df ← catalogue_rows cats2dict (path_join path "cats") cats_subset;
  let patch_coords := read_csv (path_join path "pc.csv") in
  let patch_coords :=
    (fun row => CsvRow (csv_x row) (csv_y row) (csv_pix2 row) None) <$> patch_coords in
  patch_coords ← for_each (update_pixel df patch_size o_nside nside)
                          (Z.of_nat <$> seq 0 (Z.to_nat (nside2npix 2))) patch_coords;
  Ok (path_join path "pc.csv", patch_coords).
End Dataset.

(** ** A pixelizer to run the model on

    A stand-in for healpy on which the model computes: a coordinate is the
    pixel it falls in, a vector is that pixel, and the disc of radius [r]
    round pixel [v] is the run of pixels from [v - r] to [v + r] that exist
    at the resolution. *)
#[global] Instance line_pixelizer : Pixelizer Z Z := {|
  galactic ra dec := Ok (ra, dec);
  ang2pix nside lon lat nest := Ok lon;
  ang2vec l b := l;
  vec2pix nside v := Ok v;
  query_disc nside v r :=
    Ok (filter (fun q => 0 <= q < nside2npix nside)
               ((fun k => v - r + Z.of_nat k) <$> seq 0 (Z.to_nat (2 * r + 1))));
  radians r := r
|}.

(** A catalogue record of the stand-in that falls in fine pixel [pix]. *)
Definition dot_at (pix : Z) : source Z := Source pix 0 0 pix.

(** A directory that holds one catalogue, of records at the pixels [pixs]. *)
Definition one_catalogue (pixs : list Z) : string -> gmap string (list (source Z)) :=
  fun _ => {[ "clusters"%string := dot_at <$> pixs ]}.

(** The correspondence matrix of coarse pixel 0 two levels down, a row of
    ten fine pixels, and a directory of one catalogue with three records:
    inputs of the examples below. *)
Definition matrix_0_depth_2 : matrix Z :=
  [[0; 1; 4; 5]; [2; 3; 6; 7]; [8; 9; 12; 13]; [10; 11; 14; 15]].

Definition strip_of_ten : matrix Z := [[0; 1; 2; 3; 4; 5; 6; 7; 8; 9]].

Definition three_records : gmap string (list (source Z)) :=
  {[ "clusters"%string := [Source 0 0 0 14; Source 0 0 1 14; Source 0 0 0 99] ]}.

(** A file system on which every write succeeds, and one that is full
    when the mask of coarse pixel 2 is written and leaves no file of that
    name. *)
Definition every_write_succeeds
    : string -> list (list (list Z)) -> gmap string (list (list (list Z)))
      -> option (py_error * gmap string (list (list (list Z)))) :=
  fun _ _ _ => None.

Definition no_room_for_mask_2
    : string -> list (list (list Z)) -> gmap string (list (list (list Z)))
      -> option (py_error * gmap string (list (list (list Z)))) :=
  fun file _ files =>
    if String.eqb file "out/2.npy" then Some (OSError, delete file files) else None.

(** ** The cell-wise reading of the builder *)

(** What [recursive_fill] does to the cell at row [i], column [j] of a
    square view of side [2 ^ d] that holds [x]: at each level the value is
    doubled, the lower half of the rows adds one, it is doubled again and
    the right half of the columns adds one, and the cell carries on into
    its quadrant. *)
Fixpoint fill_cell (t : dtype) (d : nat) (i j : nat) (x : Z) : Z :=
  match d with
  | O => x
  | S d' =>
    let h := (2 ^ d')%nat in
    let x := left_shift1 t x in
    let x := if (h <=? i)%nat then add1 t x else x in
    let x := left_shift1 t x in
    let x := if (h <=? j)%nat then add1 t x else x in
    fill_cell t d' (if (h <=? i)%nat then i - h else i)%nat
                   (if (h <=? j)%nat then j - h else j)%nat x
  end.

(** The nested-scheme offset of the cell at row [i], column [j] of a square
    of side [2 ^ d]: two bits per level, the row's bit above the column's,
    the coarsest level first. *)
Fixpoint interleave (d : nat) (i j : nat) : Z :=
  match d with
  | O => 0
  | S d' =>
    let h := (2 ^ d')%nat in
    (2 * (if (h <=? i)%nat then 1 else 0) + (if (h <=? j)%nat then 1 else 0)) * 4 ^ Z.of_nat d'
    + interleave d' (if (h <=? i)%nat then i - h else i)%nat
                    (if (h <=? j)%nat then j - h else j)%nat
  end.

(** The correspondence matrix of pixel [p] at depth [d], cell by cell. *)
Definition nested_matrix (p : Z) (d : nat) : matrix Z :=
  (fun r => (fun c => p * 4 ^ Z.of_nat d + interleave d r c) <$> seq 0 (2 ^ d)) <$> seq 0 (2 ^ d).

Section Readings.
Context {angle vec : Type} `{!Pixelizer angle vec}.

(** The fine pixel of the centre of an object, as [draw_circles] finds
    it for its filter. *)
Definition center_pixel (nside : Z) (obj : angle * angle * angle) : result Z :=
  lb ← galactic (fst (fst obj)) (snd (fst obj));
  vec2pix nside (ang2vec (fst lb) (snd lb)).

(** The filter of [draw_circles]: the centre of the object is a cell of
    the matrix. *)
Definition center_in_patch (nside : Z) (pix_matr : matrix Z)
    (obj : angle * angle * angle) : bool :=
  match center_pixel nside obj with
  | Ok cl_pix => matrix_mem cl_pix pix_matr
  | Raise _ => false
  end.

(** The pixels of the disc of an object. *)
Definition disc_pixels (nside : Z) (obj : angle * angle * angle) : result (list Z) :=
  lb ← galactic (fst (fst obj)) (snd (fst obj));
  query_disc nside (ang2vec (fst lb) (snd lb)) (radians (snd obj)).
End Readings.

(** A cell of a bitmap is a presence flag. *)
Definition is_flag (v : Z) : Prop := v = 0 ∨ v = 1.

(** ** Readings of the generator and of the update *)

(** The window a row of the patch table names: coarse pixel and offsets. *)
Definition row_key (row : patch_row) : Z * Z * Z := (row_pix2 row, row_x row, row_y row).

Section GeneratorReadings.
Context {angle vec : Type} `{!Pixelizer angle vec}.

(** One turn of the loop of [generate_patch_coords]: the rows of coarse
    pixel [i]. *)
Definition pixel_rows (df : list (source angle)) (step o_nside nside patch_size : Z) (i : Z)
    : result (list patch_row) :=
  pix_matr ← one_pixel_fragmentation o_nside i nside;
  pic ← draw_dots (src_RA <$> df) (src_DEC <$> df) nside pix_matr;
  scan_windows pic step patch_size i.

(** The state of the table after the turns of the coarse pixels below
    [k]: the rows of these pixels have their counts, the others have
    none. *)
Definition updated_below (df : list (source angle)) (patch_size o_nside nside : Z)
    (k : nat) (old new : csv_row) : Prop :=
  csv_x new = csv_x old ∧ csv_y new = csv_y old ∧ csv_pix2 new = csv_pix2 old
  ∧ (0 <= csv_pix2 old < Z.of_nat k ->
       ∃ pix_matr pic,
         one_pixel_fragmentation o_nside (csv_pix2 old) nside = Ok pix_matr
         ∧ draw_dots (src_RA <$> df) (src_DEC <$> df) nside pix_matr = Ok pic
         ∧ matrix_any (slice2 (csv_x old) (csv_x old + patch_size)
                              (csv_y old) (csv_y old + patch_size) pic) = true
         ∧ csv_n_src new
           = Some (count_nonzero (slice2 (csv_x old) (csv_x old + patch_size)
                                         (csv_y old) (csv_y old + patch_size) pic)))
  ∧ (¬ (0 <= csv_pix2 old < Z.of_nat k) -> csv_n_src new = None).

End GeneratorReadings.

(** ** Facts about the error monad and the matrix operations *)

Lemma bind_Ok {A B} (f : A -> result B) (a : A) : (Ok a ≫= f) = f a.
Proof. reflexivity. Qed.

Lemma traverse_Ok {A B} (f : A -> result B) (g : A -> B) (xs : list A) :
  (∀ x, x ∈ xs -> f x = Ok (g x)) -> traverse f xs = Ok (g <$> xs).
Proof.
  induction xs as [|x xs IH]; intros Hf; [done|].
  cbn. rewrite Hf by apply list_elem_of_here. cbn.
  rewrite IH; [done|]. intros y Hy. apply Hf. by apply list_elem_of_further.
Qed.

Lemma traverse_length {A B} (f : A -> result B) xs ys :
  traverse f xs = Ok ys -> length ys = length xs.
Proof.
  revert ys. induction xs as [|x xs IH]; intros ys; cbn.
  - by intros [= <-].
  - destruct (f x) as [y|]; cbn; [|done].
    destruct (traverse f xs) as [ys'|]; cbn; [|done].
    intros [= <-]. cbn. f_equal. by apply IH.
Qed.

Lemma traverse_lookup {A B} (f : A -> result B) xs ys i x :
  traverse f xs = Ok ys -> xs !! i = Some x -> ∃ y, ys !! i = Some y ∧ f x = Ok y.
Proof.
  revert ys i. induction xs as [|x0 xs IH]; intros ys i; cbn; [done|].
  destruct (f x0) as [y0|] eqn:E0; cbn; [|done].
  destruct (traverse f xs) as [ys'|]; cbn; [|done].
  intros [= <-]. destruct i as [|i]; cbn.
  - intros [= <-]. eauto.
  - intros Hi. by apply IH.
Qed.

Lemma imap_imap {A B C} (f : nat -> B -> C) (g : nat -> A -> B) (l : list A) :
  imap f (imap g l) = imap (fun i x => f i (g i x)) l.
Proof.
  apply list_eq. intros i. rewrite !list_lookup_imap. by destruct (l !! i).
Qed.

Lemma mapij_mapij {A B C} (f : nat -> nat -> B -> C) (g : nat -> nat -> A -> B) (m : matrix A) :
  mapij f (mapij g m) = mapij (fun r c x => f r c (g r c x)) m.
Proof.
  unfold mapij. rewrite imap_imap. apply imap_ext. intros r row _. cbn.
  apply imap_imap.
Qed.

Lemma mapij_ext {A B} (f g : nat -> nat -> A -> B) (m : matrix A) :
  (∀ r c x, f r c x = g r c x) -> mapij f m = mapij g m.
Proof.
  intros H. unfold mapij. apply imap_ext. intros r row _. cbn.
  apply imap_ext. intros c x _. apply H.
Qed.

Lemma mapij_id {A} (f : nat -> nat -> A -> A) (m : matrix A) :
  (∀ r c x, f r c x = x) -> mapij f m = m.
Proof.
  intros H. unfold mapij. apply list_eq. intros r. rewrite list_lookup_imap.
  destruct (m !! r) as [row|]; [|done]. cbn. f_equal.
  apply list_eq. intros c. rewrite list_lookup_imap.
  destruct (row !! c); [|done]. cbn. by rewrite H.
Qed.

Lemma in_window_true (w : window) (r c : nat) :
  in_window w r c = true <->
  (r0 w <= r < r0 w + nrows w ∧ c0 w <= c < c0 w + ncols w)%nat.
Proof.
  unfold in_window. rewrite !andb_true_iff, !Nat.leb_le, !Nat.ltb_lt. lia.
Qed.

Lemma in_window_false (w : window) (r c : nat) :
  in_window w r c = false <->
  ¬ (r0 w <= r < r0 w + nrows w ∧ c0 w <= c < c0 w + ncols w)%nat.
Proof. rewrite <- in_window_true. destruct (in_window w r c); naive_solver. Qed.

Lemma pow2_pos (d : nat) : (1 <= 2 ^ d)%nat.
Proof. induction d; cbn; lia. Qed.

(** [recursive_fill] on a square view of side [2 ^ d] returns, with fuel
    for [d + 1] calls, and changes each cell of the view as [fill_cell]
    says, leaving the rest of the buffer alone. *)
Lemma recursive_fill_fuel_cells (t : dtype) (d : nat) :
  ∀ (fuel : nat) (w : window) (m : matrix Z),
    nrows w = (2 ^ d)%nat -> ncols w = (2 ^ d)%nat -> (d < fuel)%nat ->
    recursive_fill_fuel fuel t w m =
    Ok (mapij (fun r c x =>
          if in_window w r c then fill_cell t d (r - r0 w) (c - c0 w) x else x) m).
Proof.
  induction d as [|d IH]; intros fuel w m Hr Hc Hfuel.
  - destruct fuel as [|fuel]; [lia|]. cbn. rewrite Hr. cbn.
    f_equal. symmetry. apply mapij_id. intros r c x. by destruct (in_window w r c).
  - destruct fuel as [|fuel]; [lia|].
    pose proof (pow2_pos d) as Hpos.
    assert (H2 : (2 ^ S d = 2 * 2 ^ d)%nat) by (cbn; lia).
    rewrite H2 in Hr, Hc.
    cbn [recursive_fill_fuel fill_cell].
    assert (Hne : (nrows w =? 1)%nat = false) by (apply Nat.eqb_neq; lia).
    rewrite Hne.
    assert (Hmid : (nrows w / 2 = 2 ^ d)%nat).
    { rewrite Hr. rewrite Nat.mul_comm. apply Nat.div_mul. lia. }
    rewrite Hmid. clear H2 Hmid Hne.
    set (h := (2 ^ d)%nat) in *. clearbody h.
    assert (Q1 : subview w 0 h 0 h = Window (r0 w) (c0 w) h h)
      by (unfold subview; rewrite Hr, Hc; f_equal; lia).
    assert (Q2 : subview w 0 h h h = Window (r0 w) (c0 w + h) h h)
      by (unfold subview; rewrite Hr, Hc; f_equal; lia).
    assert (Q3 : subview w h h 0 h = Window (r0 w + h) (c0 w) h h)
      by (unfold subview; rewrite Hr, Hc; f_equal; lia).
    assert (Q4 : subview w h h h h = Window (r0 w + h) (c0 w + h) h h)
      by (unfold subview; rewrite Hr, Hc; f_equal; lia).
    assert (Q5 : rows_from w h = Window (r0 w + h) (c0 w) h (2 * h))
      by (unfold rows_from, subview; rewrite Hr, Hc; f_equal; lia).
    assert (Q6 : cols_from w h = Window (r0 w) (c0 w + h) (2 * h) h)
      by (unfold cols_from, subview; rewrite Hr, Hc; f_equal; lia).
    rewrite Q1, Q2, Q3, Q4, Q5, Q6. clear Q1 Q2 Q3 Q4 Q5 Q6.
    rewrite (IH fuel _ _) by (cbn [nrows ncols]; lia). cbn [mbind result_bind].
    rewrite (IH fuel _ _) by (cbn [nrows ncols]; lia). cbn [mbind result_bind].
    rewrite (IH fuel _ _) by (cbn [nrows ncols]; lia). cbn [mbind result_bind].
    rewrite (IH fuel _ _) by (cbn [nrows ncols]; lia).
    f_equal. unfold update_view. rewrite !mapij_mapij.
    apply mapij_ext. intros r c x. clear IH Hfuel.
    cbn [r0 c0].
    repeat match goal with
    | |- context [in_window ?w ?r ?c] =>
      let E := fresh "E" in
      destruct (in_window w r c) eqn:E;
      [apply in_window_true in E | apply in_window_false in E];
      cbn [r0 c0 nrows ncols] in E;
      try (exfalso; lia)
    end.
    all: repeat match goal with
         | |- context [(?a <=? ?b)%nat] => destruct (Nat.leb_spec a b)
         end.
    all: try (exfalso; lia).
    all: try reflexivity.
    all: try (f_equal; lia).
Qed.

(** *** Element arithmetic *)

Lemma cast_step (t : dtype) (a x b : Z) : cast t (a * cast t x + b) = cast t (a * x + b).
Proof.
  destruct t; unfold cast; [| |done].
  - f_equal. rewrite (Z.mod_eq (x + 2 ^ 63) (2 ^ 64)) by lia.
    set (q := (x + 2 ^ 63) / 2 ^ 64).
    replace (a * (x + 2 ^ 63 - 2 ^ 64 * q - 2 ^ 63) + b + 2 ^ 63)
      with (a * x + b + 2 ^ 63 + (- a * q) * 2 ^ 64) by ring.
    apply Z_mod_plus_full.
  - rewrite (Z.mod_eq x (2 ^ 64)) by lia.
    set (q := x / 2 ^ 64).
    replace (a * (x - 2 ^ 64 * q) + b) with (a * x + b + (- a * q) * 2 ^ 64) by ring.
    apply Z_mod_plus_full.
Qed.

Lemma cast_idemp (t : dtype) (x : Z) : cast t (cast t x) = cast t x.
Proof.
  replace (cast t x) with (1 * cast t x + 0) at 1 by ring.
  rewrite cast_step. f_equal. ring.
Qed.

Lemma cast_dtype_of (p : Z) : cast (dtype_of p) p = p.
Proof.
  unfold dtype_of, cast.
  destruct (- 2 ^ 63 <=? p) eqn:E1; destruct (p <? 2 ^ 63) eqn:E2; cbn [andb].
  - apply Z.leb_le in E1. apply Z.ltb_lt in E2.
    rewrite Z.mod_small by lia. lia.
  - destruct (0 <=? p) eqn:E3; destruct (p <? 2 ^ 64) eqn:E4; cbn [andb]; try done.
    apply Z.leb_le in E3. apply Z.ltb_lt in E4. apply Z.mod_small. lia.
  - destruct (0 <=? p) eqn:E3; destruct (p <? 2 ^ 64) eqn:E4; cbn [andb]; try done.
    apply Z.leb_le in E3. apply Z.ltb_lt in E4. apply Z.mod_small. lia.
  - destruct (0 <=? p) eqn:E3; destruct (p <? 2 ^ 64) eqn:E4; cbn [andb]; try done.
    apply Z.leb_le in E3. apply Z.ltb_lt in E4. apply Z.mod_small. lia.
Qed.

Lemma cast_int64_small (v : Z) : - 2 ^ 63 <= v < 2 ^ 63 -> cast int64 v = v.
Proof. intros H. unfold cast. rewrite Z.mod_small by lia. lia. Qed.

(** One level of the fill on one cell: two bits are appended. *)
Lemma fill_level (t : dtype) (rb cb : bool) (x : Z) :
  (if cb then add1 t (left_shift1 t (if rb then add1 t (left_shift1 t x) else left_shift1 t x))
   else left_shift1 t (if rb then add1 t (left_shift1 t x) else left_shift1 t x))
  = cast t (4 * x + 2 * (if rb then 1 else 0) + (if cb then 1 else 0)).
Proof.
  unfold add1, left_shift1. rewrite !Z.shiftl_mul_pow2 by lia.
  change (2 ^ 1) with 2. rewrite !(Z.mul_comm _ 2).
  assert (S1 : ∀ y, cast t (cast t y + 1) = cast t (y + 1)).
  { intros y. replace (cast t y + 1) with (1 * cast t y + 1) by ring.
    rewrite cast_step. f_equal. ring. }
  assert (S2 : ∀ y, cast t (2 * cast t y) = cast t (2 * y)).
  { intros y. replace (2 * cast t y) with (2 * cast t y + 0) by ring.
    rewrite cast_step. f_equal. ring. }
  destruct rb, cb; rewrite ?(S1 (2 * x)), ?S2, ?S1; f_equal; ring.
Qed.

(** The fill of a cell in closed form: the value is shifted by two bits
    per level and the interleaved bits of the position are added, in the
    arithmetic of the element type. *)
Lemma fill_cell_closed (t : dtype) (d : nat) :
  ∀ (i j : nat) (x : Z), cast t x = x ->
    fill_cell t d i j x = cast t (x * 4 ^ Z.of_nat d + interleave d i j).
Proof.
  induction d as [|d IH]; intros i j x Hx.
  - cbn. rewrite <- Hx at 1. f_equal. lia.
  - cbn [fill_cell interleave].
    set (rb := (2 ^ d <=? i)%nat). set (cb := (2 ^ d <=? j)%nat).
    set (i' := (if rb then i - 2 ^ d else i)%nat).
    set (j' := (if cb then j - 2 ^ d else j)%nat).
    pose proof (fill_level t rb cb x) as L.
    replace (if cb then add1 t (left_shift1 t (if rb then add1 t (left_shift1 t x) else left_shift1 t x))
             else left_shift1 t (if rb then add1 t (left_shift1 t x) else left_shift1 t x))
      with (cast t (4 * x + 2 * (if rb then 1 else 0) + (if cb then 1 else 0))).
    rewrite IH by apply cast_idemp.
    rewrite Z.mul_comm, cast_step. f_equal.
    rewrite Nat2Z.inj_succ, Z.pow_succ_r by lia. ring.
Qed.

(** *** The interleaving is a bijection *)

Lemma pow4_pos (d : nat) : 0 < 4 ^ Z.of_nat d.
Proof. apply Z.pow_pos_nonneg; lia. Qed.

Lemma interleave_range (d : nat) :
  ∀ i j : nat, (i < 2 ^ d)%nat -> (j < 2 ^ d)%nat -> 0 <= interleave d i j < 4 ^ Z.of_nat d.
Proof.
  induction d as [|d IH]; intros i j Hi Hj.
  - cbn. lia.
  - cbn [interleave]. rewrite Nat2Z.inj_succ, Z.pow_succ_r by lia.
    pose proof (pow4_pos d) as HP.
    assert (H2 : (2 ^ S d = 2 * 2 ^ d)%nat) by (cbn; lia).
    rewrite H2 in Hi, Hj. clear H2.
    set (h := (2 ^ d)%nat) in *. set (P := 4 ^ Z.of_nat d) in *.
    destruct (Nat.leb_spec h i), (Nat.leb_spec h j).
    + pose proof (IH (i - h)%nat (j - h)%nat ltac:(lia) ltac:(lia)). lia.
    + pose proof (IH (i - h)%nat j ltac:(lia) ltac:(lia)). lia.
    + pose proof (IH i (j - h)%nat ltac:(lia) ltac:(lia)). lia.
    + pose proof (IH i j ltac:(lia) ltac:(lia)). lia.
Qed.

Lemma interleave_inj (d : nat) :
  ∀ i j i' j' : nat,
    (i < 2 ^ d)%nat -> (j < 2 ^ d)%nat -> (i' < 2 ^ d)%nat -> (j' < 2 ^ d)%nat ->
    interleave d i j = interleave d i' j' -> i = i' ∧ j = j'.
Proof.
  induction d as [|d IH]; intros i j i' j' Hi Hj Hi' Hj' E.
  - cbn in *. lia.
  - cbn [interleave] in E.
    pose proof (pow4_pos d) as HP.
    assert (H2 : (2 ^ S d = 2 * 2 ^ d)%nat) by (cbn; lia).
    rewrite H2 in Hi, Hj, Hi', Hj'. clear H2.
    destruct (Nat.leb_spec (2 ^ d) i), (Nat.leb_spec (2 ^ d) j),
             (Nat.leb_spec (2 ^ d) i'), (Nat.leb_spec (2 ^ d) j').
    all: match type of E with
         | _ + interleave ?d0 ?a ?b = _ + interleave _ ?a' ?b' =>
           pose proof (interleave_range d0 a b ltac:(lia) ltac:(lia));
           pose proof (interleave_range d0 a' b' ltac:(lia) ltac:(lia));
           try (exfalso; lia);
           destruct (IH a b a' b' ltac:(lia) ltac:(lia) ltac:(lia) ltac:(lia) ltac:(lia));
           lia
         end.
Qed.

(** *** The matrix the builder returns *)

Lemma mapij_replicate {A B} (f : nat -> nat -> A -> B) (n k : nat) (x : A) :
  mapij f (replicate n (replicate k x))
  = (fun r => (fun c => f r c x) <$> seq 0 k) <$> seq 0 n.
Proof.
  unfold mapij.
  rewrite (imap_ext _ (fun r _ => (fun c => f r c x) <$> seq 0 k)).
  - rewrite imap_seq_0. by rewrite length_replicate.
  - intros r row [-> _]%lookup_replicate. cbn.
    rewrite (imap_ext _ (fun c _ => f r c x)).
    + rewrite imap_seq_0. by rewrite length_replicate.
    + by intros c y [-> _]%lookup_replicate.
Qed.

Lemma log2_ratio_pow2 (o : Z) (d : nat) :
  0 < o -> log2_ratio o (o * 2 ^ Z.of_nat d) = Ok (Z.of_nat d).
Proof.
  intros Ho. pose proof (Z.pow_pos_nonneg 2 (Z.of_nat d) ltac:(lia) ltac:(lia)) as Hp.
  unfold log2_ratio.
  assert (0 < o * 2 ^ Z.of_nat d) by nia.
  destruct (Z.eqb_spec o 0); [lia|].
  destruct (Z.eqb_spec (o * 2 ^ Z.of_nat d) 0); [lia|].
  destruct (Z.ltb_spec o 0); [lia|].
  destruct (Z.ltb_spec (o * 2 ^ Z.of_nat d) 0); [lia|]. cbn [xorb].
  rewrite !Z.abs_eq by lia.
  destruct (Z.leb_spec o (o * 2 ^ Z.of_nat d)); [|nia].
  rewrite Z.mul_comm, Z.div_mul by lia.
  by rewrite Z.log2_pow2 by lia.
Qed.

Lemma pow2_nat_Z (d : nat) : Z.to_nat (2 ^ Z.of_nat d) = (2 ^ d)%nat.
Proof.
  apply Nat2Z.inj. rewrite Z2Nat.id by (apply Z.pow_nonneg; lia).
  by rewrite Nat2Z.inj_pow.
Qed.

(** The builder returns on every power-of-two ratio, and its matrix holds
    the nested indices in the arithmetic of the element type. *)
Lemma one_pixel_fragmentation_cast (o p : Z) (d : nat) :
  0 < o ->
  one_pixel_fragmentation o p (o * 2 ^ Z.of_nat d)
  = Ok ((fun row : list Z => cast (dtype_of p) <$> row) <$> nested_matrix p d).
Proof.
  intros Ho. unfold one_pixel_fragmentation.
  rewrite log2_ratio_pow2 by done. cbn [mbind result_bind].
  destruct (Z.ltb_spec (Z.of_nat d) 0); [lia|].
  rewrite pow2_nat_Z. unfold recursive_fill. cbn [nrows whole].
  rewrite (recursive_fill_fuel_cells _ d) by (cbn; auto using Nat.pow_gt_lin_r with lia).
  f_equal. rewrite mapij_replicate. unfold nested_matrix.
  rewrite <- list_fmap_compose. apply list_fmap_ext. intros i r Hr. cbn.
  rewrite <- list_fmap_compose. apply list_fmap_ext. intros j c Hc. cbn.
  apply lookup_seq in Hr as [-> Hr]. apply lookup_seq in Hc as [-> Hc].
  assert (E : in_window (whole (2 ^ d) (2 ^ d)) (0 + i) (0 + j) = true)
    by (apply in_window_true; cbn; lia).
  rewrite E. cbn [r0 c0 whole]. rewrite !Nat.sub_0_r.
  apply fill_cell_closed, cast_dtype_of.
Qed.

Lemma nested_matrix_cell (p : Z) (d r c : nat) :
  (r < 2 ^ d)%nat -> (c < 2 ^ d)%nat ->
  cell (nested_matrix p d) r c = Some (p * 4 ^ Z.of_nat d + interleave d r c).
Proof.
  intros Hr Hc. unfold cell, nested_matrix.
  rewrite list_lookup_fmap, lookup_seq_lt by done. cbn.
  by rewrite list_lookup_fmap, lookup_seq_lt by done.
Qed.

Lemma nested_matrix_shape (p : Z) (d : nat) :
  length (nested_matrix p d) = (2 ^ d)%nat
  ∧ Forall (fun row => length row = (2 ^ d)%nat) (nested_matrix p d).
Proof.
  unfold nested_matrix. split.
  - by rewrite length_fmap, length_seq.
  - apply Forall_fmap, Forall_forall. intros r _. cbn.
    by rewrite length_fmap, length_seq.
Qed.

Lemma concat_fmap_bind {A B} (f : A -> list B) (l : list A) : concat (f <$> l) = l ≫= f.
Proof. induction l as [|x l IH]; [done|]. cbn. by rewrite IH. Qed.

Lemma length_concat_uniform {A} (n : nat) (m : list (list A)) :
  Forall (fun row => length row = n) m -> length (concat m) = (length m * n)%nat.
Proof.
  induction 1 as [|row m Hrow _ IH]; [done|].
  cbn. rewrite length_app, IH, Hrow. lia.
Qed.

Lemma nested_matrix_elem (p : Z) (d : nat) (v : Z) :
  v ∈ concat (nested_matrix p d) <->
  ∃ r c : nat, (r < 2 ^ d)%nat ∧ (c < 2 ^ d)%nat ∧ v = p * 4 ^ Z.of_nat d + interleave d r c.
Proof.
  unfold nested_matrix. rewrite concat_fmap_bind, list_elem_of_bind. split.
  - intros (r & Hv & Hr). apply list_elem_of_fmap in Hv as (c & -> & Hc).
    apply elem_of_seq in Hr, Hc. exists r, c. repeat split; lia.
  - intros (r & c & Hr & Hc & ->). exists r. split.
    + apply list_elem_of_fmap. exists c. split; [done|]. apply elem_of_seq. lia.
    + apply elem_of_seq. lia.
Qed.

Lemma nested_matrix_NoDup (p : Z) (d : nat) : NoDup (concat (nested_matrix p d)).
Proof.
  unfold nested_matrix. rewrite concat_fmap_bind. apply NoDup_bind.
  - intros r r' v Hr Hr' Hv Hv'.
    apply list_elem_of_fmap in Hv as (c & -> & Hc).
    apply list_elem_of_fmap in Hv' as (c' & E & Hc').
    apply elem_of_seq in Hr, Hr', Hc, Hc'.
    apply (interleave_inj d r c r' c'); lia.
  - intros r Hr. apply NoDup_fmap_2_strong; [|apply NoDup_seq].
    intros c c' Hc Hc' E. apply elem_of_seq in Hr, Hc, Hc'.
    apply (interleave_inj d r c r c'); lia.
  - apply NoDup_seq.
Qed.

(** The cells of the matrix are the run of [4 ^ d] indices from
    [p * 4 ^ d], each of them once. *)
Lemma nested_matrix_Permutation (p : Z) (d : nat) :
  concat (nested_matrix p d) ≡ₚ seqZ (p * 4 ^ Z.of_nat d) (4 ^ Z.of_nat d).
Proof.
  pose proof (pow4_pos d) as HP.
  apply NoDup_Permutation_bis.
  - apply NoDup_ListNoDup, nested_matrix_NoDup.
  - destruct (nested_matrix_shape p d) as [Hl Hrows].
    rewrite (length_concat_uniform _ _ Hrows), Hl, length_seqZ.
    apply Nat2Z.inj_le. rewrite Z2Nat.id, Nat2Z.inj_mul, Nat2Z.inj_pow by lia.
    cbn [Z.of_nat Pos.of_succ_nat Pos.succ]. rewrite <- Z.pow_mul_l. done.
  - intros v Hv%list_elem_of_In. apply list_elem_of_In.
    apply nested_matrix_elem in Hv as (r & c & Hr & Hc & ->).
    pose proof (interleave_range d r c Hr Hc).
    apply elem_of_seqZ. lia.
Qed.

(** When the nested indices of the descendants of [p] fit the int64 cells,
    the arithmetic never wraps and the builder returns the nested matrix. *)
Lemma one_pixel_fragmentation_nested (o p : Z) (d : nat) :
  0 < o -> 0 <= p -> (p + 1) * 4 ^ Z.of_nat d <= 2 ^ 63 ->
  one_pixel_fragmentation o p (o * 2 ^ Z.of_nat d) = Ok (nested_matrix p d).
Proof.
  intros Ho Hp Hfit. rewrite one_pixel_fragmentation_cast by done. f_equal.
  pose proof (pow4_pos d) as HP.
  assert (Ht : dtype_of p = int64).
  { unfold dtype_of.
    destruct (Z.leb_spec (- 2 ^ 63) p); [|lia].
    destruct (Z.ltb_spec p (2 ^ 63)); [done|nia]. }
  rewrite Ht. unfold nested_matrix.
  rewrite <- list_fmap_compose. apply list_fmap_ext. intros i r Hr. cbn.
  rewrite <- list_fmap_compose. apply list_fmap_ext. intros j c Hc. cbn.
  apply lookup_seq in Hr as [-> Hr]. apply lookup_seq in Hc as [-> Hc].
  pose proof (interleave_range d (0 + i) (0 + j) ltac:(lia) ltac:(lia)).
  apply cast_int64_small. nia.
Qed.

(** A valid coarse pixel has its descendants among the fine pixels. *)
Lemma descendants_fit (o p : Z) (d : nat) :
  0 < o -> 0 <= p < nside2npix o -> nside2npix (o * 2 ^ Z.of_nat d) <= 2 ^ 63 ->
  (p + 1) * 4 ^ Z.of_nat d <= nside2npix (o * 2 ^ Z.of_nat d)
  ∧ (p + 1) * 4 ^ Z.of_nat d <= 2 ^ 63.
Proof.
  unfold nside2npix. intros Ho Hp Hfit.
  assert (E : 4 ^ Z.of_nat d = 2 ^ Z.of_nat d * 2 ^ Z.of_nat d).
  { change 4 with (2 * 2). by rewrite Z.pow_mul_l. }
  pose proof (pow4_pos d) as HP. rewrite E in *.
  set (q := 2 ^ Z.of_nat d) in *.
  assert ((p + 1) * (q * q) <= (12 * o * o) * (q * q)).
  { apply Z.mul_le_mono_nonneg_r; lia. }
  split; [|etrans; [|exact Hfit]]; lia.
Qed.


(** ** Facts about the gather *)

Lemma traverse_total {A B} (f : A -> result B) (xs : list A) :
  (∀ x, x ∈ xs -> ∃ y, f x = Ok y) -> ∃ ys, traverse f xs = Ok ys.
Proof.
  induction xs as [|x xs IH]; intros Hf; [by eexists|].
  destruct (Hf x) as [y Hy]; [apply list_elem_of_here|].
  destruct IH as [ys Hys]; [intros z Hz; apply Hf; by apply list_elem_of_further|].
  exists (y :: ys). cbn. rewrite Hy. cbn. by rewrite Hys.
Qed.

Lemma np_index_valid (n : nat) (v : Z) :
  0 <= v < Z.of_nat n -> np_index n v = Ok (Z.to_nat v).
Proof.
  intros H. unfold np_index.
  destruct (Z.leb_spec 0 v); [|lia]. by destruct (Z.ltb_spec v (Z.of_nat n)); [|lia].
Qed.

Lemma np_index_lt (n : nat) (v : Z) (k : nat) : np_index n v = Ok k -> (k < n)%nat.
Proof.
  unfold np_index.
  destruct (Z.leb_spec 0 v), (Z.ltb_spec v (Z.of_nat n)); cbn [andb].
  1: intros [= <-]; lia.
  all: destruct (Z.leb_spec (- Z.of_nat n) v), (Z.ltb_spec v 0); cbn [andb]; try done.
  all: intros [= <-]; lia.
Qed.

Lemma get_at_valid {A} (a : list A) (v : Z) :
  0 <= v < Z.of_nat (length a) -> ∃ b, get_at a v = Ok b ∧ a !! Z.to_nat v = Some b.
Proof.
  intros H. unfold get_at. rewrite np_index_valid by done. cbn.
  destruct (lookup_lt_is_Some_2 a (Z.to_nat v) ltac:(lia)) as [b Hb].
  exists b. by rewrite Hb.
Qed.

Lemma get_at_elem {A} (a : list A) (v : Z) (b : A) : get_at a v = Ok b -> b ∈ a.
Proof.
  unfold get_at. destruct (np_index (length a) v) as [k|]; cbn; [|done].
  destruct (a !! k) as [b'|] eqn:E; [|done]. intros [= <-].
  by eapply list_elem_of_lookup_2.
Qed.

(** When the gather returns, the image has the rows of the matrix, and
    each cell holds the item of the array that the matrix names there. *)
Lemma flat_arr2matr_cells {A} (h_arr : list A) (pix_matr : matrix Z) (img : matrix A) :
  flat_arr2matr h_arr pix_matr = Ok img ->
  length img = length pix_matr
  ∧ (∀ r row, pix_matr !! r = Some row ->
       ∃ irow, img !! r = Some irow ∧ length irow = length row)
  ∧ (∀ r c v, cell pix_matr r c = Some v ->
       ∃ b, cell img r c = Some b ∧ get_at h_arr v = Ok b).
Proof.
  intros H. unfold flat_arr2matr in H. split; [by eapply traverse_length|]. split.
  - intros r row Hrow.
    destruct (traverse_lookup _ _ _ _ _ H Hrow) as (irow & Hi & Ht).
    exists irow. split; [done|]. by eapply traverse_length.
  - intros r c v Hv. unfold cell in *.
    destruct (pix_matr !! r) as [row|] eqn:Hrow; [|done]. cbn in Hv.
    destruct (traverse_lookup _ _ _ _ _ H Hrow) as (irow & Hi & Ht).
    destruct (traverse_lookup _ _ _ _ _ Ht Hv) as (b & Hb & Hg).
    exists b. rewrite Hi. by cbn.
Qed.

(** The gather returns when every index of the matrix exists in the array. *)
Lemma flat_arr2matr_total {A} (h_arr : list A) (pix_matr : matrix Z) :
  (∀ v, v ∈ concat pix_matr -> 0 <= v < Z.of_nat (length h_arr)) ->
  ∃ img, flat_arr2matr h_arr pix_matr = Ok img.
Proof.
  intros Hv. apply traverse_total. intros row Hrow.
  apply traverse_total. intros v Hin.
  destruct (get_at_valid h_arr v) as (b & Hb & _); [|by eexists].
  apply Hv. apply list_elem_of_In, in_concat. exists row.
  split; by apply list_elem_of_In.
Qed.

Lemma flat_arr2matr_values {A} (P : A -> Prop) (h_arr : list A) (pix_matr : matrix Z)
    (img : matrix A) :
  Forall P h_arr -> flat_arr2matr h_arr pix_matr = Ok img -> Forall (Forall P) img.
Proof.
  intros HP H. apply Forall_lookup. intros r irow Hr.
  apply Forall_lookup. intros c b Hb.
  unfold flat_arr2matr in H.
  assert (Hlen := traverse_length _ _ _ H).
  destruct (lookup_lt_is_Some_2 pix_matr r) as [row Hrow];
    [rewrite <- Hlen; by eapply lookup_lt_Some|].
  destruct (traverse_lookup _ _ _ _ _ H Hrow) as (irow' & Hi & Ht).
  assert (irow' = irow) as -> by congruence.
  assert (Hlen' := traverse_length _ _ _ Ht).
  destruct (lookup_lt_is_Some_2 row c) as [v Hv];
    [rewrite <- Hlen'; by eapply lookup_lt_Some|].
  destruct (traverse_lookup _ _ _ _ _ Ht Hv) as (b' & Hb' & Hg).
  assert (b' = b) as -> by congruence.
  eapply Forall_forall; [exact HP|]. by eapply get_at_elem.
Qed.

(** ** Facts about the rasteriser *)

Lemma for_each_invariant {A S} (I : S -> Prop) (body : S -> A -> result S)
    (xs : list A) (acc r : S) :
  (∀ s x s', x ∈ xs -> I s -> body s x = Ok s' -> I s') ->
  I acc -> for_each body xs acc = Ok r -> I r.
Proof.
  revert acc. induction xs as [|x xs IH]; intros acc Hstep Hacc; cbn.
  - by intros [= <-].
  - destruct (body acc x) as [acc'|] eqn:E; cbn; [|done].
    apply IH.
    + intros s y s' Hy. apply Hstep. by apply list_elem_of_further.
    + eapply Hstep; [apply list_elem_of_here|done..].
Qed.

Lemma foldl_insert_length {A} (v : A) (ks : list nat) (a : list A) :
  length (foldl (fun acc k => <[k := v]> acc) a ks) = length a.
Proof.
  revert a. induction ks as [|k ks IH]; intros a; [done|].
  cbn. by rewrite IH, length_insert.
Qed.

Lemma foldl_insert_lookup {A} (v : A) (ks : list nat) (a : list A) (k : nat) :
  foldl (fun acc k => <[k := v]> acc) a ks !! k
  = if decide (k ∈ ks ∧ (k < length a)%nat) then Some v else a !! k.
Proof.
  revert a. induction ks as [|k0 ks IH]; intros a; cbn.
  - case_decide as H; [|done]. destruct H as [H _]. by apply elem_of_nil in H.
  - rewrite IH, length_insert.
    destruct (decide (k ∈ ks ∧ (k < length a)%nat)) as [[H1 H2]|Hn].
    + rewrite decide_True; [done|]. split; [by apply list_elem_of_further|done].
    + destruct (decide (k0 = k)) as [->|Hne].
      * destruct (decide (k < length a)%nat) as [Hlt|Hge].
        -- rewrite list_lookup_insert_eq by done.
           rewrite decide_True; [done|]. split; [apply list_elem_of_here|done].
        -- rewrite list_insert_ge by lia.
           rewrite decide_False; [done|]. by intros [_ ?].
      * rewrite list_lookup_insert_ne by done.
        rewrite decide_False; [done|]. intros [Hin Hlt].
        apply elem_of_cons in Hin as [->|Hin]; [done|]. by apply Hn.
Qed.

Lemma put_at_length {A} (a a' : list A) (idx : list Z) (v : A) :
  put_at a idx v = Ok a' -> length a' = length a.
Proof.
  unfold put_at. destruct (traverse _ idx) as [ks|]; cbn; [|done].
  intros [= <-]. apply foldl_insert_length.
Qed.

Lemma put_at_Forall {A} (P : A -> Prop) (a a' : list A) (idx : list Z) (v : A) :
  Forall P a -> P v -> put_at a idx v = Ok a' -> Forall P a'.
Proof.
  unfold put_at. destruct (traverse _ idx) as [ks|]; cbn; [|done].
  intros Ha Hv [= <-]. revert a Ha.
  induction ks as [|k ks IH]; intros a Ha; [done|].
  cbn. apply IH. by apply Forall_insert.
Qed.

(** After [a[idx] = v], every index of [idx] reads [v]. *)
Lemma put_at_set {A} (a a' : list A) (idx : list Z) (v : A) (q : Z) :
  put_at a idx v = Ok a' -> q ∈ idx -> get_at a' q = Ok v.
Proof.
  unfold put_at. destruct (traverse _ idx) as [ks|] eqn:E; cbn; [|done].
  intros [= <-] Hq. unfold get_at. rewrite foldl_insert_length.
  apply list_elem_of_lookup in Hq as [i Hi].
  destruct (traverse_lookup _ _ _ _ _ E Hi) as (k & Hk & Hidx).
  rewrite Hidx. cbn. rewrite foldl_insert_lookup.
  rewrite decide_True; [done|]. split.
  - by eapply list_elem_of_lookup_2.
  - by eapply np_index_lt.
Qed.

(** [a[idx] = v] leaves a cell that already reads [v] as it is. *)
Lemma put_at_keep {A} (a a' : list A) (idx : list Z) (v : A) (q : Z) :
  put_at a idx v = Ok a' -> get_at a q = Ok v -> get_at a' q = Ok v.
Proof.
  unfold put_at. destruct (traverse _ idx) as [ks|] eqn:E; cbn; [|done].
  intros [= <-]. unfold get_at. rewrite foldl_insert_length.
  destruct (np_index (length a) q) as [k|]; cbn; [|done].
  rewrite foldl_insert_lookup. case_decide; [done|]. done.
Qed.

Lemma replicate_flags (n : nat) : Forall is_flag (replicate n 0).
Proof. apply Forall_replicate. by left. Qed.

Section RasteriserFacts.
Context {angle vec : Type} `{!Pixelizer angle vec}.

(** One step of the loop of [draw_circles], read through the filter and
    the disc of the object. *)
Lemma draw_circle_unfiltered (nside : Z) (pix_matr : matrix Z) (h_arr : list Z)
    (obj : angle * angle * angle) :
  draw_circle nside pix_matr false h_arr obj
  = (pix ← disc_pixels nside obj; put_at h_arr pix 1).
Proof.
  destruct obj as [[ra dec] radius]. unfold draw_circle, disc_pixels. cbn.
  by destruct (galactic ra dec).
Qed.

Lemma draw_circle_filtered (nside : Z) (pix_matr : matrix Z) (h_arr : list Z)
    (obj : angle * angle * angle) (cl_pix : Z) :
  center_pixel nside obj = Ok cl_pix ->
  draw_circle nside pix_matr true h_arr obj
  = if center_in_patch nside pix_matr obj
    then draw_circle nside pix_matr false h_arr obj
    else Ok h_arr.
Proof.
  destruct obj as [[ra dec] radius].
  unfold center_in_patch, center_pixel, draw_circle. cbn.
  destruct (galactic ra dec) as [lb|]; cbn; [|done].
  intros ->. cbn. by destruct (matrix_mem cl_pix pix_matr).
Qed.

Lemma draw_circle_flags (nside : Z) (pix_matr : matrix Z) (flag : bool)
    (h_arr h_arr' : list Z) (obj : angle * angle * angle) :
  Forall is_flag h_arr -> draw_circle nside pix_matr flag h_arr obj = Ok h_arr' ->
  Forall is_flag h_arr'.
Proof.
  destruct obj as [[ra dec] radius]. unfold draw_circle.
  intros Hh. destruct (galactic ra dec) as [lb|]; cbn; [|done].
  destruct flag.
  - destruct (vec2pix nside _) as [cl|]; cbn; [|done].
    destruct (matrix_mem cl pix_matr); cbn.
    + destruct (query_disc nside _ _) as [pix|]; cbn; [|done].
      apply put_at_Forall; [done|by right].
    + by intros [= <-].
  - cbn. destruct (query_disc nside _ _) as [pix|]; cbn; [|done].
    apply put_at_Forall; [done|by right].
Qed.

Lemma draw_circle_keep (nside : Z) (pix_matr : matrix Z) (flag : bool)
    (h_arr h_arr' : list Z) (obj : angle * angle * angle) (q : Z) :
  draw_circle nside pix_matr flag h_arr obj = Ok h_arr' ->
  get_at h_arr q = Ok 1 -> get_at h_arr' q = Ok 1.
Proof.
  destruct obj as [[ra dec] radius]. unfold draw_circle.
  destruct (galactic ra dec) as [lb|]; cbn; [|done].
  destruct flag.
  - destruct (vec2pix nside _) as [cl|]; cbn; [|done].
    destruct (matrix_mem cl pix_matr); cbn.
    + destruct (query_disc nside _ _) as [pix|]; cbn; [|done].
      apply put_at_keep.
    + by intros [= <-].
  - cbn. destruct (query_disc nside _ _) as [pix|]; cbn; [|done].
    apply put_at_keep.
Qed.

(** With the filter on, the loop is the unfiltered loop over the objects
    that pass the filter. *)
Lemma for_each_draw_filtered (nside : Z) (pix_matr : matrix Z)
    (objs : list (angle * angle * angle)) (h_arr : list Z) :
  (∀ obj, obj ∈ objs -> ∃ cl_pix, center_pixel nside obj = Ok cl_pix) ->
  for_each (draw_circle nside pix_matr true) objs h_arr
  = for_each (draw_circle nside pix_matr false)
             (filter (fun obj => center_in_patch nside pix_matr obj = true) objs) h_arr.
Proof.
  revert h_arr. induction objs as [|obj objs IH]; intros h_arr Hc; [done|].
  destruct (Hc obj) as [cl Hcl]; [apply list_elem_of_here|].
  assert (Hc' : ∀ o, o ∈ objs -> ∃ cl_pix, center_pixel nside o = Ok cl_pix)
    by (intros o Ho; apply Hc; by apply list_elem_of_further).
  cbn [for_each]. rewrite (draw_circle_filtered _ _ _ _ _ Hcl).
  rewrite filter_cons.
  destruct (center_in_patch nside pix_matr obj) eqn:E.
  - rewrite decide_True by done. cbn [for_each].
    destruct (draw_circle nside pix_matr false h_arr obj); cbn; [|done].
    by apply IH.
  - rewrite decide_False by done. cbn. by apply IH.
Qed.

(** Every pixel of the disc of an object of the loop reads 1 afterwards. *)
Lemma for_each_draw_discs (nside : Z) (pix_matr : matrix Z)
    (objs : list (angle * angle * angle)) (h_arr h_arr' : list Z)
    (obj : angle * angle * angle) (pix : list Z) (q : Z) :
  for_each (draw_circle nside pix_matr false) objs h_arr = Ok h_arr' ->
  obj ∈ objs -> disc_pixels nside obj = Ok pix -> q ∈ pix ->
  get_at h_arr' q = Ok 1.
Proof.
  revert h_arr. induction objs as [|o objs IH]; intros h_arr Hrun Hin Hpix Hq.
  - by apply elem_of_nil in Hin.
  - cbn [for_each] in Hrun.
    destruct (draw_circle nside pix_matr false h_arr o) as [h1|] eqn:E; cbn in Hrun; [|done].
    apply elem_of_cons in Hin as [->|Hin].
    + rewrite draw_circle_unfiltered, Hpix in E. cbn in E.
      pose proof (put_at_set _ _ _ _ _ E Hq) as Hset.
      revert Hset. generalize q.
      eapply (for_each_invariant (fun h => ∀ q, get_at h1 q = Ok 1 -> get_at h q = Ok 1));
        [|done|exact Hrun].
      intros s x s' _ Hs Hstep q0 Hq0. eapply draw_circle_keep; eauto.
    + by eapply IH.
Qed.
End RasteriserFacts.

(** ** Facts about the aligner *)

Lemma elem_of_concat {A} (x : A) (ls : list (list A)) :
  x ∈ concat ls <-> ∃ l, l ∈ ls ∧ x ∈ l.
Proof.
  rewrite list_elem_of_In, in_concat. split.
  - intros (l & Hl & Hx). exists l. by rewrite !list_elem_of_In.
  - intros (l & Hl & Hx). exists l. by rewrite <- !list_elem_of_In.
Qed.

Lemma elem_of_concat_cell {A} (v : A) (m : matrix A) :
  v ∈ concat m <-> ∃ r c, cell m r c = Some v.
Proof.
  rewrite elem_of_concat. unfold cell. split.
  - intros (row & [r Hr]%list_elem_of_lookup & [c Hc]%list_elem_of_lookup).
    exists r, c. by rewrite Hr.
  - intros (r & c & H). destruct (m !! r) as [row|] eqn:Hr; [|done].
    exists row. split; by eapply list_elem_of_lookup_2.
Qed.

(** With no value twice in a matrix, a value has one position. *)
Lemma cell_unique {A} (m : matrix A) (r c r' c' : nat) (v : A) :
  NoDup (concat m) -> cell m r c = Some v -> cell m r' c' = Some v -> r = r' ∧ c = c'.
Proof.
  revert r r'. induction m as [|row m IH]; intros r r' Hnd H H'; [done|].
  cbn in Hnd. apply NoDup_app in Hnd as (Hrow & Hdisj & Hrest).
  unfold cell in *. destruct r as [|r], r' as [|r']; cbn in H, H'.
  - split; [done|]. exact (NoDup_lookup _ _ _ _ Hrow H H').
  - exfalso. apply (Hdisj v); [by eapply list_elem_of_lookup_2|].
    apply elem_of_concat_cell. exists r', c'. exact H'.
  - exfalso. apply (Hdisj v); [by eapply list_elem_of_lookup_2|].
    apply elem_of_concat_cell. exists r, c. exact H.
  - destruct (IH r r' Hrest H H'). by subst.
Qed.

Lemma py_slice_sublist {A} (a b : Z) (l : list A) : py_slice a b l `sublist_of` l.
Proof. unfold py_slice. etrans; [apply sublist_take|apply sublist_drop]. Qed.

Lemma concat_sublist {A} (m1 m2 : list (list A)) :
  m1 `sublist_of` m2 -> concat m1 `sublist_of` concat m2.
Proof.
  induction 1 as [|row m1 m2 _ IH|row m1 m2 _ IH]; cbn; [done| |].
  - by apply sublist_app.
  - by apply sublist_inserts_l.
Qed.

Lemma concat_fmap_sublist {A} (f : list A -> list A) (m : list (list A)) :
  (∀ row, f row `sublist_of` row) -> concat (f <$> m) `sublist_of` concat m.
Proof. intros Hf. induction m as [|row m IH]; cbn; [done|]. by apply sublist_app. Qed.

(** The cells of a sub-window are cells of the matrix, in their order. *)
Lemma slice2_sublist {A} (a b c d : Z) (m : matrix A) :
  concat (slice2 a b c d m) `sublist_of` concat m.
Proof.
  unfold slice2. etrans.
  - apply concat_fmap_sublist. intros row. apply py_slice_sublist.
  - apply concat_sublist, py_slice_sublist.
Qed.

Lemma where_eq_cell (m : matrix Z) (v : Z) (r c : nat) :
  (r, c) ∈ where_eq m v <-> cell m r c = Some v.
Proof.
  unfold where_eq, cell. rewrite elem_of_concat. split.
  - intros (l & Hl & Hrc).
    apply elem_of_lookup_imap in Hl as (i & row & -> & Hrow).
    apply list_elem_of_omap in Hrc as ([j x] & Hjx & Hsome).
    apply elem_of_lookup_imap in Hjx as (j' & x' & [= -> ->] & Hx).
    cbn in Hsome. destruct (Z.eqb_spec x' v) as [->|]; [|done].
    injection Hsome as -> ->. by rewrite Hrow.
  - intros H. destruct (m !! r) as [row|] eqn:Hrow; [|done]. cbn in H.
    eexists. split.
    + apply elem_of_lookup_imap. by exists r, row.
    + apply list_elem_of_omap. exists (c, v). split.
      * apply elem_of_lookup_imap. by exists c, v.
      * cbn. by rewrite Z.eqb_refl.
Qed.

Section AlignerFacts.
Context {angle vec : Type} `{!Pixelizer angle vec}.

(** A record whose fine pixel is in the sub-window is located, at a
    position where its fine pixel stands. *)
Lemma locate_member (f_matr : matrix Z) (s : source angle) :
  src_pix11 s ∈ concat f_matr ->
  ∃ r c : nat, locate f_matr s = Ok (Located s (Z.of_nat r) (Z.of_nat c))
               ∧ cell f_matr r c = Some (src_pix11 s).
Proof.
  intros (r & c & Hrc)%elem_of_concat_cell. apply where_eq_cell in Hrc.
  unfold locate. destruct (where_eq f_matr (src_pix11 s)) as [|[r1 c1] rest] eqn:E.
  - by apply elem_of_nil in Hrc.
  - exists r1, c1. split; [done|]. apply where_eq_cell. rewrite E. apply list_elem_of_here.
Qed.

Lemma traverse_locate (f_matr : matrix Z) (cur_cat : list (source angle)) :
  Forall (fun s => src_pix11 s ∈ concat f_matr) cur_cat ->
  ∃ recs, traverse (locate f_matr) cur_cat = Ok recs
          ∧ loc_src <$> recs = cur_cat
          ∧ Forall (fun l => ∃ r c : nat, loc_x l = Z.of_nat r ∧ loc_y l = Z.of_nat c
                      ∧ cell f_matr r c = Some (src_pix11 (loc_src l))) recs.
Proof.
  induction 1 as [|s cur Hs _ (recs & Ht & Hsrc & Hall)].
  - exists []. by repeat split.
  - destruct (locate_member f_matr s Hs) as (r & c & Hl & Hc).
    exists (Located s (Z.of_nat r) (Z.of_nat c) :: recs). cbn.
    rewrite Hl. cbn. rewrite Ht. cbn. repeat split.
    + by rewrite Hsrc.
    + constructor; [|done]. by exists r, c.
Qed.
End AlignerFacts.

Lemma map_traverse_Ok {A B} (f : A -> result B) (g : A -> B) (d : gmap string A) :
  (∀ k a, d !! k = Some a -> f a = Ok (g a)) -> map_traverse f d = Ok (g <$> d).
Proof.
  intros Hf. unfold map_traverse.
  rewrite (traverse_Ok _ (prod_map id g)).
  - cbn. f_equal. rewrite list_to_map_fmap. by rewrite list_to_map_to_list.
  - intros [k a] Hka%elem_of_map_to_list. cbn. by rewrite (Hf k a Hka).
Qed.

(** ** Facts about the down-sampling *)

Lemma every_nth_from_sublist {A} (k : nat) (l : list A) :
  ∀ skip, every_nth_from k skip l `sublist_of` l.
Proof.
  induction l as [|x l IH]; intros skip; cbn; [done|].
  destruct skip; [by apply sublist_skip|by apply sublist_cons].
Qed.

Lemma every_nth_from_length {A} (k : nat) (l : list A) :
  (1 <= k)%nat ->
  ∀ skip, length (every_nth_from k skip l)
          = (if (length l <=? skip)%nat then 0 else (length l - skip + k - 1) / k)%nat.
Proof.
  intros Hk. induction l as [|x l IH]; intros skip; cbn [every_nth_from length]; [done|].
  destruct skip as [|skip].
  - cbn [length Nat.leb]. rewrite IH.
    destruct (Nat.leb_spec (length l) (k - 1)).
    + replace (S (length l) - 0 + k - 1)%nat with (length l + 1 * k)%nat by lia.
      rewrite Nat.div_add by lia. rewrite Nat.div_small by lia. lia.
    + replace (S (length l) - 0 + k - 1)%nat with (length l + 1 * k)%nat by lia.
      rewrite Nat.div_add by lia.
      replace (length l - (k - 1) + k - 1)%nat with (length l) by lia. lia.
  - rewrite IH. change (S (length l) <=? S skip)%nat with (length l <=? skip)%nat.
    destruct (Nat.leb_spec (length l) skip); [done|].
    f_equal; lia.
Qed.

(** The rows kept by the down-sampling, for a positive target: they are
    rows of the table in their order; a table of no more than [n] rows is
    kept whole, and a longer one is cut to every [q]-th row with
    [q = len // n], which leaves [ceil(len / q)] rows, between [n] and
    [2 n - 1] of them. *)
Lemma subsample_rows (n : Z) (all_idx : list patch_row) :
  0 < n ->
  ∃ rows, subsample n all_idx = Ok rows
    ∧ rows `sublist_of` all_idx
    ∧ (Z.of_nat (length all_idx) <= n -> rows = all_idx)
    ∧ (n < Z.of_nat (length all_idx) ->
         let q := Z.of_nat (length all_idx) / n in
         rows = every_nth (Z.to_nat q) all_idx
         ∧ Z.of_nat (length rows) = (Z.of_nat (length all_idx) + q - 1) / q
         ∧ n <= Z.of_nat (length rows) <= 2 * n - 1).
Proof.
  intros Hn. unfold subsample.
  destruct (Z.gtb_spec (Z.of_nat (length all_idx)) n) as [Hgt|Hle].
  - destruct (Z.eqb_spec n 0); [lia|].
    set (total := Z.of_nat (length all_idx)) in *.
    assert (Hq : 1 <= total / n) by (apply Z.div_le_lower_bound; lia).
    cbv zeta. destruct (Z.eqb_spec (total / n) 0); [lia|].
    unfold py_stride. destruct (Z.ltb_spec 0 (total / n)); [|lia].
    eexists. split; [done|]. split; [apply every_nth_from_sublist|].
    split; [lia|]. intros _. cbn zeta. split; [done|].
    set (q := total / n) in *.
    assert (Hlen : Z.of_nat (length (every_nth (Z.to_nat q) all_idx)) = (total + q - 1) / q).
    { unfold every_nth. rewrite every_nth_from_length by lia.
      destruct (Nat.leb_spec (length all_idx) 0); [lia|].
      rewrite Nat2Z.inj_div. f_equal; lia. }
    split; [done|]. rewrite Hlen.
    pose proof (Z.div_mod total n ltac:(lia)) as Hdm.
    pose proof (Z.mod_pos_bound total n Hn) as Hr. fold q in Hdm.
    split.
    + apply Z.div_le_lower_bound; nia.
    + assert ((total + q - 1) / q < 2 * n); [|lia].
      apply Z.div_lt_upper_bound; nia.
  - exists all_idx. split; [done|]. split; [done|]. split; [done|lia].
Qed.

Section GeneratorFacts.
Context {angle vec : Type} `{!Pixelizer angle vec}.
Variable cats2dict : string -> gmap string (list (source angle)).

(** With a target count the generator scans with step 1, whatever step
    it was given, and then down-samples. *)
Lemma generate_patch_coords_target (cats_path : string) (step o_nside nside : Z)
    (radius : angle) (patch_size n : Z) (cats_subset : option (list string)) :
  generate_patch_coords cats2dict cats_path step o_nside nside radius patch_size
                        (Some n) cats_subset
  = (all_idx ← generate_patch_coords cats2dict cats_path 1 o_nside nside radius
                                     patch_size None cats_subset;
     subsample n all_idx).
Proof.
  unfold generate_patch_coords.
  destruct (catalogue_rows cats2dict cats_path cats_subset) as [df|]; [|done].
  cbn [mbind result_bind]. destruct (for_each _ _ _) as [all_idx|]; done.
Qed.
End GeneratorFacts.

(** ** The builder on any ratio *)

Lemma mapij_shape {A B} (f : nat -> nat -> A -> B) (n k : nat) (m : matrix A) :
  length m = n -> Forall (fun row => length row = k) m ->
  length (mapij f m) = n ∧ Forall (fun row => length row = k) (mapij f m).
Proof.
  intros Hn Hk. unfold mapij. split; [by rewrite length_imap|].
  apply Forall_lookup. intros r row Hr.
  apply list_lookup_imap_Some in Hr as (row' & Hrow' & ->).
  rewrite length_imap. eapply Forall_lookup in Hk; eauto.
Qed.

(** From a coarse resolution up to any finer one the builder returns a
    square matrix, of side two to the integer part of the logarithm of the
    ratio. *)
Lemma one_pixel_fragmentation_shape (o p f : Z) :
  0 < o <= f ->
  ∃ M, one_pixel_fragmentation o p f = Ok M
     ∧ length M = Z.to_nat (2 ^ Z.log2 (f / o))
     ∧ Forall (fun row => length row = Z.to_nat (2 ^ Z.log2 (f / o))) M.
Proof.
  intros [Ho Hf]. unfold one_pixel_fragmentation, log2_ratio.
  destruct (Z.eqb_spec o 0); [lia|]. destruct (Z.eqb_spec f 0); [lia|].
  destruct (Z.ltb_spec o 0); [lia|]. destruct (Z.ltb_spec f 0); [lia|]. cbn [xorb].
  rewrite !Z.abs_eq by lia. destruct (Z.leb_spec o f); [|lia]. cbn [mbind result_bind].
  pose proof (Z.log2_nonneg (f / o)) as Hd.
  destruct (Z.ltb_spec (Z.log2 (f / o)) 0); [lia|].
  set (depth := Z.log2 (f / o)) in *.
  rewrite <- (Z2Nat.id depth) by done. rewrite pow2_nat_Z.
  unfold recursive_fill. cbn [nrows whole].
  rewrite (recursive_fill_fuel_cells _ (Z.to_nat depth))
    by (cbn; auto using Nat.pow_gt_lin_r with lia).
  eexists. split; [done|]. apply mapij_shape.
  - by rewrite length_replicate.
  - apply Forall_replicate. by rewrite length_replicate.
Qed.

(** ** Facts about the window scan *)

Lemma py_range_pos (stop step : Z) (xs : list Z) (x : Z) :
  0 < step -> py_range 0 stop step = Ok xs -> x ∈ xs ->
  ∃ k, x = k * step ∧ 0 <= k ∧ x < stop.
Proof.
  intros Hs. unfold py_range. destruct (Z.eqb_spec step 0); [lia|].
  destruct (Z.ltb_spec 0 step); [|lia]. intros [= <-].
  intros (k & -> & Hk)%list_elem_of_fmap. apply elem_of_seq in Hk.
  exists (Z.of_nat k). split; [lia|]. split; [lia|].
  destruct (Z.le_gt_cases (stop - 0 + step - 1) 0) as [Hle|Hgt].
  - assert ((stop - 0 + step - 1) / step <= 0) by (apply Z.div_le_upper_bound; lia). lia.
  - assert (Z.of_nat k + 1 <= (stop - 0 + step - 1) / step) by lia.
    assert (step * ((stop - 0 + step - 1) / step) <= stop - 0 + step - 1)
      by (apply Z.mul_div_le; lia).
    nia.
Qed.

(** The rows of a scan: their offsets are multiples of the step below
    [1024 - 64], and their window holds a cell that is not zero. *)
Lemma scan_windows_rows (pic : matrix Z) (step patch_size i : Z) (rows : list patch_row)
    (row : patch_row) :
  0 < step -> scan_windows pic step patch_size i = Ok rows -> row ∈ rows ->
  (∃ k, row_x row = k * step ∧ 0 <= k ∧ row_x row < 1024 - 64)
  ∧ (∃ k, row_y row = k * step ∧ 0 <= k ∧ row_y row < 1024 - 64)
  ∧ row_pix2 row = i
  ∧ let patch_pic := slice2 (row_x row) (row_x row + patch_size)
                            (row_y row) (row_y row + patch_size) pic in
    matrix_any patch_pic = true ∧ row_n_src row = count_nonzero patch_pic.
Proof.
  intros Hs. unfold scan_windows.
  destruct (py_range 0 (1024 - 64) step) as [xs|] eqn:E; [|done]. cbn.
  intros [= <-] Hrow.
  apply list_elem_of_bind in Hrow as (x & Hrow & Hx).
  apply list_elem_of_bind in Hrow as (y & Hrow & Hy).
  destruct (matrix_any _) eqn:Hany; [|by apply elem_of_nil in Hrow].
  apply list_elem_of_singleton in Hrow as ->. cbn.
  split_and!; try done; by eapply py_range_pos.
Qed.

Lemma py_slice_lookup {A} (a b : Z) (l : list A) (k : nat) (v : A) :
  0 <= a -> 0 <= b -> py_slice a b l !! k = Some v ->
  l !! (Z.to_nat a + k)%nat = Some v ∧ Z.of_nat k < b - a.
Proof.
  intros Ha Hb. unfold py_slice, clip_bound.
  destruct (Z.ltb_spec a 0); [lia|]. destruct (Z.ltb_spec b 0); [lia|].
  intros [Hd Hk]%lookup_take_Some. rewrite lookup_drop in Hd.
  pose proof (lookup_lt_Some _ _ _ Hd) as Hlt.
  assert (Z.to_nat (Z.min a (Z.of_nat (length l))) = Z.to_nat a) as E by lia.
  rewrite E in Hd, Hk. split; [done|lia].
Qed.

Lemma cell_slice2 {A} (a b c d : Z) (m : matrix A) (r k : nat) (v : A) :
  0 <= a -> 0 <= b -> 0 <= c -> 0 <= d ->
  cell (slice2 a b c d m) r k = Some v ->
  cell m (Z.to_nat a + r) (Z.to_nat c + k) = Some v
  ∧ Z.of_nat r < b - a ∧ Z.of_nat k < d - c.
Proof.
  intros Ha Hb Hc Hd. unfold cell, slice2. rewrite list_lookup_fmap.
  destruct (py_slice a b m !! r) as [row|] eqn:Hrow; [|done]. cbn.
  intros Hv.
  destruct (py_slice_lookup _ _ _ _ _ Ha Hb Hrow) as [Hr ?].
  destruct (py_slice_lookup _ _ _ _ _ Hc Hd Hv) as [Hk ?].
  rewrite Hr. by cbn.
Qed.

Lemma matrix_any_false (m : matrix Z) :
  (∀ r c v, cell m r c = Some v -> v = 0) -> matrix_any m = false.
Proof.
  intros Hz. destruct (matrix_any m) eqn:E; [|done]. exfalso.
  unfold matrix_any in E.
  apply existsb_exists in E as (row & Hrow & E).
  apply existsb_exists in E as (v & Hv & Hnz).
  apply list_elem_of_In, list_elem_of_lookup in Hrow as [r Hr].
  apply list_elem_of_In, list_elem_of_lookup in Hv as [c Hc].
  assert (v = 0) as -> by (apply (Hz r c); unfold cell; by rewrite Hr).
  done.
Qed.

Lemma bind_nil_all {A B} (f : A -> list B) (xs : list A) :
  (∀ x, x ∈ xs -> f x = []) -> xs ≫= f = [].
Proof.
  induction xs as [|x xs IH]; intros Hf; [done|].
  cbn. rewrite Hf by apply list_elem_of_here. cbn.
  apply IH. intros y Hy. apply Hf. by apply list_elem_of_further.
Qed.

(** With the step and the patch size both 64, an image whose cells other
    than zero all lie in rows or columns from 960 on gives no row: the
    last window the scan reaches ends at 960. *)
Lemma scan_windows_margin (pic : matrix Z) (i : Z) :
  (∀ r c v, cell pic r c = Some v -> v ≠ 0 -> (960 <= r ∨ 960 <= c)%nat) ->
  scan_windows pic 64 64 i = Ok [].
Proof.
  intros Hpic. unfold scan_windows.
  destruct (py_range 0 (1024 - 64) 64) as [xs|] eqn:E; [|done]. cbn. f_equal.
  apply bind_nil_all. intros x Hx. apply bind_nil_all. intros y Hy.
  destruct (py_range_pos (1024 - 64) 64 xs x ltac:(lia) E Hx) as (kx & -> & ? & ?).
  destruct (py_range_pos (1024 - 64) 64 xs y ltac:(lia) E Hy) as (ky & -> & ? & ?).
  rewrite matrix_any_false; [done|]. intros r c v Hv.
  apply cell_slice2 in Hv as (Hv & Hr & Hc); [|lia..].
  destruct (decide (v = 0)) as [|Hnz]; [done|].
  destruct (Hpic _ _ _ Hv Hnz); lia.
Qed.

Lemma for_each_unchanged {A S} (body : S -> A -> result S) (xs : list A) (acc : S) :
  (∀ x, x ∈ xs -> body acc x = Ok acc) -> for_each body xs acc = Ok acc.
Proof.
  induction xs as [|x xs IH]; intros Hb; [done|].
  cbn. rewrite Hb by apply list_elem_of_here. cbn.
  apply IH. intros y Hy. apply Hb. by apply list_elem_of_further.
Qed.

Lemma put_at_one (n : nat) (pix : Z) :
  0 <= pix < Z.of_nat n ->
  put_at (replicate n 0) [pix] 1 = Ok (<[Z.to_nat pix := 1]> (replicate n 0)).
Proof.
  intros Hp. unfold put_at. cbn [traverse]. rewrite length_replicate.
  by rewrite np_index_valid by done.
Qed.

(** In the bitmap of one dot, a cell other than zero is the dot. *)
Lemma get_at_one (n : nat) (pix v b : Z) :
  0 <= v < Z.of_nat n ->
  get_at (<[Z.to_nat pix := 1]> (replicate n 0)) v = Ok b -> b ≠ 0 -> 0 <= pix -> v = pix.
Proof.
  intros Hv. unfold get_at. rewrite length_insert, length_replicate.
  rewrite np_index_valid by done. cbn.
  destruct (decide (Z.to_nat pix = Z.to_nat v)) as [E|Hne].
  - intros _ _ ?. lia.
  - rewrite list_lookup_insert_ne by done.
    rewrite lookup_replicate_2 by lia. by intros [= <-].
Qed.

Section MarginFacts.
Context {angle vec : Type} `{!Pixelizer angle vec}.
Variable cats2dict : string -> gmap string (list (source angle)).

(** At the resolutions of the defaults (coarse 2, fine 2048) and with the
    step and the patch size both 64, a sky whose only object falls on the
    cell at row [r], column [c] of the image of a coarse pixel, with
    [r] or [c] from 960 on, gives an empty table. *)
Lemma generate_patch_coords_margin (cats_path : string) (radius : angle)
    (cats_subset : option (list string)) (df : list (source angle)) (p0 : Z) (r c : nat) :
  catalogue_rows cats2dict cats_path cats_subset = Ok df ->
  radec2pix (src_RA <$> df) (src_DEC <$> df) 2048 true
    = Ok [p0 * 4 ^ 10 + interleave 10 r c] ->
  0 <= p0 < 48 -> (r < 1024)%nat -> (c < 1024)%nat -> (960 <= r ∨ 960 <= c)%nat ->
  generate_patch_coords cats2dict cats_path 64 2 2048 radius 64 None cats_subset = Ok [].
Proof.
  intros Hdf Hpix Hp0 Hr Hc Hmargin. unfold generate_patch_coords.
  rewrite Hdf, bind_Ok.
  rewrite for_each_unchanged; [done|].
  intros i (k & -> & Hk)%list_elem_of_fmap. apply elem_of_seq in Hk.
  change (Z.to_nat (nside2npix 2)) with 48%nat in Hk.
  change 2048 with (2 * 2 ^ Z.of_nat 10).
  rewrite (one_pixel_fragmentation_nested 2 (Z.of_nat k) 10)
    by (try (change (4 ^ Z.of_nat 10) with 1048576); lia).
  cbn [mbind result_bind]. unfold draw_dots, dots_bitmap.
  change (2 * 2 ^ Z.of_nat 10) with 2048. rewrite Hpix. cbn [mbind result_bind].
  pose proof (interleave_range 10 r c ltac:(cbn; lia) ltac:(cbn; lia)) as Hil.
  change (4 ^ Z.of_nat 10) with 1048576 in Hil.
  set (pix := p0 * 4 ^ 10 + interleave 10 r c) in *.
  assert (Hpixr : 0 <= pix < nside2npix 2048).
  { unfold pix. change (4 ^ 10) with 1048576. change (nside2npix 2048) with 50331648. lia. }
  set (n := Z.to_nat (nside2npix 2048)).
  assert (Hn : Z.of_nat n = 50331648) by (unfold n; rewrite Z2Nat.id; done).
  change (nside2npix 2048) with 50331648 in Hpixr.
  rewrite put_at_one by lia. cbn [mbind result_bind].
  set (h_arr := <[Z.to_nat pix := 1]> (replicate n 0)).
  assert (Hrange : ∀ v, v ∈ concat (nested_matrix (Z.of_nat k) 10) ->
                        0 <= v < Z.of_nat (length h_arr)).
  { intros v Hv. unfold h_arr. rewrite length_insert, length_replicate, Hn.
    rewrite nested_matrix_Permutation in Hv. apply elem_of_seqZ in Hv.
    change (4 ^ Z.of_nat 10) with 1048576 in Hv. lia. }
  destruct (flat_arr2matr_total h_arr _ Hrange) as [pic Hpic].
  rewrite Hpic. cbn [mbind result_bind].
  rewrite scan_windows_margin; [done|].
  intros r' c' b Hb Hnz.
  destruct (flat_arr2matr_cells _ _ _ Hpic) as (Hlen & Hrows & Hcells).
  assert (Hr' : (r' < 2 ^ 10)%nat).
  { destruct (nested_matrix_shape (Z.of_nat k) 10) as [Hl _].
    rewrite <- Hl, <- Hlen. unfold cell in Hb.
    destruct (pic !! r') eqn:E; [|done]. by eapply lookup_lt_Some. }
  assert (Hc' : (c' < 2 ^ 10)%nat).
  { destruct (nested_matrix_shape (Z.of_nat k) 10) as [Hl Hall].
    destruct (lookup_lt_is_Some_2 (nested_matrix (Z.of_nat k) 10) r') as [row Hrow];
      [lia|].
    destruct (Hrows _ _ Hrow) as (irow & Hi & Hil').
    eapply Forall_lookup in Hall; [|exact Hrow]. cbv beta in Hall.
    unfold cell in Hb. rewrite Hi in Hb. cbn [mbind option_bind] in Hb.
    apply lookup_lt_Some in Hb. lia. }
  destruct (Hcells r' c' _ (nested_matrix_cell (Z.of_nat k) 10 r' c' Hr' Hc'))
    as (b' & Hb' & Hget).
  assert (b' = b) as -> by congruence.
  pose proof (interleave_range 10 r' c' Hr' Hc') as Hil'.
  change (4 ^ Z.of_nat 10) with 1048576 in *.
  apply get_at_one in Hget; [|lia|done|lia].
  unfold pix in Hget. change (4 ^ 10) with 1048576 in Hget.
  assert (Z.of_nat k = p0) by lia.
  destruct (interleave_inj 10 r' c' r c) as [-> ->]; [done|done|cbn; lia|cbn; lia|lia|].
  done.
Qed.
End MarginFacts.

(** ** Facts about the generator at one resolution *)

Lemma for_each_ext {A S} (f g : S -> A -> result S) (xs : list A) (acc : S) :
  (∀ s x, x ∈ xs -> f s x = g s x) -> for_each f xs acc = for_each g xs acc.
Proof.
  revert acc. induction xs as [|x xs IH]; intros acc Hfg; [done|].
  cbn. rewrite Hfg by apply list_elem_of_here.
  destruct (g acc x) as [acc'|]; [|done]. cbn.
  apply IH. intros s y Hy. apply Hfg. by apply list_elem_of_further.
Qed.

Lemma py_slice_past {A} (a b : Z) (l : list A) :
  Z.of_nat (length l) <= a -> py_slice a b l = [].
Proof.
  intros Ha. unfold py_slice, clip_bound.
  destruct (Z.ltb_spec a 0); [lia|].
  rewrite drop_ge by lia. by rewrite take_nil.
Qed.

Lemma py_slice_all {A} (b : Z) (l : list A) :
  Z.of_nat (length l) <= b -> py_slice 0 b l = l.
Proof.
  intros Hb. unfold py_slice, clip_bound. change (0 <? 0) with false. cbv iota.
  destruct (Z.ltb_spec b 0); [lia|].
  replace (Z.to_nat (Z.min 0 (Z.of_nat (length l)))) with 0%nat by lia.
  rewrite drop_0, Nat.sub_0_r. apply take_ge. lia.
Qed.

Lemma py_range_unit (stop : Z) :
  0 < stop ->
  ∃ tail, py_range 0 stop 1 = Ok (0 :: tail) ∧ ∀ x, x ∈ tail -> 1 <= x.
Proof.
  intros Hs. unfold py_range. change (1 =? 0) with false. change (0 <? 1) with true.
  cbv iota.
  replace (Z.to_nat ((stop - 0 + 1 - 1) / 1)) with (S (Z.to_nat (stop - 1)))
    by (rewrite Z.div_1_r; lia).
  cbn [seq fmap list_fmap]. eexists. split; [reflexivity|].
  intros x (k & -> & Hk)%list_elem_of_fmap. apply elem_of_seq in Hk. lia.
Qed.

Lemma list_bind_cons {A B} (f : A -> list B) (x : A) (xs : list A) :
  (x :: xs) ≫= f = f x ++ (xs ≫= f).
Proof. reflexivity. Qed.

(** The scan of an image of one cell with step 1: the window at (0, 0) is
    the only one that reaches the cell. *)
Lemma scan_windows_single_cell (b i patch_size : Z) :
  0 < patch_size ->
  scan_windows [[b]] 1 patch_size i
  = Ok (if b =? 0 then [] else [PatchRow 0 0 i 1]).
Proof.
  intros Hps. unfold scan_windows.
  destruct (py_range_unit (1024 - 64) ltac:(lia)) as (tail & -> & Htail).
  rewrite !bind_Ok. f_equal. rewrite list_bind_cons.
  rewrite (bind_nil_all _ tail).
  2: { intros x Hx%Htail. apply bind_nil_all.
       intros y _. unfold slice2. rewrite py_slice_past by (cbn; lia). done. }
  rewrite list_bind_cons. rewrite (bind_nil_all _ tail).
  2: { intros y Hy%Htail. unfold slice2. rewrite py_slice_all by (cbn; lia).
       cbn [fmap list_fmap]. rewrite py_slice_past by (cbn; lia). done. }
  rewrite !app_nil_r. unfold slice2. rewrite py_slice_all by (cbn; lia).
  cbn [fmap list_fmap]. rewrite py_slice_all by (cbn; lia).
  unfold matrix_any, count_nonzero. cbn [existsb concat app].
  destruct (Z.eqb_spec b 0) as [->|Hb]; [done|]. cbn [negb orb].
  rewrite filter_cons, decide_True by done. done.
Qed.

Lemma one_pixel_fragmentation_same (o p : Z) :
  0 < o -> one_pixel_fragmentation o p o = Ok [[p]].
Proof.
  intros Ho. pose proof (one_pixel_fragmentation_cast o p 0 Ho) as H.
  change (2 ^ Z.of_nat 0) with 1 in H. rewrite Z.mul_1_r in H. rewrite H.
  cbn. rewrite Z.mul_1_r, Z.add_0_r. by rewrite cast_dtype_of.
Qed.

Section UnitFacts.
Context {angle vec : Type} `{!Pixelizer angle vec}.

(** One turn of the loop of the generator when the two resolutions are the
    same: the image of coarse pixel [i] is the one cell [h_arr[i]]. *)
Lemma generate_turn_same_nside (ras decs : list angle) (o i patch_size : Z)
    (all_idx : list patch_row) :
  0 < o -> 0 < patch_size ->
  (pix_matr ← one_pixel_fragmentation o i o;
   pic ← draw_dots ras decs o pix_matr;
   rows ← scan_windows pic 1 patch_size i;
   Ok (all_idx ++ rows))
  = (h_arr ← dots_bitmap ras decs o;
     b ← get_at h_arr i;
     Ok (all_idx ++ (if b =? 0 then [] else [PatchRow 0 0 i 1]))).
Proof.
  intros Ho Hps. rewrite one_pixel_fragmentation_same, bind_Ok by done.
  unfold draw_dots. destruct (dots_bitmap ras decs o) as [h_arr|]; [|done].
  rewrite !bind_Ok. unfold flat_arr2matr, take_at. cbn [traverse].
  destruct (get_at h_arr i) as [b|]; [|done]. rewrite !bind_Ok.
  by rewrite scan_windows_single_cell by done.
Qed.
End UnitFacts.


(** ** Facts about what the gather and the bitmaps hold *)

Lemma traverse_Raise {A B} (f : A -> result B) (xs : list A) (e : py_error) :
  traverse f xs = Raise e -> ∃ x, x ∈ xs ∧ f x = Raise e.
Proof.
  induction xs as [|x xs IH]; [done|]. cbn.
  destruct (f x) as [y|e'] eqn:E; cbn.
  - destruct (traverse f xs) as [ys|e'']; cbn; [done|].
    intros [= ->]. destruct IH as (x' & Hx' & Hf); [done|].
    exists x'. split; [by apply list_elem_of_further|done].
  - intros [= ->]. exists x. split; [apply list_elem_of_here|done].
Qed.

Lemma np_index_wraps (n : nat) (v : Z) :
  - Z.of_nat n <= v < Z.of_nat n -> np_index n v = Ok (Z.to_nat (v mod Z.of_nat n)).
Proof.
  intros Hv. unfold np_index.
  destruct (Z.leb_spec 0 v), (Z.ltb_spec v (Z.of_nat n)); cbn [andb]; try lia.
  - by rewrite Z.mod_small by lia.
  - destruct (Z.leb_spec (- Z.of_nat n) v), (Z.ltb_spec v 0); cbn [andb]; try lia.
    f_equal. f_equal. apply (Z.mod_unique_pos _ _ (-1)); lia.
Qed.

Lemma np_index_outside (n : nat) (v : Z) :
  ¬ (- Z.of_nat n <= v < Z.of_nat n) -> np_index n v = Raise IndexError.
Proof.
  intros Hv. unfold np_index.
  destruct (Z.leb_spec 0 v), (Z.ltb_spec v (Z.of_nat n)); cbn [andb]; try lia.
  all: destruct (Z.leb_spec (- Z.of_nat n) v), (Z.ltb_spec v 0); cbn [andb]; try lia; done.
Qed.

Lemma get_at_wraps {A} (a : list A) (v : Z) :
  - Z.of_nat (length a) <= v < Z.of_nat (length a) ->
  ∃ b, get_at a v = Ok b ∧ a !! Z.to_nat (v mod Z.of_nat (length a)) = Some b.
Proof.
  intros Hv. unfold get_at. rewrite np_index_wraps, bind_Ok by done.
  pose proof (Z.mod_pos_bound v (Z.of_nat (length a)) ltac:(lia)).
  destruct (lookup_lt_is_Some_2 a (Z.to_nat (v mod Z.of_nat (length a))) ltac:(lia))
    as [b Hb].
  exists b. by rewrite Hb.
Qed.

Lemma get_at_Raise {A} (a : list A) (v : Z) (e : py_error) :
  get_at a v = Raise e ->
  e = IndexError ∧ ¬ (- Z.of_nat (length a) <= v < Z.of_nat (length a)).
Proof.
  intros H. destruct (decide (- Z.of_nat (length a) <= v < Z.of_nat (length a))) as [Hv|Hv].
  - destruct (get_at_wraps a v Hv) as (b & Hb & _). congruence.
  - unfold get_at in H. rewrite np_index_outside in H by done. cbn in H.
    by injection H as <-.
Qed.

Lemma traverse_np_index_elem (n : nat) (idx : list Z) (ks : list nat) (k : nat) :
  traverse (np_index n) idx = Ok ks ->
  k ∈ ks <-> ∃ q, q ∈ idx ∧ np_index n q = Ok k.
Proof.
  intros E. split.
  - intros [i Hi]%list_elem_of_lookup.
    assert (Hlen := traverse_length _ _ _ E).
    destruct (lookup_lt_is_Some_2 idx i) as [q Hq];
      [rewrite <- Hlen; by eapply lookup_lt_Some|].
    destruct (traverse_lookup _ _ _ _ _ E Hq) as (k' & Hk' & Hn).
    exists q. split; [by eapply list_elem_of_lookup_2|congruence].
  - intros (q & [i Hi]%list_elem_of_lookup & Hn).
    destruct (traverse_lookup _ _ _ _ _ E Hi) as (k' & Hk' & Hn').
    assert (k' = k) as -> by congruence. by eapply list_elem_of_lookup_2.
Qed.

(** After [a[idx] = v] a position reads [v] if an index of [idx] denotes
    it, and what it read before if none does. *)
Lemma put_at_lookup {A} (a a' : list A) (idx : list Z) (v x : A) (k : nat) :
  put_at a idx v = Ok a' ->
  a' !! k = Some x <->
  ((∃ q, q ∈ idx ∧ np_index (length a) q = Ok k) ∧ x = v)
  ∨ (¬ (∃ q, q ∈ idx ∧ np_index (length a) q = Ok k) ∧ a !! k = Some x).
Proof.
  unfold put_at. destruct (traverse _ idx) as [ks|] eqn:E; cbn; [|done].
  intros [= <-]. rewrite foldl_insert_lookup.
  pose proof (traverse_np_index_elem _ _ _ k E) as Hks.
  destruct (decide (k ∈ ks ∧ (k < length a)%nat)) as [[H1 H2]|Hn].
  - apply Hks in H1. split; [intros [= <-]; by left|].
    intros [[_ ->]|[Hno _]]; [done|]. by destruct Hno.
  - assert (Hno : ¬ (∃ q, q ∈ idx ∧ np_index (length a) q = Ok k)).
    { intros Hq. apply Hn. split; [by apply Hks|].
      destruct Hq as (q & _ & Hq). by eapply np_index_lt. }
    split; [by right|]. intros [[Hq _]|[_ ?]]; [by destruct Hno|done].
Qed.

(** Two assignments of the same value commute. *)
Lemma put_at_swap {A} (a a1 a2 : list A) (idx1 idx2 : list Z) (v : A) :
  put_at a idx1 v = Ok a1 -> put_at a1 idx2 v = Ok a2 ->
  ∃ b1, put_at a idx2 v = Ok b1 ∧ put_at b1 idx1 v = Ok a2.
Proof.
  unfold put_at.
  destruct (traverse (np_index (length a)) idx1) as [ks1|] eqn:E1; cbn; [|done].
  intros [= <-]. rewrite foldl_insert_length.
  destruct (traverse (np_index (length a)) idx2) as [ks2|] eqn:E2; cbn; [|done].
  intros [= <-]. eexists. split; [done|].
  rewrite foldl_insert_length, E1. cbn. f_equal.
  apply list_eq. intros k. rewrite !foldl_insert_lookup, !foldl_insert_length.
  repeat case_decide; done.
Qed.

Section BitmapFacts.
Context {angle vec : Type} `{!Pixelizer angle vec}.

(** What one turn of the loop of [draw_circles] assigns does not depend
    on the bitmap. *)
Lemma draw_circle_assigns (nside : Z) (pix_matr : matrix Z) (flag : bool)
    (obj : angle * angle * angle) :
  ∃ P : result (list Z),
    (∀ h_arr, draw_circle nside pix_matr flag h_arr obj = (pix ← P; put_at h_arr pix 1))
    ∧ (∀ pix, P = Ok pix ->
         (flag = false ∨ center_in_patch nside pix_matr obj = true)
         ∧ disc_pixels nside obj = Ok pix
         ∨ (flag = true ∧ center_in_patch nside pix_matr obj = false ∧ pix = [])).
Proof.
  destruct obj as [[ra dec] radius].
  unfold draw_circle, center_in_patch, center_pixel, disc_pixels. cbn [fst snd].
  destruct (galactic ra dec) as [lb|e]; cbn [mbind result_bind].
  2: { exists (Raise e). split; [done|]. by intros pix [=]. }
  destruct flag.
  - destruct (vec2pix nside _) as [cl|e]; cbn [mbind result_bind].
    2: { exists (Raise e). split; [done|]. by intros pix [=]. }
    destruct (matrix_mem cl pix_matr); cbn [negb].
    + exists (query_disc nside (ang2vec lb.1 lb.2) (radians radius)).
      split; [done|]. intros pix Hp. left. split; [by right|done].
    + exists (Ok []). split; [done|]. intros pix [= <-]. by right.
  - exists (query_disc nside (ang2vec lb.1 lb.2) (radians radius)).
    split; [done|]. intros pix Hp. left. split; [by left|done].
Qed.

Lemma draw_circle_swap (nside : Z) (pix_matr : matrix Z) (flag : bool)
    (a b : angle * angle * angle) (h h1 h2 : list Z) :
  draw_circle nside pix_matr flag h a = Ok h1 ->
  draw_circle nside pix_matr flag h1 b = Ok h2 ->
  ∃ g1, draw_circle nside pix_matr flag h b = Ok g1
        ∧ draw_circle nside pix_matr flag g1 a = Ok h2.
Proof.
  destruct (draw_circle_assigns nside pix_matr flag a) as (Pa & Ea & _).
  destruct (draw_circle_assigns nside pix_matr flag b) as (Pb & Eb & _).
  rewrite !Ea, !Eb. destruct Pa as [pa|]; [|done]. destruct Pb as [pb|]; [|done].
  rewrite !bind_Ok. intros H1 H2.
  destruct (put_at_swap _ _ _ _ _ _ H1 H2) as (g1 & Hg1 & Hg2).
  exists g1. split; [done|]. by rewrite Ea, bind_Ok.
Qed.

Lemma for_each_cons_Ok {A S} (body : S -> A -> result S) (x : A) (xs : list A) (acc r : S) :
  for_each body (x :: xs) acc = Ok r <->
  ∃ acc', body acc x = Ok acc' ∧ for_each body xs acc' = Ok r.
Proof.
  cbn [for_each]. destruct (body acc x) as [acc'|]; cbn [mbind result_bind].
  - split; [eauto|]. by intros (? & [= <-] & ?).
  - split; [done|]. by intros (? & ? & ?).
Qed.

(** The bitmap of [draw_circles] does not depend on the order of the
    objects. *)
Lemma circles_bitmap_Permutation (nside : Z) (pix_matr : matrix Z) (flag : bool)
    (objs objs' : list (angle * angle * angle)) (h_arr : list Z) :
  objs ≡ₚ objs' ->
  circles_bitmap objs nside pix_matr flag = Ok h_arr ->
  circles_bitmap objs' nside pix_matr flag = Ok h_arr.
Proof.
  unfold circles_bitmap. generalize (replicate (Z.to_nat (nside2npix nside)) 0).
  intros h0 Hperm. revert h0 h_arr.
  induction Hperm as [|x l l' _ IH|x y l|l l' l'' _ IH1 _ IH2]; intros h0 h_arr.
  - done.
  - rewrite !for_each_cons_Ok. intros (acc' & H1 & H2). eauto.
  - rewrite !for_each_cons_Ok. intros (h1 & H1 & H2).
    apply for_each_cons_Ok in H2 as (h2 & H2 & H3).
    destruct (draw_circle_swap _ _ _ _ _ _ _ _ H1 H2) as (g1 & Hg1 & Hg2).
    exists g1. split; [done|]. apply for_each_cons_Ok. eauto.
  - intros H. by apply IH2, IH1.
Qed.

Lemma for_each_draw_cells (nside : Z) (pix_matr : matrix Z) (flag : bool)
    (objs : list (angle * angle * angle)) :
  ∀ h0 h : list Z,
    for_each (draw_circle nside pix_matr flag) objs h0 = Ok h ->
    length h = length h0
    ∧ ∀ k : nat,
        (h !! k = Some 1 <->
         h0 !! k = Some 1
         ∨ ∃ obj pix q, obj ∈ objs
             ∧ (flag = false ∨ center_in_patch nside pix_matr obj = true)
             ∧ disc_pixels nside obj = Ok pix ∧ q ∈ pix
             ∧ np_index (length h0) q = Ok k).
Proof.
  induction objs as [|obj objs IH]; intros h0 h.
  - cbn. intros [= <-]. split; [done|]. intros k. split; [by left|].
    intros [?|(obj & pix & q & Hin & _)]; [done|]. by apply elem_of_nil in Hin.
  - intros (h1 & H1 & H2)%for_each_cons_Ok.
    destruct (IH _ _ H2) as (Hlen & Hcells).
    destruct (draw_circle_assigns nside pix_matr flag obj) as (P & EP & HP).
    rewrite EP in H1. destruct P as [pix|]; [|done]. rewrite bind_Ok in H1.
    assert (L1 := put_at_length _ _ _ _ H1).
    split; [congruence|]. intros k. rewrite (Hcells k).
    rewrite (put_at_lookup _ _ _ _ 1 k H1). rewrite L1.
    assert (Hdec : (∃ q, q ∈ pix ∧ np_index (length h0) q = Ok k)
                   ∨ ¬ (∃ q, q ∈ pix ∧ np_index (length h0) q = Ok k)).
    { unfold put_at in H1.
      destruct (traverse (np_index (length h0)) pix) as [ks|] eqn:Et; [|done].
      rewrite <- (traverse_np_index_elem _ _ _ k Et).
      destruct (decide (k ∈ ks)); [by left|by right]. }
    split.
    + intros [[[(q & Hq & Hk) _]|[_ H0]]|(o & px & q & Ho & Hc & Hd & Hq & Hk)].
      * destruct (HP pix eq_refl) as [[Hc Hd]|(_ & _ & ->)];
          [|by apply elem_of_nil in Hq].
        right. exists obj, pix, q. split_and!; try done. apply list_elem_of_here.
      * by left.
      * right. exists o, px, q. split_and!; try done. by apply list_elem_of_further.
    + intros [H0|(o & px & q & Ho & Hc & Hd & Hq & Hk)].
      * left. destruct Hdec; [by left|by right].
      * apply elem_of_cons in Ho as [->|Ho].
        -- left. left. split; [|done].
           destruct (HP pix eq_refl) as [[_ Hd']|(Hf & Hcf & _)].
           ++ assert (px = pix) as -> by congruence. eauto.
           ++ destruct Hc; congruence.
        -- right. exists o, px, q. by split_and!.
Qed.

(** The bitmap of the loop of [draw_circles]: a pixel reads 1 exactly when
    an index of the disc of an object denotes it, the object being one
    whose centre is in the matrix if the filter is on; every other pixel
    reads 0. *)
Lemma circles_bitmap_is_the_union_of_the_discs (nside : Z) (pix_matr : matrix Z)
    (flag : bool) (objs : list (angle * angle * angle)) (h_arr : list Z) :
  circles_bitmap objs nside pix_matr flag = Ok h_arr ->
  length h_arr = Z.to_nat (nside2npix nside)
  ∧ Forall is_flag h_arr
  ∧ ∀ k : nat,
      h_arr !! k = Some 1 <->
      ∃ obj pix q, obj ∈ objs
        ∧ (flag = false ∨ center_in_patch nside pix_matr obj = true)
        ∧ disc_pixels nside obj = Ok pix ∧ q ∈ pix
        ∧ np_index (length h_arr) q = Ok k.
Proof.
  unfold circles_bitmap. intros H.
  destruct (for_each_draw_cells _ _ _ _ _ _ H) as (Hlen & Hcells).
  rewrite length_replicate in Hlen. split; [done|]. split.
  - eapply (for_each_invariant (Forall is_flag)); [|apply replicate_flags|exact H].
    intros s x s' _. apply draw_circle_flags.
  - intros k. rewrite (Hcells k), length_replicate, Hlen. split.
    + intros [H0|?]; [|done]. by apply lookup_replicate in H0 as [[=] _].
    + intros ?. by right.
Qed.

(** The bitmap of [draw_dots]: a pixel reads 1 exactly when an index that
    [radec2pix] returns denotes it. *)
Lemma dots_bitmap_is_the_set_of_pixels (ras decs : list angle) (nside : Z)
    (h_arr : list Z) :
  dots_bitmap ras decs nside = Ok h_arr ->
  ∃ pix, radec2pix ras decs nside true = Ok pix
    ∧ length h_arr = Z.to_nat (nside2npix nside)
    ∧ Forall is_flag h_arr
    ∧ ∀ k : nat, h_arr !! k = Some 1 <-> ∃ q, q ∈ pix ∧ np_index (length h_arr) q = Ok k.
Proof.
  unfold dots_bitmap. destruct (radec2pix ras decs nside true) as [pix|]; [|done].
  rewrite bind_Ok. intros H. exists pix. split; [done|].
  assert (L := put_at_length _ _ _ _ H). rewrite length_replicate in L.
  split; [done|]. split.
  - eapply put_at_Forall; [apply replicate_flags|by right|exact H].
  - intros k. rewrite (put_at_lookup _ _ _ _ 1 k H), length_replicate, L. split.
    + intros [[? _]|[_ H0]]; [done|]. by apply lookup_replicate in H0 as [[=] _].
    + intros ?. by left.
Qed.

Lemma gather_flag_cell (h_arr : list Z) (pix_matr pic : matrix Z) (r c : nat) (v : Z) :
  flat_arr2matr h_arr pix_matr = Ok pic -> cell pix_matr r c = Some v ->
  ∃ (b : Z) (k : nat), cell pic r c = Some b ∧ np_index (length h_arr) v = Ok k
                       ∧ h_arr !! k = Some b.
Proof.
  intros Hpic Hv. destruct (flat_arr2matr_cells _ _ _ Hpic) as (_ & _ & Hcells).
  destruct (Hcells r c v Hv) as (b & Hb & Hg). unfold get_at in Hg.
  destruct (np_index (length h_arr) v) as [k|] eqn:Hk; [|done]. rewrite bind_Ok in Hg.
  destruct (h_arr !! k) as [b'|] eqn:Hb'; [|done]. injection Hg as ->.
  by exists b, k.
Qed.

End BitmapFacts.

(** * The properties of the specification *)

(** ** The correspondence-matrix builder *)

Example build_2_5_8 :
  one_pixel_fragmentation 2 5 8 =
  Ok [[80; 81; 84; 85]; [82; 83; 86; 87]; [88; 89; 92; 93]; [90; 91; 94; 95]].
Proof. vm_compute. reflexivity. Qed.

Example build_depth_0 : one_pixel_fragmentation 8 5 8 = Ok [[5]].
Proof. reflexivity. Qed.

Example build_finer_to_coarser : one_pixel_fragmentation 8 0 2 = Raise TypeError.
Proof. reflexivity. Qed.

(** C1: for every depth and every valid coarse pixel [p] at [coarse_nside],
    the fine pixel indices fitting the int64 cells of the matrix,
    [one_pixel_fragmentation coarse_nside p (coarse_nside * 2 ^ depth)]
    returns a square matrix of side [2 ^ depth] whose cells are, each of
    them once, the [4 ^ depth] indices from [p * 4 ^ depth] to
    [p * 4 ^ depth + 4 ^ depth - 1]: no index twice, none left out, and so
    a bijection between the positions and the descendants of [p]. *)
Theorem C1_build_descendants (coarse_nside p : Z) (depth : nat) :
  0 < coarse_nside ->
  0 <= p < nside2npix coarse_nside ->
  nside2npix (coarse_nside * 2 ^ Z.of_nat depth) <= 2 ^ 63 ->
  ∃ M, one_pixel_fragmentation coarse_nside p (coarse_nside * 2 ^ Z.of_nat depth) = Ok M
     ∧ length M = (2 ^ depth)%nat
     ∧ Forall (fun row => length row = (2 ^ depth)%nat) M
     ∧ NoDup (concat M)
     ∧ concat M ≡ₚ seqZ (p * 4 ^ Z.of_nat depth) (4 ^ Z.of_nat depth)
     ∧ (∀ r c r' c' v, cell M r c = Some v -> cell M r' c' = Some v -> r = r' ∧ c = c')
     ∧ (∀ v, p * 4 ^ Z.of_nat depth <= v < p * 4 ^ Z.of_nat depth + 4 ^ Z.of_nat depth ->
           ∃ r c, cell M r c = Some v).
Proof.
  intros Ho Hp Hfit.
  destruct (descendants_fit coarse_nside p depth Ho Hp Hfit) as [_ Hfit'].
  exists (nested_matrix p depth).
  split; [apply one_pixel_fragmentation_nested; lia|].
  destruct (nested_matrix_shape p depth) as [Hlen Hrows].
  pose proof (nested_matrix_NoDup p depth) as Hnd.
  pose proof (nested_matrix_Permutation p depth) as Hperm.
  split_and!; try done.
  - intros r c r' c' v. by apply cell_unique.
  - intros v Hv. apply elem_of_concat_cell. rewrite Hperm. apply elem_of_seqZ. lia.
Qed.

Lemma C1_build_descendants_witness :
  ∃ M, one_pixel_fragmentation 2 5 (2 * 2 ^ Z.of_nat 2) = Ok M
     ∧ length M = (2 ^ 2)%nat
     ∧ Forall (fun row => length row = (2 ^ 2)%nat) M
     ∧ NoDup (concat M)
     ∧ concat M ≡ₚ seqZ (5 * 4 ^ Z.of_nat 2) (4 ^ Z.of_nat 2)
     ∧ (∀ r c r' c' v, cell M r c = Some v -> cell M r' c' = Some v -> r = r' ∧ c = c')
     ∧ (∀ v, 5 * 4 ^ Z.of_nat 2 <= v < 5 * 4 ^ Z.of_nat 2 + 4 ^ Z.of_nat 2 ->
           ∃ r c, cell M r c = Some v).
Proof.
  apply (C1_build_descendants 2 5 2).
  - lia.
  - vm_compute. split; [discriminate|reflexivity].
  - vm_compute. discriminate.
Defined.

(** C2, as the code has it: the builder makes no check of the ratio. For
    every pair with [0 < coarse_nside <= fine_nside <= 2 ^ 30], a power of
    two apart or not, it returns a square matrix, of side two to the
    integer part of [log2 (fine_nside / coarse_nside)]. *)
Theorem C2_builder_has_no_ratio_check (coarse_nside p fine_nside : Z) :
  0 < coarse_nside <= fine_nside -> fine_nside <= 2 ^ 30 ->
  ∃ M, one_pixel_fragmentation coarse_nside p fine_nside = Ok M
     ∧ length M = Z.to_nat (2 ^ Z.log2 (fine_nside / coarse_nside))
     ∧ Forall (fun row => length row = Z.to_nat (2 ^ Z.log2 (fine_nside / coarse_nside))) M.
Proof. intros Hratio _. by apply one_pixel_fragmentation_shape. Qed.

Lemma C2_builder_has_no_ratio_check_witness :
  ∃ M, one_pixel_fragmentation 2 7 6 = Ok M
     ∧ length M = Z.to_nat (2 ^ Z.log2 (6 / 2))
     ∧ Forall (fun row => length row = Z.to_nat (2 ^ Z.log2 (6 / 2))) M.
Proof. apply (C2_builder_has_no_ratio_check 2 7 6); lia. Defined.

(** C2, as stated, fails: from nside 2 to nside 6 the ratio is 3, which is
    no power of two, and the builder returns a matrix. *)
Lemma C2_ratio_3_returns_a_matrix :
  one_pixel_fragmentation 2 0 6 = Ok [[0; 1]; [2; 3]]
  ∧ ∀ d : nat, 2 * 2 ^ Z.of_nat d ≠ 6.
Proof.
  split; [reflexivity|]. intros [|[|d]]; [cbn; lia..|].
  rewrite !Nat2Z.inj_succ, !Z.pow_succ_r by lia.
  pose proof (Z.pow_pos_nonneg 2 (Z.of_nat d) ltac:(lia) ltac:(lia)). lia.
Qed.

(** ** The rasteriser *)

(** C4: for every bitmap over the fine-resolution sphere and the matrix
    [M] built for a valid coarse pixel, [flat_arr2matr bitmap M] returns an
    image of the shape of [M] whose cell at row [r], column [c] is
    [bitmap[M[r][c]]]. *)
Theorem C4_remap_gather {A} (bitmap : list A) (coarse_nside p : Z) (depth : nat) :
  0 < coarse_nside ->
  0 <= p < nside2npix coarse_nside ->
  Z.of_nat (length bitmap) = nside2npix (coarse_nside * 2 ^ Z.of_nat depth) ->
  nside2npix (coarse_nside * 2 ^ Z.of_nat depth) <= 2 ^ 63 ->
  ∃ M img,
    one_pixel_fragmentation coarse_nside p (coarse_nside * 2 ^ Z.of_nat depth) = Ok M
    ∧ flat_arr2matr bitmap M = Ok img
    ∧ length img = length M
    ∧ (∀ r row, M !! r = Some row -> ∃ irow, img !! r = Some irow ∧ length irow = length row)
    ∧ (∀ r c v, cell M r c = Some v ->
         ∃ b, cell img r c = Some b ∧ get_at bitmap v = Ok b
              ∧ bitmap !! Z.to_nat v = Some b).
Proof.
  intros Ho Hp Hlen Hfit.
  destruct (descendants_fit coarse_nside p depth Ho Hp Hfit) as [Hin Hfit'].
  exists (nested_matrix p depth).
  assert (Hrange : ∀ v, v ∈ concat (nested_matrix p depth) ->
                        0 <= v < Z.of_nat (length bitmap)).
  { intros v Hv. rewrite nested_matrix_Permutation in Hv.
    apply elem_of_seqZ in Hv. pose proof (pow4_pos depth). nia. }
  destruct (flat_arr2matr_total bitmap _ Hrange) as [img Himg].
  exists img. split; [apply one_pixel_fragmentation_nested; lia|].
  split; [done|].
  destruct (flat_arr2matr_cells _ _ _ Himg) as (H1 & H2 & H3).
  split_and!; try done.
  intros r c v Hv. destruct (H3 r c v Hv) as (b & Hb & Hg).
  exists b. split_and!; try done.
  destruct (get_at_valid bitmap v) as (b' & Hg' & Hl).
  - apply Hrange, elem_of_concat_cell. eauto.
  - congruence.
Qed.

Lemma C4_remap_gather_witness :
  ∃ M img,
    one_pixel_fragmentation 1 3 (1 * 2 ^ Z.of_nat 1) = Ok M
    ∧ flat_arr2matr (seqZ 100 48) M = Ok img
    ∧ length img = length M
    ∧ (∀ r row, M !! r = Some row -> ∃ irow, img !! r = Some irow ∧ length irow = length row)
    ∧ (∀ r c v, cell M r c = Some v ->
         ∃ b, cell img r c = Some b ∧ get_at (seqZ 100 48) v = Ok b
              ∧ seqZ 100 48 !! Z.to_nat v = Some b).
Proof.
  apply (C4_remap_gather (seqZ 100 48) 1 3 1).
  - lia.
  - vm_compute. split; [discriminate|reflexivity].
  - reflexivity.
  - vm_compute. discriminate.
Defined.

Example remap_pixel_3 :
  (M ← one_pixel_fragmentation 1 3 2; flat_arr2matr (seqZ 100 48) M)
  = Ok [[112; 113]; [114; 115]].
Proof. reflexivity. Qed.

Section Properties.
Context {angle vec : Type} `{!Pixelizer angle vec}.

(** C5: with [centers_in_patch] set, and the pixelizer giving the pixel
    of every centre, an object whose centre pixel is not in the matrix
    adds nothing to the output, whatever its disc covers: the bitmap and
    the image are those of drawing, without the flag, only the objects
    whose centre pixel is in the matrix; and every pixel of the disc
    query of such an object is drawn. *)
Theorem C5_centering_filter (ras decs : list angle) (radiuses : radii angle) (nside : Z)
    (pix_matr : matrix Z) :
  let objs := zip_objects ras decs radiuses in
  let kept := filter (fun obj => center_in_patch nside pix_matr obj = true) objs in
  (∀ obj, obj ∈ objs -> ∃ cl_pix, center_pixel nside obj = Ok cl_pix) ->
  circles_bitmap objs nside pix_matr true = circles_bitmap kept nside pix_matr false
  ∧ draw_circles ras decs radiuses nside pix_matr true
    = (h_arr ← circles_bitmap kept nside pix_matr false; flat_arr2matr h_arr pix_matr)
  ∧ (∀ h_arr obj pix q,
       circles_bitmap objs nside pix_matr true = Ok h_arr ->
       obj ∈ objs -> center_in_patch nside pix_matr obj = true ->
       disc_pixels nside obj = Ok pix -> q ∈ pix ->
       get_at h_arr q = Ok 1).
Proof.
  intros objs kept Hc.
  assert (E : circles_bitmap objs nside pix_matr true
              = circles_bitmap kept nside pix_matr false)
    by (by apply for_each_draw_filtered).
  split_and!; [done| |].
  - unfold draw_circles. fold objs. by rewrite E.
  - intros h_arr obj pix q Hrun Hin Hkeep Hpix Hq. rewrite E in Hrun.
    eapply for_each_draw_discs; [exact Hrun| |exact Hpix|exact Hq].
    apply list_elem_of_filter. by split.
Qed.

(** C9: every cell of an image that dot or disc rasterisation returns is
    0 or 1, a flag and not a count. A cell of the image of the discs is 1
    exactly when the pixel that the matrix holds there is in the disc of
    at least one object that is drawn, so a pixel that several discs
    overlap is left at 1, never more; a cell of the image of the dots is
    1 exactly when its pixel is that of at least one coordinate pair. *)
Theorem C9_bitmaps_are_flags (ras decs : list angle) (radiuses : radii angle) (nside : Z)
    (pix_matr : matrix Z) (centers : bool) (pic : matrix Z) :
  draw_circles ras decs radiuses nside pix_matr centers = Ok pic
  ∨ draw_dots ras decs nside pix_matr = Ok pic ->
  Forall (Forall is_flag) pic
  ∧ (draw_circles ras decs radiuses nside pix_matr centers = Ok pic ->
     ∀ r c v, cell pix_matr r c = Some v ->
       ∃ b, cell pic r c = Some b ∧ is_flag b
         ∧ (b = 1 <->
            ∃ obj pix q, obj ∈ zip_objects ras decs radiuses
              ∧ (centers = false ∨ center_in_patch nside pix_matr obj = true)
              ∧ disc_pixels nside obj = Ok pix ∧ q ∈ pix
              ∧ np_index (Z.to_nat (nside2npix nside)) q
                = np_index (Z.to_nat (nside2npix nside)) v))
  ∧ (draw_dots ras decs nside pix_matr = Ok pic ->
     ∀ r c v, cell pix_matr r c = Some v ->
       ∃ pix b, radec2pix ras decs nside true = Ok pix
         ∧ cell pic r c = Some b ∧ is_flag b
         ∧ (b = 1 <->
            ∃ q, q ∈ pix ∧ np_index (Z.to_nat (nside2npix nside)) q
                           = np_index (Z.to_nat (nside2npix nside)) v)).
Proof.
  intros Hrun. split_and!.
  - destruct Hrun as [H|H].
    + unfold draw_circles in H.
      destruct (circles_bitmap _ nside pix_matr centers) as [h_arr|] eqn:E; [|done].
      cbn in H. eapply flat_arr2matr_values; [|exact H].
      unfold circles_bitmap in E.
      eapply (for_each_invariant (Forall is_flag)); [|apply replicate_flags|exact E].
      intros s x s' _. apply draw_circle_flags.
    + unfold draw_dots in H.
      destruct (dots_bitmap ras decs nside) as [h_arr|] eqn:E; [|done].
      cbn in H. eapply flat_arr2matr_values; [|exact H].
      unfold dots_bitmap in E.
      destruct (radec2pix ras decs nside true) as [pix|]; [|done]. cbn in E.
      eapply put_at_Forall; [apply replicate_flags|by right|exact E].
  - clear Hrun. unfold draw_circles.
    destruct (circles_bitmap _ _ _ _) as [h_arr|] eqn:Hh; [|done]. rewrite bind_Ok.
    intros Hpic r c v Hv.
    destruct (circles_bitmap_is_the_union_of_the_discs _ _ _ _ _ Hh)
      as (Hlen & Hflags & Hone).
    destruct (gather_flag_cell _ _ _ _ _ _ Hpic Hv) as (b & k & Hb & Hk & Hhk).
    exists b. split; [done|]. split.
    + rewrite Forall_forall in Hflags. apply Hflags. by eapply list_elem_of_lookup_2.
    + rewrite <- Hlen, Hk. split.
      * intros ->. by apply Hone.
      * intros Hex. apply Hone in Hex. congruence.
  - clear Hrun. unfold draw_dots.
    destruct (dots_bitmap _ _ _) as [h_arr|] eqn:Hh; [|done]. rewrite bind_Ok.
    intros Hpic r c v Hv.
    destruct (dots_bitmap_is_the_set_of_pixels _ _ _ _ Hh)
      as (pix & Hpix & Hlen & Hflags & Hone).
    destruct (gather_flag_cell _ _ _ _ _ _ Hpic Hv) as (b & k & Hb & Hk & Hhk).
    exists pix, b. split; [done|]. split; [done|]. split.
    + rewrite Forall_forall in Hflags. apply Hflags. by eapply list_elem_of_lookup_2.
    + rewrite <- Hlen, Hk. split.
      * intros ->. by apply Hone.
      * intros Hex. apply Hone in Hex. congruence.
Qed.

(** C10: disc rasterisation with one radius [r] gives what it gives with
    an array of radii as long as the coordinates whose every entry is
    [r]. *)
Theorem C10_scalar_radius_is_broadcast (ras decs : list angle) (r : angle) (rs : list angle)
    (nside : Z) (pix_matr : matrix Z) (centers : bool) :
  length rs = length ras -> Forall (fun x => x = r) rs ->
  draw_circles ras decs (RadiusScalar r) nside pix_matr centers
  = draw_circles ras decs (RadiusArray rs) nside pix_matr centers.
Proof.
  intros Hlen Hall. unfold draw_circles, zip_objects.
  replace rs with (replicate (length ras) r); [done|].
  rewrite <- Hlen. clear Hlen. induction Hall as [|x rs -> _ IH]; [done|].
  cbn. by rewrite IH.
Qed.

(** ** The catalogue aligner *)

(** C6: on a correspondence matrix (no fine pixel twice) the aligner
    returns, under the name of each catalogue and for no other name, the
    records of the catalogue, in their order, whose coarse pixel is that
    of the patch and whose fine pixel is in the 64-by-64 sub-window of
    the patch, each with [(x, y)] the row and column of the one cell of
    the sub-window that holds its fine pixel; a record whose fine pixel
    is cell [3][2] of the sub-window gets [(3, 2)]. *)
Theorem C6_aligner (patch_line : patch_row) (f_matr : matrix Z)
    (cats : gmap string (list (source angle))) :
  let x := row_x patch_line in
  let y := row_y patch_line in
  let window := slice2 x (x + 64) y (y + 64) f_matr in
  NoDup (concat f_matr) ->
  ∃ output, src_on_batch patch_line f_matr cats = Ok output
    ∧ (∀ name, cats !! name = None -> output !! name = None)
    ∧ (∀ name cat, cats !! name = Some cat ->
         ∃ recs, output !! name = Some recs
           ∧ loc_src <$> recs
             = filter (fun s => src_pix11 s ∈ concat window
                                ∧ src_pix2 s = row_pix2 patch_line) cat
           ∧ Forall (fun l =>
               ∃ r c : nat, loc_x l = Z.of_nat r ∧ loc_y l = Z.of_nat c
                 ∧ cell window r c = Some (src_pix11 (loc_src l))
                 ∧ ∀ r' c', cell window r' c' = Some (src_pix11 (loc_src l)) ->
                            r' = r ∧ c' = c) recs
           ∧ Forall (fun l => cell window 3 2 = Some (src_pix11 (loc_src l)) ->
                              loc_x l = 3 ∧ loc_y l = 2) recs).
Proof.
  intros x y window Hnd.
  assert (Hndw : NoDup (concat window))
    by (eapply sublist_NoDup; [exact Hnd|apply slice2_sublist]).
  set (cur := fun cat : list (source angle) =>
    filter (fun s => src_pix11 s ∈ concat window)
      (filter (fun s => src_pix2 s = row_pix2 patch_line) cat)).
  assert (Hcur : ∀ cat, ∃ recs, traverse (locate window) (cur cat) = Ok recs
            ∧ loc_src <$> recs = cur cat
            ∧ Forall (fun l => ∃ r c : nat, loc_x l = Z.of_nat r ∧ loc_y l = Z.of_nat c
                        ∧ cell window r c = Some (src_pix11 (loc_src l))) recs).
  { intros cat. apply traverse_locate. apply Forall_forall.
    intros s Hs. unfold cur in Hs. by apply list_elem_of_filter in Hs as [? _]. }
  set (g := fun cat => match traverse (locate window) (cur cat) with
                       | Ok recs => recs | Raise _ => [] end).
  exists (g <$> cats). split_and!.
  - unfold src_on_batch. apply map_traverse_Ok. intros name cat _.
    fold x y window. fold (cur cat). unfold g.
    by destruct (Hcur cat) as (recs & -> & _).
  - intros name Hn. by rewrite lookup_fmap, Hn.
  - intros name cat Hcat. exists (g cat). rewrite lookup_fmap, Hcat.
    split; [done|]. unfold g.
    destruct (Hcur cat) as (recs & -> & Hsrc & Hall).
    assert (Hpos : Forall (fun l =>
               ∃ r c : nat, loc_x l = Z.of_nat r ∧ loc_y l = Z.of_nat c
                 ∧ cell window r c = Some (src_pix11 (loc_src l))
                 ∧ ∀ r' c', cell window r' c' = Some (src_pix11 (loc_src l)) ->
                            r' = r ∧ c' = c) recs).
    { eapply Forall_impl; [exact Hall|]. intros l (r & c & Hx & Hy & Hc). cbn.
      exists r, c. split_and!; try done.
      intros r' c' Hc'. exact (cell_unique window r' c' r c _ Hndw Hc' Hc). }
    split_and!.
    + rewrite Hsrc. unfold cur. by rewrite list_filter_filter.
    + done.
    + eapply Forall_impl; [exact Hpos|].
      intros l (r & c & Hx & Hy & _ & Hu) H32. cbn in *.
      destruct (Hu _ _ H32) as [<- <-]. lia.
Qed.

(** ** The patch-coordinate generator *)

Variable cats2dict : string -> gmap string (list (source angle)).

(** C8, as the code has it: with a target count [n > 0] the generator
    scans with step 1, whatever step it is given, and then down-samples
    the table. The rows kept are rows of the step 1 table in their
    order; a table of at most [n] rows is returned whole; a longer one is
    cut to every [q]-th row, [q] the integer part of [total / n], which
    leaves [ceil (total / q)] rows: at least [n] and at most [2 n - 1],
    so often more than [n]. *)
Theorem C8_target_count_rows (cats_path : string) (step o_nside nside : Z) (radius : angle)
    (patch_size n : Z) (cats_subset : option (list string)) :
  0 < n ->
  generate_patch_coords cats2dict cats_path step o_nside nside radius patch_size (Some n)
                        cats_subset
  = (full ← generate_patch_coords cats2dict cats_path 1 o_nside nside radius patch_size
                                  None cats_subset;
     subsample n full)
  ∧ ∀ full, ∃ rows,
      subsample n full = Ok rows
      ∧ rows `sublist_of` full
      ∧ (Z.of_nat (length full) <= n -> rows = full)
      ∧ (n < Z.of_nat (length full) ->
           let q := Z.of_nat (length full) / n in
           rows = every_nth (Z.to_nat q) full
           ∧ Z.of_nat (length rows) = (Z.of_nat (length full) + q - 1) / q
           ∧ n <= Z.of_nat (length rows) <= 2 * n - 1).
Proof.
  intros Hn. split; [apply generate_patch_coords_target|].
  intros full. by apply subsample_rows.
Qed.
End Properties.

Lemma C5_centering_filter_witness :
  draw_circles [5; 11] [0; 0] (RadiusScalar 2) 1 strip_of_ten true
  = (h_arr ← circles_bitmap [(5, 0, 2)] 1 strip_of_ten false;
     flat_arr2matr h_arr strip_of_ten).
Proof.
  refine (proj1 (proj2
    (C5_centering_filter [5; 11] [0; 0] (RadiusScalar 2) 1 strip_of_ten _))).
  intros [[ra dec] r] _. by exists ra.
Defined.

(** The disc round pixel 11 covers pixel 9 of the strip; its centre is not
    in the strip, and with the filter pixel 9 stays empty. *)
Example disc_with_centre_outside :
  draw_circles [5; 11] [0; 0] (RadiusScalar 2) 1 strip_of_ten true
    = Ok [[0; 0; 0; 1; 1; 1; 1; 1; 0; 0]]
  ∧ draw_circles [5; 11] [0; 0] (RadiusScalar 2) 1 strip_of_ten false
    = Ok [[0; 0; 0; 1; 1; 1; 1; 1; 0; 1]].
Proof. split; reflexivity. Qed.

Lemma C9_bitmaps_are_flags_witness :
  Forall (Forall is_flag) [[0; 0; 0; 1; 1; 1; 1; 1; 1; 1]]
  ∧ (draw_circles [5; 7] [0; 0] (RadiusScalar 2) 1 strip_of_ten false
       = Ok [[0; 0; 0; 1; 1; 1; 1; 1; 1; 1]] ->
     ∀ r c v, cell strip_of_ten r c = Some v ->
       ∃ b, cell [[0; 0; 0; 1; 1; 1; 1; 1; 1; 1]] r c = Some b ∧ is_flag b
         ∧ (b = 1 <->
            ∃ obj pix q, obj ∈ zip_objects [5; 7] [0; 0] (RadiusScalar 2)
              ∧ (false = false ∨ center_in_patch 1 strip_of_ten obj = true)
              ∧ disc_pixels 1 obj = Ok pix ∧ q ∈ pix
              ∧ np_index (Z.to_nat (nside2npix 1)) q
                = np_index (Z.to_nat (nside2npix 1)) v))
  ∧ (draw_dots [5; 7] [0; 0] 1 strip_of_ten = Ok [[0; 0; 0; 1; 1; 1; 1; 1; 1; 1]] ->
     ∀ r c v, cell strip_of_ten r c = Some v ->
       ∃ pix b, radec2pix [5; 7] [0; 0] 1 true = Ok pix
         ∧ cell [[0; 0; 0; 1; 1; 1; 1; 1; 1; 1]] r c = Some b ∧ is_flag b
         ∧ (b = 1 <->
            ∃ q, q ∈ pix ∧ np_index (Z.to_nat (nside2npix 1)) q
                           = np_index (Z.to_nat (nside2npix 1)) v)).
Proof.
  apply (C9_bitmaps_are_flags [5; 7] [0; 0] (RadiusScalar 2) 1 strip_of_ten false).
  left. reflexivity.
Defined.

Lemma C10_scalar_radius_is_broadcast_witness :
  draw_circles [5; 7] [0; 0] (RadiusScalar 2) 1 strip_of_ten false
  = draw_circles [5; 7] [0; 0] (RadiusArray [2; 2]) 1 strip_of_ten false.
Proof.
  apply (C10_scalar_radius_is_broadcast [5; 7] [0; 0] 2 [2; 2] 1 strip_of_ten false).
  - reflexivity.
  - repeat constructor.
Defined.

Lemma C6_aligner_witness :
  ∃ output, src_on_batch (PatchRow 0 0 0 1) matrix_0_depth_2 three_records = Ok output
    ∧ (∀ name, three_records !! name = None -> output !! name = None)
    ∧ (∀ name cat, three_records !! name = Some cat ->
         ∃ recs, output !! name = Some recs
           ∧ loc_src <$> recs
             = filter (fun s => src_pix11 s ∈ concat (slice2 0 (0 + 64) 0 (0 + 64) matrix_0_depth_2)
                                ∧ src_pix2 s = 0) cat
           ∧ Forall (fun l =>
               ∃ r c : nat, loc_x l = Z.of_nat r ∧ loc_y l = Z.of_nat c
                 ∧ cell (slice2 0 (0 + 64) 0 (0 + 64) matrix_0_depth_2) r c
                   = Some (src_pix11 (loc_src l))
                 ∧ ∀ r' c', cell (slice2 0 (0 + 64) 0 (0 + 64) matrix_0_depth_2) r' c'
                            = Some (src_pix11 (loc_src l)) ->
                            r' = r ∧ c' = c) recs
           ∧ Forall (fun l => cell (slice2 0 (0 + 64) 0 (0 + 64) matrix_0_depth_2) 3 2
                              = Some (src_pix11 (loc_src l)) ->
                              loc_x l = 3 ∧ loc_y l = 2) recs).
Proof.
  apply (C6_aligner (PatchRow 0 0 0 1) matrix_0_depth_2 three_records).
  apply (bool_decide_unpack (NoDup (concat matrix_0_depth_2))). vm_compute. exact I.
Defined.

(** Fine pixel 14 is cell [3][2] of the matrix of coarse pixel 0: of the
    three records, the one in coarse pixel 0 at fine pixel 14 is kept. *)
Example align_cell_3_2 :
  one_pixel_fragmentation 2 0 8 = Ok matrix_0_depth_2
  ∧ src_on_batch (PatchRow 0 0 0 1) matrix_0_depth_2 three_records
    = Ok {[ "clusters"%string := [Located (Source 0 0 0 14) 3 2] ]}.
Proof. split; vm_compute; reflexivity. Qed.

Lemma C8_target_count_rows_witness :
  generate_patch_coords (one_catalogue [3; 7]) "cats" 64 2 2 0 64 (Some 5) None
  = (full ← generate_patch_coords (one_catalogue [3; 7]) "cats" 1 2 2 0 64 None None;
     subsample 5 full)
  ∧ ∀ full, ∃ rows,
      subsample 5 full = Ok rows
      ∧ rows `sublist_of` full
      ∧ (Z.of_nat (length full) <= 5 -> rows = full)
      ∧ (5 < Z.of_nat (length full) ->
           let q := Z.of_nat (length full) / 5 in
           rows = every_nth (Z.to_nat q) full
           ∧ Z.of_nat (length rows) = (Z.of_nat (length full) + q - 1) / q
           ∧ 5 <= Z.of_nat (length rows) <= 2 * 5 - 1).
Proof. apply (C8_target_count_rows (one_catalogue [3; 7]) "cats" 64 2 2 0 64 5 None). lia. Defined.

(** C3 fails on the code, which visits the 48 coarse pixels of nside 2
    whatever [o_nside] is. At [o_nside = 4] an object in coarse pixel 100
    gives no row, although the window at (0, 0) of that pixel holds it; at
    [o_nside = 1] the sweep runs past the 12 pixels there are and the
    gather of pixel 12 is out of the bitmap. *)
Theorem C3_coarse_pixels_are_those_of_nside_2 :
  generate_patch_coords (one_catalogue [100]) "cats" 20 4 4 0 64 None None = Ok []
  ∧ (pix_matr ← one_pixel_fragmentation 4 100 4;
     pic ← draw_dots [100] [0] 4 pix_matr;
     scan_windows pic 20 64 100) = Ok [PatchRow 0 0 100 1]
  ∧ generate_patch_coords (one_catalogue [3]) "cats" 20 1 1 0 64 None None
    = Raise IndexError.
Proof. split_and!; vm_compute; reflexivity. Qed.

(** C7 fails on the code, whose scan stops short of the last window: with
    the resolutions of the defaults, the step and the patch size both 64,
    and one object on the whole sky, at fine pixel 698496, which is the
    cell at row 1000, column 0 of the image of coarse pixel 0, the table is
    empty. *)
Theorem C7_object_in_last_rows_gets_no_patch :
  cell (nested_matrix 0 10) 1000 0 = Some 698496
  ∧ generate_patch_coords (one_catalogue [698496]) "cats" 64 2 2048 0 64 None None = Ok [].
Proof.
  split.
  - rewrite nested_matrix_cell by (cbn; lia). reflexivity.
  - apply (generate_patch_coords_margin (one_catalogue [698496]) "cats" 0 None
             [dot_at 698496] 0 1000 0).
    + reflexivity.
    + vm_compute. reflexivity.
    + lia.
    + lia.
    + lia.
    + left. lia.
Qed.

(** With the step and the patch size both 64 and an object away from the
    last rows and columns, the table has the one row of its window. *)
Example one_object_one_patch :
  generate_patch_coords (one_catalogue [7]) "cats" 64 2 2 0 64 None None
  = Ok [PatchRow 0 0 7 1].
Proof. vm_compute. reflexivity. Qed.

(** C8, as stated, fails: five objects in five coarse pixels give five
    rows at step 1, and with a target of 3 the stride is [5 // 3 = 1], so
    all five rows are returned. *)
Lemma C8_five_rows_for_target_3 :
  generate_patch_coords (one_catalogue [0; 1; 2; 3; 4]) "cats" 20 2 2 0 64 (Some 3) None
  = Ok [PatchRow 0 0 0 1; PatchRow 0 0 1 1; PatchRow 0 0 2 1; PatchRow 0 0 3 1;
        PatchRow 0 0 4 1].
Proof.
  unfold generate_patch_coords.
  assert (Hdf : catalogue_rows (one_catalogue [0; 1; 2; 3; 4]) "cats" None
                = Ok (dot_at <$> [0; 1; 2; 3; 4])) by (vm_compute; reflexivity).
  rewrite Hdf, bind_Ok.
  rewrite (for_each_ext _ (fun (all_idx : list patch_row) (i : Z) =>
     h_arr ← dots_bitmap (src_RA <$> (dot_at <$> [0; 1; 2; 3; 4]))
                         (src_DEC <$> (dot_at <$> [0; 1; 2; 3; 4])) 2;
     b ← get_at h_arr i;
     Ok (all_idx ++ (if b =? 0 then [] else [PatchRow 0 0 i 1])))).
  - vm_compute. reflexivity.
  - intros s x _. by apply generate_turn_same_nside.
Qed.

(** * Further properties of the code *)

(** ** The builder: exceptions and edge cases *)

Lemma one_pixel_fragmentation_depth (o p f d : Z) :
  log2_ratio o f = Ok d -> 0 <= d ->
  ∃ M, one_pixel_fragmentation o p f = Ok M
     ∧ length M = Z.to_nat (2 ^ d)
     ∧ Forall (fun row => length row = Z.to_nat (2 ^ d)) M.
Proof.
  intros Hd Hpos. unfold one_pixel_fragmentation. rewrite Hd, bind_Ok.
  destruct (Z.ltb_spec d 0); [lia|].
  rewrite <- (Z2Nat.id d) by done. rewrite pow2_nat_Z.
  unfold recursive_fill. cbn [nrows whole].
  rewrite (recursive_fill_fuel_cells _ (Z.to_nat d))
    by (cbn; auto using Nat.pow_gt_lin_r with lia).
  eexists. split; [done|]. apply mapij_shape.
  - by rewrite length_replicate.
  - apply Forall_replicate. by rewrite length_replicate.
Qed.

Lemma log2_ratio_cases (o f : Z) :
  log2_ratio o f =
    if o =? 0 then Raise ZeroDivisionError
    else if f =? 0 then Raise OverflowError
    else if xorb (o <? 0) (f <? 0) then Raise ValueError
    else if Z.abs o <=? Z.abs f then Ok (Z.log2 (Z.abs f / Z.abs o))
    else Ok (- Z.log2 (Z.abs o / Z.abs f)).
Proof. reflexivity. Qed.

(** X1: what [one_pixel_fragmentation] does on the pairs of resolutions.
    It raises ZeroDivisionError when the coarse resolution is 0 and
    OverflowError when only the fine one is 0. For two resolutions of at
    most [2 ^ 30] in absolute value, neither of them 0, it raises
    ValueError when they differ in sign and TypeError when the fine one
    is at most half the coarse one in absolute value; in every other case
    it returns a square matrix, of side two to the integer part of the
    logarithm of the ratio. *)
Theorem builder_returns_or_raises (o p f : Z) :
  (o = 0 -> one_pixel_fragmentation o p f = Raise ZeroDivisionError)
  ∧ (o ≠ 0 -> f = 0 -> one_pixel_fragmentation o p f = Raise OverflowError)
  ∧ (Z.abs o <= 2 ^ 30 -> Z.abs f <= 2 ^ 30 ->
     (o * f < 0 -> one_pixel_fragmentation o p f = Raise ValueError)
     ∧ (0 < o * f -> 2 * Z.abs f <= Z.abs o ->
          one_pixel_fragmentation o p f = Raise TypeError)
     ∧ (0 < o * f -> Z.abs o < 2 * Z.abs f ->
          ∃ M, one_pixel_fragmentation o p f = Ok M
             ∧ length M = Z.to_nat (2 ^ Z.log2 (Z.abs f / Z.abs o))
             ∧ Forall (fun row => length row
                                  = Z.to_nat (2 ^ Z.log2 (Z.abs f / Z.abs o))) M)).
Proof.
  split; [|split; [|intros _ _; split_and!]].
  - intros ->. reflexivity.
  - intros Ho ->. unfold one_pixel_fragmentation, log2_ratio.
    destruct (Z.eqb_spec o 0); [done|]. reflexivity.
  - intros Hs. unfold one_pixel_fragmentation. rewrite log2_ratio_cases.
    destruct (Z.eqb_spec o 0); [nia|]. destruct (Z.eqb_spec f 0); [nia|].
    destruct (Z.ltb_spec o 0), (Z.ltb_spec f 0); cbn [xorb]; try done; nia.
  - intros Hs Hle. unfold one_pixel_fragmentation. rewrite log2_ratio_cases.
    destruct (Z.eqb_spec o 0); [nia|]. destruct (Z.eqb_spec f 0); [nia|].
    assert (xorb (o <? 0) (f <? 0) = false) as ->.
    { destruct (Z.ltb_spec o 0), (Z.ltb_spec f 0); cbn [xorb]; try done; nia. }
    destruct (Z.leb_spec (Z.abs o) (Z.abs f)); [lia|]. rewrite bind_Ok.
    assert (1 <= Z.log2 (Z.abs o / Z.abs f)).
    { apply Z.log2_le_pow2; [|change (2 ^ 1) with 2].
      - apply Z.div_str_pos. lia.
      - apply Z.div_le_lower_bound; lia. }
    by destruct (Z.ltb_spec (- Z.log2 (Z.abs o / Z.abs f)) 0); [|lia].
  - intros Hs Hlt.
    assert (Hd : log2_ratio o f = Ok (Z.log2 (Z.abs f / Z.abs o))).
    { rewrite log2_ratio_cases.
      destruct (Z.eqb_spec o 0); [nia|]. destruct (Z.eqb_spec f 0); [nia|].
      assert (xorb (o <? 0) (f <? 0) = false) as ->.
      { destruct (Z.ltb_spec o 0), (Z.ltb_spec f 0); cbn [xorb]; try done; nia. }
      destruct (Z.leb_spec (Z.abs o) (Z.abs f)); [done|].
      rewrite (Z.div_small (Z.abs f)) by lia.
      assert (Z.abs o / Z.abs f = 1) as ->.
      { symmetry. apply (Z.div_unique _ _ 1 (Z.abs o - Z.abs f)); lia. }
      reflexivity. }
    apply one_pixel_fragmentation_depth; [done|apply Z.log2_nonneg].
Qed.

(** X2: for two positive resolutions of at most [2 ^ 30], the fine one
    between half and twice the coarse one, both ends excluded, the
    builder returns the matrix of the one cell [p], also when the fine
    resolution is the smaller of the two. *)
Theorem builder_single_cell (o p f : Z) :
  0 < o <= 2 ^ 30 -> 0 < f <= 2 ^ 30 -> f < 2 * o -> o < 2 * f ->
  one_pixel_fragmentation o p f = Ok [[p]].
Proof.
  intros [Ho _] [Hf _] H1 H2.
  assert (Hd : log2_ratio o f = Ok 0).
  { rewrite log2_ratio_cases.
    destruct (Z.eqb_spec o 0); [lia|]. destruct (Z.eqb_spec f 0); [lia|].
    destruct (Z.ltb_spec o 0); [lia|]. destruct (Z.ltb_spec f 0); [lia|]. cbn [xorb].
    rewrite !Z.abs_eq by lia.
    destruct (Z.leb_spec o f).
    - assert (f / o = 1) as ->; [|done].
      symmetry. apply (Z.div_unique _ _ 1 (f - o)); lia.
    - assert (o / f = 1) as ->; [|done].
      symmetry. apply (Z.div_unique _ _ 1 (o - f)); lia. }
  unfold one_pixel_fragmentation. rewrite Hd. reflexivity.
Qed.

Lemma builder_single_cell_witness : one_pixel_fragmentation 4 7 3 = Ok [[7]].
Proof. apply (builder_single_cell 4 7 3); lia. Defined.

Lemma subview_inside (w : window) (i h j k : nat) (r c : nat) :
  in_window (subview w i h j k) r c = true -> in_window w r c = true.
Proof. rewrite !in_window_true. unfold subview. cbn [r0 c0 nrows ncols]. lia. Qed.

Lemma subview_outside (w : window) (i h j k : nat) (r c : nat) :
  in_window w r c = false -> in_window (subview w i h j k) r c = false.
Proof.
  intros H. destruct (in_window (subview w i h j k) r c) eqn:E; [|done].
  apply subview_inside in E. congruence.
Qed.

(** [recursive_fill] returns on every view of at least one row, with a
    recursion no deeper than the number of rows, and it is a cell-wise
    update of the buffer that leaves the cells outside the view alone. *)
Lemma recursive_fill_fuel_frame (t : dtype) (fuel : nat) :
  ∀ w : window, (1 <= nrows w <= fuel)%nat ->
    ∃ F : nat -> nat -> Z -> Z,
      (∀ r c x, in_window w r c = false -> F r c x = x)
      ∧ ∀ m, recursive_fill_fuel fuel t w m = Ok (mapij F m).
Proof.
  induction fuel as [|fuel IH]; intros w Hw; [lia|].
  cbn [recursive_fill_fuel].
  destruct (Nat.eqb_spec (nrows w) 1) as [E1|Hne].
  - exists (fun _ _ x => x). split; [done|]. intros m. f_equal. symmetry. by apply mapij_id.
  - set (mid := (nrows w / 2)%nat).
    assert (Hmid : (1 <= mid ∧ 2 * mid <= nrows w)%nat).
    { unfold mid. split.
      - apply Nat.div_le_lower_bound; lia.
      - apply Nat.Div0.mul_div_le. }
    destruct (IH (subview w 0 mid 0 mid)) as (F1 & HF1 & E1);
      [unfold subview; cbn [nrows]; lia|].
    destruct (IH (subview w 0 mid mid mid)) as (F2 & HF2 & E2);
      [unfold subview; cbn [nrows]; lia|].
    destruct (IH (subview w mid mid 0 mid)) as (F3 & HF3 & E3);
      [unfold subview; cbn [nrows]; lia|].
    destruct (IH (subview w mid mid mid mid)) as (F4 & HF4 & E4);
      [unfold subview; cbn [nrows]; lia|].
    eexists. split; [|intros m; rewrite E1, bind_Ok, E2, bind_Ok, E3, bind_Ok, E4;
                      unfold update_view; rewrite !mapij_mapij; reflexivity].
    intros r c x Hout. cbv beta.
    rewrite Hout. unfold rows_from, cols_from.
    rewrite !(subview_outside w _ _ _ _ r c Hout).
    rewrite HF1, HF2, HF3, HF4 by (by apply subview_outside). done.
Qed.

Lemma cell_mapij {A B} (f : nat -> nat -> A -> B) (m : matrix A) (r c : nat) :
  cell (mapij f m) r c = f r c <$> cell m r c.
Proof.
  unfold cell, mapij. rewrite list_lookup_imap.
  destruct (m !! r) as [row|]; [|done]. cbn. by rewrite list_lookup_imap.
Qed.

(** X3: on a view of at least one row [recursive_fill] returns, whatever
    the shape of the view and of the buffer; the buffer keeps its shape,
    and every cell outside the view keeps its value. *)
Theorem recursive_fill_returns_and_keeps_the_rest (t : dtype) (w : window) (m : matrix Z) :
  (1 <= nrows w)%nat ->
  ∃ m', recursive_fill t w m = Ok m'
     ∧ length m' = length m
     ∧ (∀ r, length <$> m' !! r = length <$> m !! r)
     ∧ (∀ r c, in_window w r c = false -> cell m' r c = cell m r c).
Proof.
  intros Hw. destruct (recursive_fill_fuel_frame t (nrows w) w ltac:(lia)) as (F & HF & E).
  exists (mapij F m). split; [apply E|]. split_and!.
  - unfold mapij. by rewrite length_imap.
  - intros r. unfold mapij. rewrite list_lookup_imap.
    destruct (m !! r) as [row|]; [|done]. cbn. by rewrite length_imap.
  - intros r c Hout. rewrite cell_mapij. destruct (cell m r c) as [x|]; [|done].
    cbn. by rewrite HF.
Qed.

Lemma recursive_fill_returns_and_keeps_the_rest_witness :
  ∃ m', recursive_fill int64 (Window 0 1 3 2) [[1; 1; 1]; [1; 1; 1]; [1; 1; 1]] = Ok m'
     ∧ length m' = length [[1; 1; 1]; [1; 1; 1]; [1; 1; 1]]
     ∧ (∀ r, length <$> m' !! r = length <$> [[1; 1; 1]; [1; 1; 1]; [1; 1; 1]] !! r)
     ∧ (∀ r c, in_window (Window 0 1 3 2) r c = false ->
               cell m' r c = cell [[1; 1; 1]; [1; 1; 1]; [1; 1; 1]] r c).
Proof.
  apply (recursive_fill_returns_and_keeps_the_rest int64 (Window 0 1 3 2)). cbn. lia.
Defined.

(** *** Two stages of fragmentation *)

Lemma interleave_split (d1 d2 : nat) :
  ∀ i j r c : nat,
    (i < 2 ^ d1)%nat -> (j < 2 ^ d1)%nat -> (r < 2 ^ d2)%nat -> (c < 2 ^ d2)%nat ->
    interleave (d1 + d2) (i * 2 ^ d2 + r) (j * 2 ^ d2 + c)
    = interleave d1 i j * 4 ^ Z.of_nat d2 + interleave d2 r c.
Proof.
  induction d1 as [|d1 IH]; intros i j r c Hi Hj Hr Hc.
  - cbn in Hi, Hj. assert (i = 0%nat) as -> by lia. assert (j = 0%nat) as -> by lia.
    cbn [Nat.add interleave]. rewrite !Nat.mul_0_l. cbn [Nat.add]. lia.
  - assert (H2 : (2 ^ S d1 = 2 * 2 ^ d1)%nat) by (cbn; lia).
    rewrite H2 in Hi, Hj. clear H2.
    change (S d1 + d2)%nat with (S (d1 + d2)). cbn [interleave].
    rewrite Nat.pow_add_r. rewrite Nat2Z.inj_add, Z.pow_add_r by lia.
    pose proof (pow2_pos d1). pose proof (pow2_pos d2).
    pose proof (pow4_pos d1). pose proof (pow4_pos d2).
    set (a := (2 ^ d1)%nat) in *. set (b := (2 ^ d2)%nat) in *.
    assert (Ei : (a * b <=? i * b + r)%nat = (a <=? i)%nat).
    { destruct (Nat.leb_spec a i), (Nat.leb_spec (a * b) (i * b + r)); try done; nia. }
    assert (Ej : (a * b <=? j * b + c)%nat = (a <=? j)%nat).
    { destruct (Nat.leb_spec a j), (Nat.leb_spec (a * b) (j * b + c)); try done; nia. }
    rewrite Ei, Ej.
    assert (Ei' : (if (a <=? i)%nat then (i * b + r - a * b)%nat else (i * b + r)%nat)
                  = ((if (a <=? i)%nat then i - a else i) * b + r)%nat).
    { destruct (Nat.leb_spec a i); [nia|done]. }
    assert (Ej' : (if (a <=? j)%nat then (j * b + c - a * b)%nat else (j * b + c)%nat)
                  = ((if (a <=? j)%nat then j - a else j) * b + c)%nat).
    { destruct (Nat.leb_spec a j); [nia|done]. }
    rewrite Ei', Ej'. rewrite IH.
    + ring.
    + destruct (Nat.leb_spec a i); lia.
    + destruct (Nat.leb_spec a j); lia.
    + done.
    + done.
Qed.

(** X4: fragmenting in two stages gives the matrix of one stage. The
    block of the fine matrix of [p] that stands at block position
    [(i, j)] is the matrix of the pixel that the middle matrix of [p]
    holds at [(i, j)]. *)
Theorem fragmentation_composes (o p : Z) (d1 d2 i j r c : nat) :
  0 < o -> 0 <= p -> (p + 1) * 4 ^ Z.of_nat (d1 + d2) <= 2 ^ 63 ->
  (i < 2 ^ d1)%nat -> (j < 2 ^ d1)%nat -> (r < 2 ^ d2)%nat -> (c < 2 ^ d2)%nat ->
  ∃ M1 M2 M q,
    one_pixel_fragmentation o p (o * 2 ^ Z.of_nat d1) = Ok M1
    ∧ cell M1 i j = Some q
    ∧ one_pixel_fragmentation (o * 2 ^ Z.of_nat d1) q (o * 2 ^ Z.of_nat d1 * 2 ^ Z.of_nat d2)
      = Ok M2
    ∧ one_pixel_fragmentation o p (o * 2 ^ Z.of_nat (d1 + d2)) = Ok M
    ∧ cell M (i * 2 ^ d2 + r) (j * 2 ^ d2 + c) = cell M2 r c
    ∧ is_Some (cell M2 r c).
Proof.
  intros Ho Hp Hfit Hi Hj Hr Hc.
  pose proof (pow4_pos d1) as HP1. pose proof (pow4_pos d2) as HP2.
  pose proof (Z.pow_pos_nonneg 2 (Z.of_nat d1) ltac:(lia) ltac:(lia)) as HQ1.
  rewrite Nat2Z.inj_add, Z.pow_add_r in Hfit by lia.
  pose proof (interleave_range d1 i j Hi Hj) as Hq.
  set (q := p * 4 ^ Z.of_nat d1 + interleave d1 i j).
  exists (nested_matrix p d1), (nested_matrix q d2), (nested_matrix p (d1 + d2)), q.
  split_and!.
  - apply one_pixel_fragmentation_nested; [done|done|nia].
  - by apply nested_matrix_cell.
  - apply one_pixel_fragmentation_nested; [nia|unfold q; nia|unfold q; nia].
  - apply one_pixel_fragmentation_nested; [done|done|].
    rewrite Nat2Z.inj_add, Z.pow_add_r by lia. done.
  - assert ((i * 2 ^ d2 + r < 2 ^ (d1 + d2))%nat) by (rewrite Nat.pow_add_r; nia).
    assert ((j * 2 ^ d2 + c < 2 ^ (d1 + d2))%nat) by (rewrite Nat.pow_add_r; nia).
    rewrite !nested_matrix_cell by done. f_equal.
    rewrite interleave_split by done. unfold q.
    rewrite Nat2Z.inj_add, Z.pow_add_r by lia. ring.
  - rewrite nested_matrix_cell by done. by eexists.
Qed.

Lemma fragmentation_composes_witness :
  ∃ M1 M2 M q,
    one_pixel_fragmentation 1 3 (1 * 2 ^ Z.of_nat 1) = Ok M1
    ∧ cell M1 1 0 = Some q
    ∧ one_pixel_fragmentation (1 * 2 ^ Z.of_nat 1) q (1 * 2 ^ Z.of_nat 1 * 2 ^ Z.of_nat 2)
      = Ok M2
    ∧ one_pixel_fragmentation 1 3 (1 * 2 ^ Z.of_nat (1 + 2)) = Ok M
    ∧ cell M (1 * 2 ^ 2 + 3) (0 * 2 ^ 2 + 1) = cell M2 3 1
    ∧ is_Some (cell M2 3 1).
Proof.
  apply (fragmentation_composes 1 3 1 2 1 0 3 1); cbn; lia.
Defined.

(** *** The matrices tile the fine sphere *)

(** X5: the matrices of the coarse pixels tile the fine sphere. Every
    fine pixel [v] is a cell of the matrix of exactly one coarse pixel,
    [v // 4 ^ d], and stands there in exactly one cell. *)
Theorem matrices_partition_the_sphere (o : Z) (d : nat) (v : Z) :
  0 < o -> nside2npix (o * 2 ^ Z.of_nat d) <= 2 ^ 63 ->
  0 <= v < nside2npix (o * 2 ^ Z.of_nat d) ->
  ∃ p M r c,
    0 <= p < nside2npix o
    ∧ p = v / 4 ^ Z.of_nat d
    ∧ one_pixel_fragmentation o p (o * 2 ^ Z.of_nat d) = Ok M
    ∧ cell M r c = Some v
    ∧ ∀ p' M' r' c',
        0 <= p' < nside2npix o ->
        one_pixel_fragmentation o p' (o * 2 ^ Z.of_nat d) = Ok M' ->
        cell M' r' c' = Some v -> p' = p ∧ r' = r ∧ c' = c.
Proof.
  intros Ho Hfit Hv. pose proof (pow4_pos d) as HP.
  assert (E : nside2npix (o * 2 ^ Z.of_nat d) = nside2npix o * 4 ^ Z.of_nat d).
  { unfold nside2npix. change 4 with (2 * 2). rewrite Z.pow_mul_l. ring. }
  set (p := v / 4 ^ Z.of_nat d).
  assert (Hp : 0 <= p < nside2npix o).
  { unfold p. split; [apply Z.div_pos; lia|]. apply Z.div_lt_upper_bound; lia. }
  pose proof (Z.div_mod v (4 ^ Z.of_nat d) ltac:(lia)) as Hdm.
  pose proof (Z.mod_pos_bound v (4 ^ Z.of_nat d) HP) as Hmod. fold p in Hdm.
  assert (Hnest : ∀ p', 0 <= p' < nside2npix o ->
            one_pixel_fragmentation o p' (o * 2 ^ Z.of_nat d) = Ok (nested_matrix p' d)).
  { intros p' Hp'. apply one_pixel_fragmentation_nested; [done|lia|].
    by destruct (descendants_fit o p' d Ho Hp' Hfit). }
  assert (Hin : v ∈ concat (nested_matrix p d)).
  { rewrite nested_matrix_Permutation. apply elem_of_seqZ. lia. }
  apply elem_of_concat_cell in Hin as (r & c & Hrc).
  exists p, (nested_matrix p d), r, c.
  split; [exact Hp|]. split; [done|]. split; [by apply Hnest|]. split; [done|].
  intros p' M' r' c' Hp' HM' Hc'. rewrite (Hnest p' Hp') in HM'. injection HM' as <-.
  assert (Hin' : v ∈ concat (nested_matrix p' d)) by (apply elem_of_concat_cell; eauto).
  rewrite nested_matrix_Permutation in Hin'. apply elem_of_seqZ in Hin'.
  assert (p' = p) as -> by nia.
  destruct (cell_unique _ _ _ _ _ _ (nested_matrix_NoDup p d) Hc' Hrc). done.
Qed.

Lemma matrices_partition_the_sphere_witness :
  ∃ p M r c,
    0 <= p < nside2npix 1
    ∧ p = 37 / 4 ^ Z.of_nat 1
    ∧ one_pixel_fragmentation 1 p (1 * 2 ^ Z.of_nat 1) = Ok M
    ∧ cell M r c = Some 37
    ∧ ∀ p' M' r' c',
        0 <= p' < nside2npix 1 ->
        one_pixel_fragmentation 1 p' (1 * 2 ^ Z.of_nat 1) = Ok M' ->
        cell M' r' c' = Some 37 -> p' = p ∧ r' = r ∧ c' = c.
Proof.
  apply (matrices_partition_the_sphere 1 1 37).
  - lia.
  - vm_compute. discriminate.
  - vm_compute. split; [discriminate|reflexivity].
Defined.

(** ** The gather: indices in and out of range *)

(** X6: [flat_arr2matr] on any matrix of indices, [n] the length of the
    array. When every index is in [-n, n) it returns an image of the
    shape of the matrix whose cell is the item of the array at the index,
    a negative index counting from the end; when some index is outside,
    it raises IndexError. *)
Theorem gather_returns_or_raises_IndexError {A} (h_arr : list A) (pix_matr : matrix Z) :
  let n := Z.of_nat (length h_arr) in
  ((∀ v, v ∈ concat pix_matr -> - n <= v < n) ->
     ∃ img, flat_arr2matr h_arr pix_matr = Ok img
       ∧ length img = length pix_matr
       ∧ (∀ r, length <$> img !! r = length <$> pix_matr !! r)
       ∧ ∀ r c v, cell pix_matr r c = Some v ->
                  is_Some (cell img r c)
                  ∧ cell img r c = h_arr !! Z.to_nat (v mod n))
  ∧ ((∃ v, v ∈ concat pix_matr ∧ ¬ (- n <= v < n)) ->
     flat_arr2matr h_arr pix_matr = Raise IndexError).
Proof.
  intros n. split.
  - intros Hall.
    assert (Htot : ∃ img, flat_arr2matr h_arr pix_matr = Ok img).
    { apply traverse_total. intros row Hrow. apply traverse_total. intros v Hv.
      destruct (get_at_wraps h_arr v) as (b & Hb & _); [|by eexists].
      apply Hall, elem_of_concat. eauto. }
    destruct Htot as [img Himg]. exists img. split; [done|].
    destruct (flat_arr2matr_cells _ _ _ Himg) as (Hlen & Hrows & Hcells).
    split; [done|]. split.
    { intros r. destruct (pix_matr !! r) as [row|] eqn:Hrow.
      - destruct (Hrows r row Hrow) as (irow & -> & Hl). cbn. by rewrite Hl.
      - apply lookup_ge_None in Hrow. rewrite <- Hlen in Hrow.
        apply lookup_ge_None in Hrow. by rewrite Hrow. }
    intros r c v Hv.
    destruct (Hcells r c v Hv) as (b & Hb & Hg).
    destruct (get_at_wraps h_arr v) as (b' & Hg' & Hl).
    { apply Hall, elem_of_concat_cell. eauto. }
    rewrite Hb. split; [by eexists|]. fold n in Hl. congruence.
  - intros (v & Hv & Hbad).
    destruct (flat_arr2matr h_arr pix_matr) as [img|e] eqn:E.
    + exfalso. apply elem_of_concat_cell in Hv as (r & c & Hrc).
      destruct (flat_arr2matr_cells _ _ _ E) as (_ & _ & Hcells).
      destruct (Hcells r c v Hrc) as (b & _ & Hg).
      unfold get_at in Hg. rewrite np_index_outside in Hg by done. done.
    + f_equal. unfold flat_arr2matr in E.
      apply traverse_Raise in E as (row & _ & E). unfold take_at in E.
      apply traverse_Raise in E as (v' & _ & E).
      by apply get_at_Raise in E as [-> _].
Qed.

(** ** The rasteriser: what the images hold *)

Section MoreRasteriserFacts.
Context {angle vec : Type} `{!Pixelizer angle vec}.

(** X9: with no right ascension, no declination or no radius there is
    no object. [draw_circles] then gathers an array of zeros, without a
    call of the pixelizer, so every cell of its image is 0. *)
Theorem circles_of_no_object (ras decs : list angle) (radiuses : radii angle) (nside : Z)
    (pix_matr : matrix Z) (flag : bool) :
  ras = [] ∨ decs = [] ∨ radiuses = RadiusArray [] ->
  draw_circles ras decs radiuses nside pix_matr flag
    = flat_arr2matr (replicate (Z.to_nat (nside2npix nside)) 0) pix_matr
  ∧ ∀ pic, draw_circles ras decs radiuses nside pix_matr flag = Ok pic ->
           Forall (Forall (fun v => v = 0)) pic.
Proof.
  intros Hno.
  assert (E : zip_objects ras decs radiuses = []).
  { unfold zip_objects. destruct Hno as [-> | [-> | ->]].
    - done.
    - by destruct ras.
    - by destruct (zip ras decs). }
  assert (E' : draw_circles ras decs radiuses nside pix_matr flag
               = flat_arr2matr (replicate (Z.to_nat (nside2npix nside)) 0) pix_matr).
  { unfold draw_circles, circles_bitmap. rewrite E. reflexivity. }
  split; [done|]. intros pic. rewrite E'. apply flat_arr2matr_values.
  by apply Forall_replicate.
Qed.

(** X10: the objects of [draw_circles] are the triples of [zip], so the
    coordinates and radii beyond the length of the shortest of the three
    arrays are ignored, without an exception. *)
Theorem circles_stop_at_the_shortest_array (ras decs rs : list angle) (nside : Z)
    (pix_matr : matrix Z) (flag : bool) :
  let n := Nat.min (length ras) (Nat.min (length decs) (length rs)) in
  draw_circles ras decs (RadiusArray rs) nside pix_matr flag
  = draw_circles (take n ras) (take n decs) (RadiusArray (take n rs)) nside pix_matr flag.
Proof.
  intros n. unfold draw_circles, zip_objects. do 2 f_equal.
  unfold n. clear n. revert decs rs.
  induction ras as [|ra ras IH]; intros [|dec decs] [|r rs]; cbn; try done.
  f_equal. apply IH.
Qed.

(** X7: in the image of [draw_circles] every cell is 0 or 1, and a cell
    is 1 exactly when the pixel that the matrix holds there is in the disc
    of an object, the object being one whose centre is in the matrix if
    the filter is on. *)
Theorem circles_image_is_the_union_of_the_discs (ras decs : list angle)
    (radiuses : radii angle) (nside : Z) (pix_matr : matrix Z) (flag : bool)
    (pic : matrix Z) (r c : nat) (v : Z) :
  draw_circles ras decs radiuses nside pix_matr flag = Ok pic ->
  cell pix_matr r c = Some v ->
  ∃ b, cell pic r c = Some b ∧ is_flag b
    ∧ (b = 1 <->
       ∃ obj pix q, obj ∈ zip_objects ras decs radiuses
         ∧ (flag = false ∨ center_in_patch nside pix_matr obj = true)
         ∧ disc_pixels nside obj = Ok pix ∧ q ∈ pix
         ∧ np_index (Z.to_nat (nside2npix nside)) q
           = np_index (Z.to_nat (nside2npix nside)) v).
Proof.
  unfold draw_circles.
  destruct (circles_bitmap _ _ _ _) as [h_arr|] eqn:Hh; [|done]. rewrite bind_Ok.
  intros Hpic Hv.
  destruct (circles_bitmap_is_the_union_of_the_discs _ _ _ _ _ Hh) as (Hlen & Hflags & Hone).
  destruct (gather_flag_cell _ _ _ _ _ _ Hpic Hv) as (b & k & Hb & Hk & Hhk).
  exists b. split; [done|]. split.
  - rewrite Forall_forall in Hflags. apply Hflags. by eapply list_elem_of_lookup_2.
  - rewrite <- Hlen, Hk. split.
    + intros ->. by apply Hone.
    + intros Hex. apply Hone in Hex. congruence.
Qed.

(** X11: in the image of [draw_dots] every cell is 0 or 1, and a cell is
    1 exactly when the pixel that the matrix holds there is the pixel of
    one of the coordinate pairs. *)
Theorem dots_image_is_the_set_of_pixels (ras decs : list angle) (nside : Z)
    (pix_matr pic : matrix Z) (r c : nat) (v : Z) :
  draw_dots ras decs nside pix_matr = Ok pic ->
  cell pix_matr r c = Some v ->
  ∃ pix b, radec2pix ras decs nside true = Ok pix
    ∧ cell pic r c = Some b ∧ is_flag b
    ∧ (b = 1 <->
       ∃ q, q ∈ pix ∧ np_index (Z.to_nat (nside2npix nside)) q
                      = np_index (Z.to_nat (nside2npix nside)) v).
Proof.
  unfold draw_dots.
  destruct (dots_bitmap _ _ _) as [h_arr|] eqn:Hh; [|done]. rewrite bind_Ok.
  intros Hpic Hv.
  destruct (dots_bitmap_is_the_set_of_pixels _ _ _ _ Hh) as (pix & Hpix & Hlen & Hflags & Hone).
  destruct (gather_flag_cell _ _ _ _ _ _ Hpic Hv) as (b & k & Hb & Hk & Hhk).
  exists pix, b. split; [done|]. split; [done|]. split.
  - rewrite Forall_forall in Hflags. apply Hflags. by eapply list_elem_of_lookup_2.
  - rewrite <- Hlen, Hk. split.
    + intros ->. by apply Hone.
    + intros Hex. apply Hone in Hex. congruence.
Qed.

(** X8: the image of [draw_circles] does not depend on the order of the
    objects. When it returns for some arrays, it returns the same image
    for arrays that give the same objects in another order. *)
Theorem circles_do_not_depend_on_order (ras decs ras' decs' : list angle)
    (radiuses radiuses' : radii angle) (nside : Z) (pix_matr : matrix Z) (flag : bool)
    (pic : matrix Z) :
  zip_objects ras decs radiuses ≡ₚ zip_objects ras' decs' radiuses' ->
  draw_circles ras decs radiuses nside pix_matr flag = Ok pic ->
  draw_circles ras' decs' radiuses' nside pix_matr flag = Ok pic.
Proof.
  intros Hperm. unfold draw_circles.
  destruct (circles_bitmap (zip_objects ras decs radiuses) _ _ _) as [h_arr|] eqn:Hh; [|done].
  by rewrite (circles_bitmap_Permutation _ _ _ _ _ _ Hperm Hh).
Qed.

End MoreRasteriserFacts.

Lemma circles_image_is_the_union_of_the_discs_witness :
  ∃ b, cell [[0; 0; 0; 0; 1; 1; 1; 1; 1; 1]] 0 4 = Some b ∧ is_flag b
    ∧ (b = 1 <->
       ∃ obj pix q, obj ∈ zip_objects [5; 7] [0; 0] (RadiusArray [1; 2])
         ∧ (false = false ∨ center_in_patch 1 strip_of_ten obj = true)
         ∧ disc_pixels 1 obj = Ok pix ∧ q ∈ pix
         ∧ np_index (Z.to_nat (nside2npix 1)) q = np_index (Z.to_nat (nside2npix 1)) 4).
Proof.
  apply (circles_image_is_the_union_of_the_discs [5; 7] [0; 0] (RadiusArray [1; 2]) 1
           strip_of_ten false [[0; 0; 0; 0; 1; 1; 1; 1; 1; 1]] 0 4 4); reflexivity.
Defined.

Lemma dots_image_is_the_set_of_pixels_witness :
  ∃ pix b, radec2pix [3; 3; 9] [0; 0; 0] 1 true = Ok pix
    ∧ cell [[0; 0; 0; 1; 0; 0; 0; 0; 0; 1]] 0 9 = Some b ∧ is_flag b
    ∧ (b = 1 <->
       ∃ q, q ∈ pix ∧ np_index (Z.to_nat (nside2npix 1)) q
                      = np_index (Z.to_nat (nside2npix 1)) 9).
Proof.
  apply (dots_image_is_the_set_of_pixels [3; 3; 9] [0; 0; 0] 1 strip_of_ten
           [[0; 0; 0; 1; 0; 0; 0; 0; 0; 1]] 0 9 9); reflexivity.
Defined.

Lemma circles_do_not_depend_on_order_witness :
  draw_circles [7; 5] [0; 0] (RadiusArray [2; 1]) 1 strip_of_ten false
  = Ok [[0; 0; 0; 0; 1; 1; 1; 1; 1; 1]].
Proof.
  apply (circles_do_not_depend_on_order [5; 7] [0; 0] [7; 5] [0; 0]
           (RadiusArray [1; 2]) (RadiusArray [2; 1]) 1 strip_of_ten false).
  - exact (perm_swap _ _ _).
  - reflexivity.
Defined.

Lemma circles_of_no_object_witness :
  draw_circles [] [4; 5] (RadiusScalar 2) 1 strip_of_ten true
    = flat_arr2matr (replicate (Z.to_nat (nside2npix 1)) 0) strip_of_ten
  ∧ ∀ pic, draw_circles [] [4; 5] (RadiusScalar 2) 1 strip_of_ten true = Ok pic ->
           Forall (Forall (fun v => v = 0)) pic.
Proof.
  apply (circles_of_no_object [] [4; 5] (RadiusScalar 2) 1 strip_of_ten true). by left.
Defined.

(** ** The aligner on any matrix *)

Lemma row_hits_elem (v : Z) (k o : nat) (row : list Z) (a b : nat) :
  (a, b) ∈ omap (fun p : nat * Z => if snd p =? v then Some (k, fst p) else None)
               (imap (fun j x => ((o + j)%nat, x)) row)
  <-> a = k ∧ ∃ j, b = (o + j)%nat ∧ row !! j = Some v.
Proof.
  rewrite list_elem_of_omap. split.
  - intros ([j x] & Hjx & Hsome).
    apply elem_of_lookup_imap in Hjx as (j' & x' & [= -> ->] & Hx).
    cbn in Hsome. destruct (Z.eqb_spec x' v) as [->|]; [|done].
    injection Hsome as <- <-. eauto.
  - intros (-> & j & -> & Hj). exists ((o + j)%nat, v). split.
    + apply elem_of_lookup_imap. eauto.
    + cbn. by rewrite Z.eqb_refl.
Qed.

Lemma row_hits_first (v : Z) (k : nat) (row : list Z) :
  ∀ (o : nat) (r c : nat) rest,
    omap (fun p : nat * Z => if snd p =? v then Some (k, fst p) else None)
         (imap (fun j x => ((o + j)%nat, x)) row) = (r, c) :: rest ->
    ∀ j, row !! j = Some v -> (c <= o + j)%nat.
Proof.
  induction row as [|x row IH]; intros o r c rest; [done|].
  cbn. destruct (Z.eqb_spec x v) as [->|Hx].
  - intros H j _. inversion H; subst. lia.
  - intros H [|j] Hj; [cbn in Hj; congruence|]. cbn in Hj.
    rewrite (imap_ext _ (fun j x => ((S o + j)%nat, x))) in H
      by (intros; cbn; f_equal; lia).
    specialize (IH _ _ _ _ H j Hj). lia.
Qed.

Lemma where_eq_from_first (v : Z) (m : matrix Z) :
  ∀ (o : nat) (r c : nat) rest,
    concat (imap (fun i row =>
      omap (fun p : nat * Z => if snd p =? v then Some ((o + i)%nat, fst p) else None)
           (imap (fun j x => ((0 + j)%nat, x)) row)) m) = (r, c) :: rest ->
    ∀ r' c', cell m r' c' = Some v -> (r < o + r')%nat ∨ (r = (o + r')%nat ∧ (c <= c')%nat).
Proof.
  induction m as [|row m IH]; intros o r c rest; [done|].
  cbn [imap concat].
  rewrite (imap_ext _ (fun i row =>
      omap (fun p : nat * Z => if snd p =? v then Some ((S o + i)%nat, fst p) else None)
           (imap (fun j x => ((0 + j)%nat, x)) row))).
  2: { intros i x _. cbn. by replace (o + S i)%nat with (S (o + i)) by lia. }
  destruct (omap _ (imap _ row)) as [|[r0 c0] hits] eqn:E.
  - rewrite app_nil_l. intros H r' c' Hc.
    destruct r' as [|r'].
    + exfalso. unfold cell in Hc. cbn in Hc.
      assert (Hin : ((o + 0)%nat, (0 + c')%nat) ∈ @nil (nat * nat)).
      { rewrite <- E. apply row_hits_elem. eauto. }
      by apply elem_of_nil in Hin.
    + assert (Hc' : cell m r' c' = Some v) by exact Hc.
      specialize (IH _ _ _ _ H r' c' Hc'). lia.
  - cbn. intros H r' c' Hc. inversion H; subst.
    assert (Hr : r = (o + 0)%nat).
    { assert (Hin : (r, c) ∈ (r, c) :: hits) by apply list_elem_of_here.
      rewrite <- E in Hin. by apply row_hits_elem in Hin as [-> _]. }
    destruct r' as [|r']; [|lia].
    right. split; [lia|]. unfold cell in Hc. cbn in Hc.
    pose proof (row_hits_first v _ row 0 r c hits E c' Hc). lia.
Qed.

Lemma where_eq_first (m : matrix Z) (v : Z) (r c : nat) rest :
  where_eq m v = (r, c) :: rest ->
  ∀ r' c', cell m r' c' = Some v -> (r < r')%nat ∨ (r = r' ∧ (c <= c')%nat).
Proof.
  intros H r' c' Hc.
  destruct (where_eq_from_first v m 0 r c rest H r' c' Hc) as [?|[? ?]]; lia.
Qed.

Section MoreAlignerFacts.
Context {angle vec : Type} `{!Pixelizer angle vec}.

Lemma locate_first (f_matr : matrix Z) (s : source angle) :
  src_pix11 s ∈ concat f_matr ->
  ∃ r c : nat, locate f_matr s = Ok (Located s (Z.of_nat r) (Z.of_nat c))
    ∧ cell f_matr r c = Some (src_pix11 s)
    ∧ ∀ r' c', cell f_matr r' c' = Some (src_pix11 s) ->
               (r < r')%nat ∨ (r = r' ∧ (c <= c')%nat).
Proof.
  intros (r & c & Hrc)%elem_of_concat_cell. apply where_eq_cell in Hrc.
  unfold locate. destruct (where_eq f_matr (src_pix11 s)) as [|[r1 c1] rest] eqn:E.
  - by apply elem_of_nil in Hrc.
  - exists r1, c1. split; [done|]. split.
    + apply where_eq_cell. rewrite E. apply list_elem_of_here.
    + by apply (where_eq_first _ _ _ _ _ E).
Qed.

Lemma traverse_locate_first (f_matr : matrix Z) (cur_cat : list (source angle)) :
  Forall (fun s => src_pix11 s ∈ concat f_matr) cur_cat ->
  ∃ recs, traverse (locate f_matr) cur_cat = Ok recs
          ∧ loc_src <$> recs = cur_cat
          ∧ Forall (fun l => ∃ r c : nat, loc_x l = Z.of_nat r ∧ loc_y l = Z.of_nat c
                      ∧ cell f_matr r c = Some (src_pix11 (loc_src l))
                      ∧ ∀ r' c', cell f_matr r' c' = Some (src_pix11 (loc_src l)) ->
                                 (r < r')%nat ∨ (r = r' ∧ (c <= c')%nat)) recs.
Proof.
  induction 1 as [|s cur Hs _ (recs & Ht & Hsrc & Hall)].
  - exists []. by repeat split.
  - destruct (locate_first f_matr s Hs) as (r & c & Hl & Hc & Hfirst).
    exists (Located s (Z.of_nat r) (Z.of_nat c) :: recs). cbn.
    rewrite Hl. cbn. rewrite Ht. cbn. split; [done|]. split.
    + by rewrite Hsrc.
    + constructor; [|done]. exists r, c. by split_and!.
Qed.

(** What [src_on_batch] returns, on any matrix. *)
Lemma src_on_batch_result (patch_line : patch_row) (f_matr : matrix Z)
    (cats : gmap string (list (source angle))) :
  let x := row_x patch_line in
  let y := row_y patch_line in
  let window := slice2 x (x + 64) y (y + 64) f_matr in
  ∃ g : list (source angle) -> list (located angle),
    src_on_batch patch_line f_matr cats = Ok (g <$> cats)
    ∧ ∀ cat,
        loc_src <$> g cat
        = filter (fun s => src_pix11 s ∈ concat window
                           ∧ src_pix2 s = row_pix2 patch_line) cat
        ∧ Forall (fun l => ∃ r c : nat, loc_x l = Z.of_nat r ∧ loc_y l = Z.of_nat c
                    ∧ cell window r c = Some (src_pix11 (loc_src l))
                    ∧ ∀ r' c', cell window r' c' = Some (src_pix11 (loc_src l)) ->
                               (r < r')%nat ∨ (r = r' ∧ (c <= c')%nat)) (g cat).
Proof.
  intros x y window.
  set (cur := fun cat : list (source angle) =>
    filter (fun s => src_pix11 s ∈ concat window)
      (filter (fun s => src_pix2 s = row_pix2 patch_line) cat)).
  assert (Hcur : ∀ cat, Forall (fun s => src_pix11 s ∈ concat window) (cur cat)).
  { intros cat. apply Forall_forall.
    intros s Hs. unfold cur in Hs. by apply list_elem_of_filter in Hs as [? _]. }
  set (g := fun cat => match traverse (locate window) (cur cat) with
                       | Ok recs => recs | Raise _ => [] end).
  exists g. split.
  - unfold src_on_batch. apply map_traverse_Ok. intros name cat _.
    fold x y window. fold (cur cat). unfold g.
    by destruct (traverse_locate_first window (cur cat) (Hcur cat)) as (recs & -> & _).
  - intros cat. unfold g.
    destruct (traverse_locate_first window (cur cat) (Hcur cat)) as (recs & -> & Hsrc & Hall).
    split; [|done]. rewrite Hsrc. unfold cur. by rewrite list_filter_filter.
Qed.

(** X12: [src_on_batch] never raises, whatever the matrix and the patch
    line are. It returns a table for each catalogue and for no other
    name: the records of the catalogue, in their order, whose coarse pixel
    is that of the patch and whose fine pixel is in the sub-window. Where
    the sub-window holds a fine pixel more than once, a record at that
    pixel gets the first of its cells, rows first. *)
Theorem aligner_takes_the_first_cell (patch_line : patch_row) (f_matr : matrix Z)
    (cats : gmap string (list (source angle))) :
  let x := row_x patch_line in
  let y := row_y patch_line in
  let window := slice2 x (x + 64) y (y + 64) f_matr in
  ∃ output, src_on_batch patch_line f_matr cats = Ok output
    ∧ dom output = dom cats
    ∧ ∀ name cat, cats !! name = Some cat ->
        ∃ recs, output !! name = Some recs
          ∧ loc_src <$> recs
            = filter (fun s => src_pix11 s ∈ concat window
                               ∧ src_pix2 s = row_pix2 patch_line) cat
          ∧ Forall (fun l => ∃ r c : nat, loc_x l = Z.of_nat r ∧ loc_y l = Z.of_nat c
                      ∧ cell window r c = Some (src_pix11 (loc_src l))
                      ∧ ∀ r' c', cell window r' c' = Some (src_pix11 (loc_src l)) ->
                                 (r < r')%nat ∨ (r = r' ∧ (c <= c')%nat)) recs.
Proof.
  intros x y window.
  destruct (src_on_batch_result patch_line f_matr cats) as (g & Hg & Hcat).
  exists (g <$> cats). split; [done|]. split; [by rewrite dom_fmap_L|].
  intros name cat Hname. exists (g cat). rewrite lookup_fmap, Hname.
  split; [done|]. apply Hcat.
Qed.

(** X13: for a patch line with offsets that are not negative, the
    coordinates [src_on_batch] gives a record are in [0, 64), and the cell
    of the whole matrix at the offsets of the patch plus these coordinates
    holds the fine pixel of the record; the coarse pixel of the record is
    that of the patch. *)
Theorem aligner_coordinates_point_into_the_matrix (patch_line : patch_row)
    (f_matr : matrix Z) (cats : gmap string (list (source angle)))
    (output : gmap string (list (located angle))) (name : string)
    (recs : list (located angle)) :
  0 <= row_x patch_line -> 0 <= row_y patch_line ->
  src_on_batch patch_line f_matr cats = Ok output ->
  output !! name = Some recs ->
  Forall (fun l =>
    0 <= loc_x l < 64 ∧ 0 <= loc_y l < 64
    ∧ cell f_matr (Z.to_nat (row_x patch_line + loc_x l))
                  (Z.to_nat (row_y patch_line + loc_y l))
      = Some (src_pix11 (loc_src l))
    ∧ src_pix2 (loc_src l) = row_pix2 patch_line) recs.
Proof.
  intros Hx Hy Hout Hrecs.
  destruct (src_on_batch_result patch_line f_matr cats) as (g & Hg & Hcat).
  rewrite Hg in Hout. injection Hout as <-.
  rewrite lookup_fmap in Hrecs.
  destruct (cats !! name) as [cat|]; [|done]. cbn in Hrecs. injection Hrecs as <-.
  destruct (Hcat cat) as [Hsrc Hall].
  assert (Hp2 : Forall (fun s => src_pix2 s = row_pix2 patch_line) (loc_src <$> g cat)).
  { rewrite Hsrc. apply Forall_forall. intros s Hs.
    by apply list_elem_of_filter in Hs as [[_ ?] _]. }
  apply Forall_fmap in Hp2.
  apply Forall_forall. intros l Hl.
  rewrite Forall_forall in Hall. rewrite Forall_forall in Hp2.
  destruct (Hall l Hl) as (r & c & Hlx & Hly & Hc & _).
  specialize (Hp2 l Hl). cbn in Hp2.
  apply cell_slice2 in Hc as (Hc & Hr & Hcc); try lia.
  rewrite Hlx, Hly. split_and!; try lia; try done.
  by rewrite !Z2Nat.inj_add, !Nat2Z.id by lia.
Qed.
End MoreAlignerFacts.

Lemma aligner_coordinates_point_into_the_matrix_witness :
  Forall (fun l =>
    0 <= loc_x l < 64 ∧ 0 <= loc_y l < 64
    ∧ cell matrix_0_depth_2 (Z.to_nat (1 + loc_x l)) (Z.to_nat (2 + loc_y l))
      = Some (src_pix11 (loc_src l))
    ∧ src_pix2 (loc_src l) = 0) [Located (Source 0 0 0 14) 2 0].
Proof.
  apply (aligner_coordinates_point_into_the_matrix (PatchRow 1 2 0 1) matrix_0_depth_2
           three_records {[ "clusters"%string := [Located (Source 0 0 0 14) 2 0] ]}
           "clusters"%string); [cbn; lia|cbn; lia|vm_compute; reflexivity|reflexivity].
Defined.

(** ** The table of the generator *)

Lemma for_each_append {A B} (f : A -> result (list B)) (xs : list A) :
  ∀ acc, for_each (fun acc x => rows ← f x; Ok (acc ++ rows)) xs acc
         = (rss ← traverse f xs; Ok (acc ++ concat rss)).
Proof.
  induction xs as [|x xs IH]; intros acc; cbn.
  - by rewrite app_nil_r.
  - destruct (f x) as [rows|e]; cbn; [|done]. rewrite IH.
    destruct (traverse f xs) as [rss|e]; cbn; [|done]. by rewrite app_assoc.
Qed.

Lemma py_range_elem (stop step : Z) (xs : list Z) (x : Z) :
  py_range 0 stop step = Ok xs -> 0 <= stop ->
  x ∈ xs <-> 0 < step ∧ ∃ k, x = k * step ∧ 0 <= k ∧ x < stop.
Proof.
  intros E Hstop. split.
  - intros Hx. destruct (Z.ltb_spec 0 step) as [Hs|Hs].
    + split; [done|]. by eapply py_range_pos.
    + exfalso. unfold py_range in E. destruct (Z.eqb_spec step 0); [done|].
      destruct (Z.ltb_spec 0 step); [lia|]. injection E as <-.
      assert (Hn : (0 - stop - step - 1) / - step <= 0).
      { destruct (Z.le_gt_cases (0 - stop - step - 1) (-1)).
        - assert ((0 - stop - step - 1) / - step < 0); [|lia].
          apply Z.div_lt_upper_bound; lia.
        - rewrite Z.div_small; lia. }
      replace (Z.to_nat _) with 0%nat in Hx by lia. by apply elem_of_nil in Hx.
  - intros (Hs & k & -> & Hk & Hlt). unfold py_range in E.
    destruct (Z.eqb_spec step 0); [lia|]. destruct (Z.ltb_spec 0 step); [|lia].
    injection E as <-. apply list_elem_of_fmap. exists (Z.to_nat k). split; [lia|].
    apply elem_of_seq. split; [lia|]. cbn.
    assert (k + 1 <= (stop - 0 + step - 1) / step); [|lia].
    apply Z.div_le_lower_bound; [lia|]. nia.
Qed.

Lemma py_range_NoDup (start stop step : Z) (xs : list Z) :
  py_range start stop step = Ok xs -> NoDup xs.
Proof.
  unfold py_range. destruct (Z.eqb_spec step 0); [done|]. intros [= <-].
  apply NoDup_fmap_2_strong; [|apply NoDup_seq].
  intros a b _ _ Hab. nia.
Qed.

Lemma count_nonzero_any (m : matrix Z) : matrix_any m = true -> 1 <= count_nonzero m.
Proof.
  unfold matrix_any, count_nonzero. intros H.
  apply existsb_exists in H as (row & Hrow & H).
  apply existsb_exists in H as (v & Hv & Hnz).
  assert (Hin : v ∈ filter (fun v => v ≠ 0) (concat m)).
  { apply list_elem_of_filter. split.
    - by destruct (Z.eqb_spec v 0).
    - apply elem_of_concat. exists row. split; by apply list_elem_of_In. }
  destruct (filter _ _); [by apply elem_of_nil in Hin|]. cbn. lia.
Qed.

Lemma matrix_any_count (m : matrix Z) : matrix_any m = false -> count_nonzero m = 0.
Proof.
  unfold matrix_any, count_nonzero. intros H.
  destruct (filter (fun v => v ≠ 0) (concat m)) as [|v l] eqn:E; [done|]. exfalso.
  assert (Hin : v ∈ filter (fun v => v ≠ 0) (concat m)) by (rewrite E; apply list_elem_of_here).
  apply list_elem_of_filter in Hin as [Hnz Hin].
  apply elem_of_concat in Hin as (row & Hrow & Hv).
  assert (existsb (existsb (fun v => negb (v =? 0))) m = true); [|congruence].
  apply existsb_exists. exists row. split; [by apply list_elem_of_In|].
  apply existsb_exists. exists v. split; [by apply list_elem_of_In|].
  by destruct (Z.eqb_spec v 0).
Qed.

(** The rows of one window scan, for any step. *)
Lemma scan_windows_elem (pic : matrix Z) (step patch_size i : Z) (rows : list patch_row)
    (row : patch_row) :
  scan_windows pic step patch_size i = Ok rows ->
  row ∈ rows <->
  0 < step
  ∧ (∃ k, row_x row = k * step ∧ 0 <= k ∧ row_x row < 1024 - 64)
  ∧ (∃ k, row_y row = k * step ∧ 0 <= k ∧ row_y row < 1024 - 64)
  ∧ row_pix2 row = i
  ∧ matrix_any (slice2 (row_x row) (row_x row + patch_size)
                       (row_y row) (row_y row + patch_size) pic) = true
  ∧ row_n_src row = count_nonzero (slice2 (row_x row) (row_x row + patch_size)
                                          (row_y row) (row_y row + patch_size) pic).
Proof.
  unfold scan_windows.
  destruct (py_range 0 (1024 - 64) step) as [xs|] eqn:E; [|done]. cbn.
  intros [= <-]. rewrite list_elem_of_bind. split.
  - intros (x & Hrow & Hx).
    apply list_elem_of_bind in Hrow as (y & Hrow & Hy).
    destruct (matrix_any _) eqn:Hany; [|by apply elem_of_nil in Hrow].
    apply list_elem_of_singleton in Hrow as ->. cbn.
    apply (py_range_elem _ _ _ _ E) in Hx as [Hs Hx]; [|lia].
    apply (py_range_elem _ _ _ _ E) in Hy as [_ Hy]; [|lia].
    by split_and!.
  - intros (Hs & Hx & Hy & Hi & Hany & Hn). exists (row_x row). split.
    + apply list_elem_of_bind. exists (row_y row). split.
      * rewrite Hany. apply list_elem_of_singleton. destruct row; cbn in *. congruence.
      * apply (py_range_elem _ _ _ _ E); [lia|done].
    + apply (py_range_elem _ _ _ _ E); [lia|done].
Qed.

Lemma scan_windows_NoDup (pic : matrix Z) (step patch_size i : Z) (rows : list patch_row) :
  scan_windows pic step patch_size i = Ok rows -> NoDup (row_key <$> rows).
Proof.
  unfold scan_windows.
  destruct (py_range 0 (1024 - 64) step) as [xs|] eqn:E; [|done]. cbn.
  intros [= <-]. pose proof (py_range_NoDup _ _ _ _ E) as Hnd.
  apply NoDup_fmap_2_strong.
  - intros a b Ha Hb Hab.
    apply list_elem_of_bind in Ha as (xa & Ha & _).
    apply list_elem_of_bind in Ha as (ya & Ha & _).
    apply list_elem_of_bind in Hb as (xb & Hb & _).
    apply list_elem_of_bind in Hb as (yb & Hb & _).
    destruct (matrix_any _) eqn:Hanya in Ha; [|by apply elem_of_nil in Ha].
    destruct (matrix_any _) eqn:Hanyb in Hb; [|by apply elem_of_nil in Hb].
    apply list_elem_of_singleton in Ha as ->. apply list_elem_of_singleton in Hb as ->.
    unfold row_key in Hab. cbn in Hab. by injection Hab as -> ->.
  - apply NoDup_bind; [| |done].
    + intros x1 x2 row _ _ H1 H2.
      apply list_elem_of_bind in H1 as (y1 & H1 & _).
      apply list_elem_of_bind in H2 as (y2 & H2 & _).
      destruct (matrix_any _) in H1; [|by apply elem_of_nil in H1].
      destruct (matrix_any _) in H2; [|by apply elem_of_nil in H2].
      apply list_elem_of_singleton in H1. apply list_elem_of_singleton in H2.
      rewrite H1 in H2. by injection H2.
    + intros x _. apply NoDup_bind; [| |done].
      * intros y1 y2 row _ _ H1 H2.
        destruct (matrix_any _) in H1; [|by apply elem_of_nil in H1].
        destruct (matrix_any _) in H2; [|by apply elem_of_nil in H2].
        apply list_elem_of_singleton in H1. apply list_elem_of_singleton in H2.
        rewrite H1 in H2. by injection H2.
      * intros y _. destruct (matrix_any _); [apply NoDup_singleton|apply NoDup_nil_2].
Qed.

Lemma subsample_elem (n : Z) (all_idx rows : list patch_row) :
  subsample n all_idx = Ok rows ->
  (rows `sublist_of` all_idx ∨ rows `sublist_of` reverse all_idx).
Proof.
  unfold subsample. destruct (_ >? _); [|intros [= <-]; by left].
  destruct (n =? 0); [done|]. cbv zeta. destruct (_ =? 0); [done|].
  intros [= <-]. unfold py_stride, every_nth.
  destruct (0 <? _); [left|right]; apply every_nth_from_sublist.
Qed.

Lemma NoDup_fmap_concat {A B} (f : A -> B) (lss : list (list A)) :
  (∀ k ls, lss !! k = Some ls -> NoDup (f <$> ls)) ->
  (∀ k1 k2 l1 l2 a b, lss !! k1 = Some l1 -> lss !! k2 = Some l2 ->
                      a ∈ l1 -> b ∈ l2 -> f a = f b -> k1 = k2) ->
  NoDup (f <$> concat lss).
Proof.
  induction lss as [|ls lss IH]; intros Hnd Hdis; [apply NoDup_nil_2|].
  cbn. rewrite fmap_app. apply NoDup_app. split_and!.
  - exact (Hnd 0%nat ls eq_refl).
  - intros y (a & -> & Ha)%list_elem_of_fmap (b & Hab & Hb)%list_elem_of_fmap.
    apply elem_of_concat in Hb as (l2 & [k Hk]%list_elem_of_lookup & Hb).
    by specialize (Hdis 0%nat (S k) ls l2 a b eq_refl Hk Ha Hb Hab).
  - apply IH.
    + intros k l Hk. exact (Hnd (S k) l Hk).
    + intros k1 k2 l1 l2 a b H1 H2 Ha Hb Hab.
      by specialize (Hdis (S k1) (S k2) l1 l2 a b H1 H2 Ha Hb Hab) as [= ->].
Qed.

Section TableFacts.
Context {angle vec : Type} `{!Pixelizer angle vec}.
Variable cats2dict : string -> gmap string (list (source angle)).

Lemma generate_patch_coords_unfold (cats_path : string) (step o_nside nside : Z)
    (radius : angle) (patch_size : Z) (cats_subset : option (list string)) :
  generate_patch_coords cats2dict cats_path step o_nside nside radius patch_size None
                        cats_subset
  = (df ← catalogue_rows cats2dict cats_path cats_subset;
     rss ← traverse (pixel_rows df step o_nside nside patch_size)
                    (Z.of_nat <$> seq 0 (Z.to_nat (nside2npix 2)));
     Ok (concat rss)).
Proof.
  unfold generate_patch_coords.
  destruct (catalogue_rows cats2dict cats_path cats_subset) as [df|e]; [|done].
  rewrite !bind_Ok.
  rewrite (for_each_ext _ (fun acc i =>
     rows ← pixel_rows df step o_nside nside patch_size i; Ok (acc ++ rows))).
  - rewrite for_each_append.
    by destruct (traverse _ _).
  - intros s i _. unfold pixel_rows.
    destruct (one_pixel_fragmentation o_nside i nside); [|done]. cbn.
    by destruct (draw_dots _ _ _ _).
Qed.

(** The rows of the table before the down-sampling, whatever the
    arguments: the turn of every coarse pixel from 0 to 47 returns, and a
    row is in the table exactly when it is a row of the turn of its coarse
    pixel. *)
Lemma generate_patch_coords_rows (cats_path : string) (step o_nside nside : Z)
    (radius : angle) (patch_size : Z) (cats_subset : option (list string))
    (rows : list patch_row) :
  generate_patch_coords cats2dict cats_path step o_nside nside radius patch_size None
                        cats_subset = Ok rows ->
  ∃ df, catalogue_rows cats2dict cats_path cats_subset = Ok df
    ∧ (∀ i, 0 <= i < 48 ->
         ∃ rs, pixel_rows df step o_nside nside patch_size i = Ok rs
               ∧ ∀ row, row_pix2 row = i -> (row ∈ rows <-> row ∈ rs))
    ∧ (∀ row, row ∈ rows -> 0 <= row_pix2 row < 48)
    ∧ NoDup (row_key <$> rows).
Proof.
  rewrite generate_patch_coords_unfold.
  destruct (catalogue_rows cats2dict cats_path cats_subset) as [df|e]; [|done].
  rewrite bind_Ok.
  destruct (traverse _ _) as [rss|] eqn:Et; [|done]. cbn. intros [= <-].
  exists df. split; [done|].
  assert (Hpix : ∀ k rs row, rss !! k = Some rs -> row ∈ rs -> row_pix2 row = Z.of_nat k
                            ∧ (k < 48)%nat).
  { intros k rs row Hk Hrow.
    pose proof (traverse_length _ _ _ Et) as Hlen.
    rewrite length_fmap, length_seq in Hlen.
    pose proof (lookup_lt_Some _ _ _ Hk) as Hlt. rewrite Hlen in Hlt.
    assert (Hi : (Z.of_nat <$> seq 0 (Z.to_nat (nside2npix 2))) !! k = Some (Z.of_nat k)).
    { rewrite list_lookup_fmap, lookup_seq_lt by done. done. }
    destruct (traverse_lookup _ _ _ _ _ Et Hi) as (rs' & Hrs' & Hp).
    assert (rs' = rs) as -> by congruence.
    unfold pixel_rows in Hp.
    destruct (one_pixel_fragmentation _ _ _); [|done]. cbn in Hp.
    destruct (draw_dots _ _ _ _) as [pic|]; [|done]. cbn in Hp.
    apply (scan_windows_elem _ _ _ _ _ row Hp) in Hrow.
    split; [tauto|]. change (Z.to_nat (nside2npix 2)) with 48%nat in Hlt. lia. }
  split_and!.
  - intros i Hi.
    assert (Hk : (Z.of_nat <$> seq 0 (Z.to_nat (nside2npix 2))) !! Z.to_nat i = Some i).
    { rewrite list_lookup_fmap, lookup_seq_lt
        by (change (Z.to_nat (nside2npix 2)) with 48%nat; lia).
      cbn. f_equal. lia. }
    destruct (traverse_lookup _ _ _ _ _ Et Hk) as (rs & Hrs & Hp).
    exists rs. split; [done|]. intros row Hrow. rewrite elem_of_concat. split.
    + intros (rs' & [k Hk']%list_elem_of_lookup & Hin).
      destruct (Hpix _ _ _ Hk' Hin) as [Hpk _].
      assert (k = Z.to_nat i) as -> by lia. congruence.
    + intros Hin. exists rs. split; [|done]. by eapply list_elem_of_lookup_2.
  - intros row (rs & [k Hk]%list_elem_of_lookup & Hin)%elem_of_concat.
    destruct (Hpix _ _ _ Hk Hin). lia.
  - apply NoDup_fmap_concat.
    + intros k rs Hk.
      pose proof (traverse_length _ _ _ Et) as Hlen.
      pose proof (lookup_lt_Some _ _ _ Hk) as Hlt. rewrite Hlen in Hlt.
      destruct (lookup_lt_is_Some_2 _ _ Hlt) as [i Hi].
      destruct (traverse_lookup _ _ _ _ _ Et Hi) as (rs' & Hrs' & Hp).
      assert (rs' = rs) as -> by congruence.
      unfold pixel_rows in Hp.
      destruct (one_pixel_fragmentation _ _ _); [|done]. cbn in Hp.
      destruct (draw_dots _ _ _ _) as [pic|]; [|done]. cbn in Hp.
      by eapply scan_windows_NoDup.
    + intros k1 k2 l1 l2 a b H1 H2 Ha Hb Hab.
      destruct (Hpix _ _ _ H1 Ha) as [Hpa _]. destruct (Hpix _ _ _ H2 Hb) as [Hpb _].
      unfold row_key in Hab. injection Hab as Hp _ _. lia.
Qed.

(** X14: every row of the table of [generate_patch_coords], down-sampled
    or not, is a window that holds an object: its count is at least 1,
    its coarse pixel is one of the 48 of nside 2 and its offsets are in
    [0, 960). *)
Theorem patches_hold_an_object (cats_path : string) (step o_nside nside : Z)
    (radius : angle) (patch_size : Z) (n_patches : option Z)
    (cats_subset : option (list string)) (rows : list patch_row) :
  generate_patch_coords cats2dict cats_path step o_nside nside radius patch_size n_patches
                        cats_subset = Ok rows ->
  Forall (fun row => 1 <= row_n_src row ∧ 0 <= row_pix2 row < 48
                     ∧ 0 <= row_x row < 960 ∧ 0 <= row_y row < 960) rows.
Proof.
  assert (Hnone : ∀ step rows,
    generate_patch_coords cats2dict cats_path step o_nside nside radius patch_size None
                          cats_subset = Ok rows ->
    Forall (fun row => 1 <= row_n_src row ∧ 0 <= row_pix2 row < 48
                       ∧ 0 <= row_x row < 960 ∧ 0 <= row_y row < 960) rows).
  { clear step rows. intros step rows Hgen. apply Forall_forall. intros row Hrow.
    destruct (generate_patch_coords_rows _ _ _ _ _ _ _ _ Hgen) as (df & _ & Hturn & Hpix & _).
    specialize (Hpix row Hrow).
    destruct (Hturn (row_pix2 row) Hpix) as (rs & Hrs & Hin).
    apply (Hin row eq_refl) in Hrow. unfold pixel_rows in Hrs.
    destruct (one_pixel_fragmentation _ _ _); [|done]. cbn in Hrs.
    destruct (draw_dots _ _ _ _) as [pic|]; [|done]. cbn in Hrs.
    apply (scan_windows_elem _ _ _ _ _ row Hrs) in Hrow
      as (Hs & (kx & Hx & ? & ?) & (ky & Hy & ? & ?) & _ & Hany & Hn).
    rewrite Hn. split; [by apply count_nonzero_any|]. split; [done|]. nia. }
  destruct n_patches as [n|]; [|apply Hnone].
  rewrite generate_patch_coords_target.
  destruct (generate_patch_coords _ _ 1 _ _ _ _ None _) as [all_idx|] eqn:E; [|done].
  rewrite bind_Ok. intros Hsub. specialize (Hnone _ _ E).
  rewrite Forall_forall in Hnone. apply Forall_forall. intros row Hrow. apply Hnone.
  destruct (subsample_elem _ _ _ Hsub) as [Hs|Hs].
  - by eapply elem_of_sublist.
  - apply elem_of_reverse. by eapply elem_of_sublist.
Qed.

(** X15: no window is listed twice in the table of
    [generate_patch_coords]: the triples of coarse pixel and offsets of
    its rows are distinct. *)
Theorem patches_are_listed_once (cats_path : string) (step o_nside nside : Z)
    (radius : angle) (patch_size : Z) (n_patches : option Z)
    (cats_subset : option (list string)) (rows : list patch_row) :
  generate_patch_coords cats2dict cats_path step o_nside nside radius patch_size n_patches
                        cats_subset = Ok rows ->
  NoDup (row_key <$> rows).
Proof.
  destruct n_patches as [n|].
  - rewrite generate_patch_coords_target.
    destruct (generate_patch_coords _ _ 1 _ _ _ _ None _) as [all_idx|] eqn:E; [|done].
    rewrite bind_Ok. intros Hsub.
    destruct (generate_patch_coords_rows _ _ _ _ _ _ _ _ E) as (_ & _ & _ & _ & Hnd).
    destruct (subsample_elem _ _ _ Hsub) as [Hs|Hs].
    + eapply sublist_NoDup; [exact Hnd|]. by apply fmap_sublist.
    + eapply sublist_NoDup; [|apply fmap_sublist, Hs].
      by rewrite fmap_reverse, reverse_Permutation.
  - intros Hgen.
    by destruct (generate_patch_coords_rows _ _ _ _ _ _ _ _ Hgen) as (_ & _ & _ & _ & Hnd).
Qed.

(** X16: without a target count, a step that is not positive gives no
    patch: [generate_patch_coords] never returns with step 0, and with a
    negative step the table it returns is empty. *)
Theorem no_patch_without_a_positive_step (cats_path : string) (step o_nside nside : Z)
    (radius : angle) (patch_size : Z) (cats_subset : option (list string))
    (rows : list patch_row) :
  step <= 0 ->
  generate_patch_coords cats2dict cats_path step o_nside nside radius patch_size None
                        cats_subset = Ok rows ->
  step < 0 ∧ rows = [].
Proof.
  intros Hstep Hgen.
  destruct (generate_patch_coords_rows _ _ _ _ _ _ _ _ Hgen) as (df & _ & Hturn & Hpix & _).
  split.
  - destruct (Hturn 0 ltac:(lia)) as (rs & Hrs & _). unfold pixel_rows in Hrs.
    destruct (one_pixel_fragmentation _ _ _); [|done]. cbn in Hrs.
    destruct (draw_dots _ _ _ _) as [pic|]; [|done]. cbn in Hrs.
    unfold scan_windows, py_range in Hrs. destruct (Z.eqb_spec step 0); [done|lia].
  - destruct rows as [|row rows]; [done|]. exfalso.
    assert (Hrow : row ∈ row :: rows) by apply list_elem_of_here.
    specialize (Hpix row Hrow).
    destruct (Hturn (row_pix2 row) Hpix) as (rs & Hrs & Hin).
    apply (Hin row eq_refl) in Hrow. unfold pixel_rows in Hrs.
    destruct (one_pixel_fragmentation _ _ _); [|done]. cbn in Hrs.
    destruct (draw_dots _ _ _ _) as [pic|]; [|done]. cbn in Hrs.
    apply (scan_windows_elem _ _ _ _ _ row Hrs) in Hrow as (Hs & _). lia.
Qed.

(** X17: without a target count and with a positive step, the table lists
    exactly the windows that hold an object: a row is in the table when,
    and only when, its coarse pixel is one of the 48 of nside 2, its
    offsets are multiples of the step below 960, the window of the image
    of its coarse pixel at these offsets has a cell that is not zero, and
    its count is the number of such cells. *)
Theorem the_table_lists_the_windows_with_an_object (cats_path : string)
    (step o_nside nside : Z) (radius : angle) (patch_size : Z)
    (cats_subset : option (list string)) (rows : list patch_row) :
  0 < step ->
  generate_patch_coords cats2dict cats_path step o_nside nside radius patch_size None
                        cats_subset = Ok rows ->
  ∃ df, catalogue_rows cats2dict cats_path cats_subset = Ok df
    ∧ ∀ row, row ∈ rows <->
        0 <= row_pix2 row < 48
        ∧ (∃ k, row_x row = k * step ∧ 0 <= k ∧ row_x row < 960)
        ∧ (∃ k, row_y row = k * step ∧ 0 <= k ∧ row_y row < 960)
        ∧ ∃ pix_matr pic,
            one_pixel_fragmentation o_nside (row_pix2 row) nside = Ok pix_matr
            ∧ draw_dots (src_RA <$> df) (src_DEC <$> df) nside pix_matr = Ok pic
            ∧ matrix_any (slice2 (row_x row) (row_x row + patch_size)
                                 (row_y row) (row_y row + patch_size) pic) = true
            ∧ row_n_src row = count_nonzero (slice2 (row_x row) (row_x row + patch_size)
                                                    (row_y row) (row_y row + patch_size) pic).
Proof.
  intros Hstep Hgen.
  destruct (generate_patch_coords_rows _ _ _ _ _ _ _ _ Hgen) as (df & Hdf & Hturn & Hpix & _).
  exists df. split; [done|]. intros row. split.
  - intros Hrow. specialize (Hpix row Hrow). split; [done|].
    destruct (Hturn (row_pix2 row) Hpix) as (rs & Hrs & Hin).
    apply (Hin row eq_refl) in Hrow. unfold pixel_rows in Hrs.
    destruct (one_pixel_fragmentation _ _ _) as [pix_matr|] eqn:Hm; [|done]. cbn in Hrs.
    destruct (draw_dots _ _ _ _) as [pic|] eqn:Hp; [|done]. cbn in Hrs.
    apply (scan_windows_elem _ _ _ _ _ row Hrs) in Hrow
      as (_ & Hx & Hy & _ & Hany & Hn).
    change (1024 - 64) with 960 in Hx, Hy.
    split; [done|]. split; [done|]. exists pix_matr, pic. by split_and!.
  - intros (Hpix2 & Hx & Hy & pix_matr & pic & Hm & Hp & Hany & Hn).
    destruct (Hturn (row_pix2 row) Hpix2) as (rs & Hrs & Hin).
    apply (Hin row eq_refl). unfold pixel_rows in Hrs. rewrite Hm in Hrs. cbn in Hrs.
    rewrite Hp in Hrs. cbn in Hrs.
    apply (scan_windows_elem _ _ _ _ _ row Hrs). change (1024 - 64) with 960.
    by split_and!.
Qed.
End TableFacts.

Lemma patches_hold_an_object_witness :
  Forall (fun row => 1 <= row_n_src row ∧ 0 <= row_pix2 row < 48
                     ∧ 0 <= row_x row < 960 ∧ 0 <= row_y row < 960) [PatchRow 0 0 7 1].
Proof.
  apply (patches_hold_an_object (one_catalogue [7]) "cats" 64 2 2 0 64 None None).
  vm_compute. reflexivity.
Defined.

Lemma patches_are_listed_once_witness :
  NoDup (row_key <$> [PatchRow 0 0 0 1; PatchRow 0 0 1 1; PatchRow 0 0 2 1]).
Proof.
  apply (patches_are_listed_once (one_catalogue [0; 1; 2]) "cats" 64 2 2 0 64 None None).
  vm_compute. reflexivity.
Defined.

Lemma no_patch_without_a_positive_step_witness : -64 < 0 ∧ @nil patch_row = [].
Proof.
  apply (no_patch_without_a_positive_step (one_catalogue [7]) "cats" (-64) 2 2 0 64 None);
    [lia|vm_compute; reflexivity].
Defined.

Lemma the_table_lists_the_windows_with_an_object_witness :
  ∃ df, catalogue_rows (one_catalogue [7]) "cats" None = Ok df
    ∧ ∀ row, row ∈ [PatchRow 0 0 7 1] <->
        0 <= row_pix2 row < 48
        ∧ (∃ k, row_x row = k * 64 ∧ 0 <= k ∧ row_x row < 960)
        ∧ (∃ k, row_y row = k * 64 ∧ 0 <= k ∧ row_y row < 960)
        ∧ ∃ pix_matr pic,
            one_pixel_fragmentation 2 (row_pix2 row) 2 = Ok pix_matr
            ∧ draw_dots (src_RA <$> df) (src_DEC <$> df) 2 pix_matr = Ok pic
            ∧ matrix_any (slice2 (row_x row) (row_x row + 64)
                                 (row_y row) (row_y row + 64) pic) = true
            ∧ row_n_src row = count_nonzero (slice2 (row_x row) (row_x row + 64)
                                                    (row_y row) (row_y row + 64) pic).
Proof.
  apply (the_table_lists_the_windows_with_an_object (one_catalogue [7]) "cats" 64 2 2 0 64
           None); [lia|vm_compute; reflexivity].
Defined.

(** ** The update of an old patch table *)

Lemma for_each_indexed {A St} (I : nat -> St -> Prop) (body : St -> A -> result St)
    (xs : list A) :
  ∀ (k0 : nat) (acc r : St),
    (∀ k s x s', xs !! k = Some x -> I (k0 + k)%nat s -> body s x = Ok s' ->
                 I (S (k0 + k)) s') ->
    I k0 acc -> for_each body xs acc = Ok r -> I (k0 + length xs)%nat r.
Proof.
  induction xs as [|x xs IH]; intros k0 acc r Hstep Hacc; cbn.
  - intros [= <-]. by rewrite Nat.add_0_r.
  - destruct (body acc x) as [s'|] eqn:E; [|done]. cbn. intros Hr.
    replace (k0 + S (length xs))%nat with (S k0 + length xs)%nat by lia.
    apply (IH (S k0) s' r); [| |done].
    + intros k s y s'' Hk HI Hb.
      replace (S k0 + k)%nat with (k0 + S k)%nat in * by lia.
      by apply (Hstep (S k) s y s'').
    + specialize (Hstep 0%nat acc x s' eq_refl).
      rewrite Nat.add_0_r in Hstep. by apply Hstep.
Qed.

Lemma for_each_indexed_total {A St} (I : nat -> St -> Prop) (body : St -> A -> result St)
    (xs : list A) :
  ∀ (k0 : nat) (acc : St),
    (∀ k s x, xs !! k = Some x -> I (k0 + k)%nat s ->
              ∃ s', body s x = Ok s' ∧ I (S (k0 + k)) s') ->
    I k0 acc -> ∃ r, for_each body xs acc = Ok r ∧ I (k0 + length xs)%nat r.
Proof.
  induction xs as [|x xs IH]; intros k0 acc Hstep Hacc; cbn.
  - exists acc. by rewrite Nat.add_0_r.
  - destruct (Hstep 0%nat acc x eq_refl) as (s' & -> & Hs'); [by rewrite Nat.add_0_r|].
    cbn. rewrite Nat.add_0_r in Hs'.
    replace (k0 + S (length xs))%nat with (S k0 + length xs)%nat by lia.
    apply (IH (S k0) s'); [|done].
    intros k s y Hk HI.
    replace (S k0 + k)%nat with (k0 + S k)%nat in * by lia.
    by apply (Hstep (S k) s y).
Qed.

(** The counts of the selected rows, as the loop collects them. *)
Lemma omap_all_Some {A B} (f : A -> option B) (l : list A) :
  length (omap f l) = length l -> Forall (fun x => is_Some (f x)) l.
Proof.
  induction l as [|x l IH]; cbn; [by constructor|].
  destruct (f x) as [y|] eqn:E; cbn.
  - intros [= Hl]. constructor; [by rewrite E|by apply IH].
  - intros Hl. assert (length (omap f l) <= length l)%nat; [|lia].
    clear. induction l as [|y l IH]; cbn; [lia|]. destruct (f y); cbn; lia.
Qed.

Lemma loc_assign_all (i : Z) (f : csv_row -> option Z) (t : list csv_row) :
  Forall (fun row => csv_pix2 row = i -> is_Some (f row)) t ->
  length (omap f (filter (fun row => csv_pix2 row = i) t))
  = length (filter (fun row => csv_pix2 row = i) t)
  ∧ loc_assign i t (omap f (filter (fun row => csv_pix2 row = i) t))
    = (fun row => if bool_decide (csv_pix2 row = i)
                  then CsvRow (csv_x row) (csv_y row) (csv_pix2 row) (f row)
                  else row) <$> t.
Proof.
  induction 1 as [|row t Hrow _ [IHl IH]]; [done|].
  cbn [fmap list_fmap loc_assign]. rewrite filter_cons.
  destruct (decide (csv_pix2 row = i)) as [Hi|Hi].
  - rewrite (bool_decide_eq_true_2 _ Hi). destruct (Hrow Hi) as [n Hn].
    cbn. rewrite Hn. cbn. split; [by rewrite IHl|]. by rewrite IH.
  - rewrite (bool_decide_eq_false_2 _ Hi). split; [done|]. by rewrite IH.
Qed.

Section DatasetFacts.
Context {angle vec : Type} `{!Pixelizer angle vec}.

(** A turn of the loop returns exactly when the matrix and the image of
    its coarse pixel are made and every row of the coarse pixel has an
    object in its window; these rows then get their counts. *)
Lemma update_pixel_Ok (df : list (source angle)) (patch_size o_nside nside : Z)
    (t t' : list csv_row) (i : Z) :
  update_pixel df patch_size o_nside nside t i = Ok t' <->
  ∃ pix_matr pic,
    one_pixel_fragmentation o_nside i nside = Ok pix_matr
    ∧ draw_dots (src_RA <$> df) (src_DEC <$> df) nside pix_matr = Ok pic
    ∧ Forall (fun row => csv_pix2 row = i ->
        matrix_any (slice2 (csv_x row) (csv_x row + patch_size)
                           (csv_y row) (csv_y row + patch_size) pic) = true) t
    ∧ t' = (fun row =>
        if bool_decide (csv_pix2 row = i)
        then CsvRow (csv_x row) (csv_y row) (csv_pix2 row)
               (Some (count_nonzero (slice2 (csv_x row) (csv_x row + patch_size)
                                            (csv_y row) (csv_y row + patch_size) pic)))
        else row) <$> t.
Proof.
  unfold update_pixel.
  destruct (one_pixel_fragmentation o_nside i nside) as [pix_matr|e] eqn:Hm.
  2: { split; [done|]. by intros (? & ? & [=] & _). }
  rewrite bind_Ok.
  destruct (draw_dots (src_RA <$> df) (src_DEC <$> df) nside pix_matr) as [pic|e] eqn:Hp.
  2: { split; [done|]. intros (? & ? & [= <-] & Hp' & _). congruence. }
  rewrite bind_Ok. cbv zeta.
  set (f := fun row : csv_row =>
    if matrix_any (slice2 (csv_x row) (csv_x row + patch_size)
                          (csv_y row) (csv_y row + patch_size) pic)
    then Some (count_nonzero (slice2 (csv_x row) (csv_x row + patch_size)
                                     (csv_y row) (csv_y row + patch_size) pic))
    else None).
  assert (Hf : ∀ row, is_Some (f row) <->
             matrix_any (slice2 (csv_x row) (csv_x row + patch_size)
                                (csv_y row) (csv_y row + patch_size) pic) = true).
  { intros row. unfold f. destruct (matrix_any _); split; try done.
    all: try by intros [? [=]]. }
  assert (Hmap : ∀ t0 : list csv_row,
    Forall (fun row => csv_pix2 row = i -> is_Some (f row)) t0 ->
    (fun row => if bool_decide (csv_pix2 row = i)
                then CsvRow (csv_x row) (csv_y row) (csv_pix2 row) (f row) else row) <$> t0
    = (fun row =>
        if bool_decide (csv_pix2 row = i)
        then CsvRow (csv_x row) (csv_y row) (csv_pix2 row)
               (Some (count_nonzero (slice2 (csv_x row) (csv_x row + patch_size)
                                            (csv_y row) (csv_y row + patch_size) pic)))
        else row) <$> t0).
  { intros t0 H0. apply list_fmap_ext. intros k row Hk.
    rewrite Forall_forall in H0.
    destruct (decide (csv_pix2 row = i)) as [Hi|Hi].
    - rewrite (bool_decide_eq_true_2 _ Hi).
      assert (Hs := H0 row (list_elem_of_lookup_2 _ _ _ Hk) Hi).
      apply Hf in Hs. unfold f. by rewrite Hs.
    - by rewrite (bool_decide_eq_false_2 _ Hi). }
  unfold loc_set. split.
  - destruct (Nat.eqb_spec (length (filter (fun row => csv_pix2 row = i) t))
                           (length (omap f (filter (fun row => csv_pix2 row = i) t))))
      as [Hlen|Hlen]; [|done].
    intros [= <-]. exists pix_matr, pic. split; [done|]. split; [done|].
    symmetry in Hlen. apply omap_all_Some in Hlen.
    assert (Hall : Forall (fun row => csv_pix2 row = i -> is_Some (f row)) t).
    { apply Forall_forall. intros row Hrow Hi. rewrite Forall_forall in Hlen.
      apply Hlen. by apply list_elem_of_filter. }
    split.
    + eapply Forall_impl; [exact Hall|]. intros row Hrow Hi. by apply Hf, Hrow.
    + destruct (loc_assign_all i f t Hall) as [_ ->]. by apply Hmap.
  - intros (pm & pc & [= <-] & Hp' & Hany & ->).
    assert (pc = pic) as -> by congruence.
    assert (Hall : Forall (fun row => csv_pix2 row = i -> is_Some (f row)) t).
    { eapply Forall_impl; [exact Hany|]. intros row Hrow Hi. by apply Hf, Hrow. }
    destruct (loc_assign_all i f t Hall) as [-> ->].
    rewrite Nat.eqb_refl. f_equal. by apply Hmap.
Qed.
End DatasetFacts.

Section UpdateFacts.
Context {angle vec : Type} `{!Pixelizer angle vec}.
Variable cats2dict : string -> gmap string (list (source angle)).
Variable read_csv : string -> list csv_row.

(** What the table of the generator says of its rows, down-sampled or
    not: the turns of the 48 coarse pixels return, and each row is a
    window with an object of the image of its coarse pixel. *)
Lemma generate_patch_coords_sound (cats_path : string) (step o_nside nside : Z)
    (radius : angle) (patch_size : Z) (n_patches : option Z)
    (cats_subset : option (list string)) (rows : list patch_row) :
  generate_patch_coords cats2dict cats_path step o_nside nside radius patch_size n_patches
                        cats_subset = Ok rows ->
  ∃ df, catalogue_rows cats2dict cats_path cats_subset = Ok df
    ∧ (∀ i, 0 <= i < 48 ->
         ∃ pix_matr pic, one_pixel_fragmentation o_nside i nside = Ok pix_matr
           ∧ draw_dots (src_RA <$> df) (src_DEC <$> df) nside pix_matr = Ok pic)
    ∧ ∀ row, row ∈ rows ->
        0 <= row_pix2 row < 48
        ∧ ∃ pix_matr pic,
            one_pixel_fragmentation o_nside (row_pix2 row) nside = Ok pix_matr
            ∧ draw_dots (src_RA <$> df) (src_DEC <$> df) nside pix_matr = Ok pic
            ∧ matrix_any (slice2 (row_x row) (row_x row + patch_size)
                                 (row_y row) (row_y row + patch_size) pic) = true
            ∧ row_n_src row = count_nonzero (slice2 (row_x row) (row_x row + patch_size)
                                                    (row_y row) (row_y row + patch_size) pic).
Proof.
  assert (Hnone : ∀ step rows,
    generate_patch_coords cats2dict cats_path step o_nside nside radius patch_size None
                          cats_subset = Ok rows ->
    ∃ df, catalogue_rows cats2dict cats_path cats_subset = Ok df
    ∧ (∀ i, 0 <= i < 48 ->
         ∃ pix_matr pic, one_pixel_fragmentation o_nside i nside = Ok pix_matr
           ∧ draw_dots (src_RA <$> df) (src_DEC <$> df) nside pix_matr = Ok pic)
    ∧ ∀ row, row ∈ rows ->
        0 <= row_pix2 row < 48
        ∧ ∃ pix_matr pic,
            one_pixel_fragmentation o_nside (row_pix2 row) nside = Ok pix_matr
            ∧ draw_dots (src_RA <$> df) (src_DEC <$> df) nside pix_matr = Ok pic
            ∧ matrix_any (slice2 (row_x row) (row_x row + patch_size)
                                 (row_y row) (row_y row + patch_size) pic) = true
            ∧ row_n_src row = count_nonzero (slice2 (row_x row) (row_x row + patch_size)
                                                    (row_y row) (row_y row + patch_size) pic)).
  { clear step rows. intros step rows Hgen.
    destruct (generate_patch_coords_rows _ _ _ _ _ _ _ _ _ Hgen)
      as (df & Hdf & Hturn & Hpix & _).
    exists df. split; [done|]. split.
    - intros i Hi. destruct (Hturn i Hi) as (rs & Hrs & _). unfold pixel_rows in Hrs.
      destruct (one_pixel_fragmentation _ _ _) as [pix_matr|] eqn:Hm; [|done].
      rewrite bind_Ok in Hrs.
      destruct (draw_dots _ _ _ _) as [pic|] eqn:Hp; [|done]. by exists pix_matr, pic.
    - intros row Hrow. specialize (Hpix row Hrow). split; [done|].
      destruct (Hturn (row_pix2 row) Hpix) as (rs & Hrs & Hin).
      apply (Hin row eq_refl) in Hrow. unfold pixel_rows in Hrs.
      destruct (one_pixel_fragmentation _ _ _) as [pix_matr|] eqn:Hm; [|done].
      rewrite bind_Ok in Hrs.
      destruct (draw_dots _ _ _ _) as [pic|] eqn:Hp; [|done]. rewrite bind_Ok in Hrs.
      apply (scan_windows_elem _ _ _ _ _ row Hrs) in Hrow as (_ & _ & _ & _ & Hany & Hn).
      exists pix_matr, pic. by split_and!. }
  destruct n_patches as [n|]; [|apply Hnone].
  rewrite generate_patch_coords_target.
  destruct (generate_patch_coords _ _ 1 _ _ _ _ None _) as [all_idx|] eqn:E; [|done].
  rewrite bind_Ok. intros Hsub.
  destruct (Hnone _ _ E) as (df & Hdf & Hall & Hrows).
  exists df. split; [done|]. split; [done|]. intros row Hrow. apply Hrows.
  destruct (subsample_elem _ _ _ Hsub) as [Hs|Hs].
  - by eapply elem_of_sublist.
  - apply elem_of_reverse. by eapply elem_of_sublist.
Qed.

Lemma update_pixel_step (df : list (source angle)) (patch_size o_nside nside : Z)
    (orig t t' : list csv_row) (k : nat) :
  Forall2 (updated_below df patch_size o_nside nside k) orig t ->
  update_pixel df patch_size o_nside nside t (Z.of_nat k) = Ok t' ->
  Forall2 (updated_below df patch_size o_nside nside (S k)) orig t'.
Proof.
  intros HI Hb. apply update_pixel_Ok in Hb as (pix_matr & pic & Hm & Hp & Hany & ->).
  apply Forall2_fmap_r. rewrite Forall_forall in Hany.
  apply Forall2_same_length_lookup. apply Forall2_same_length_lookup in HI as [Hlen HI].
  split; [done|]. intros j old new Hold Hnew.
  destruct (HI j old new Hold Hnew) as (Hx & Hy & Hp2 & Hin & Hout).
  specialize (Hany new (list_elem_of_lookup_2 _ _ _ Hnew)).
  unfold compose. cbv beta.
  destruct (decide (csv_pix2 new = Z.of_nat k)) as [Hk|Hk].
  - rewrite (bool_decide_eq_true_2 _ Hk). specialize (Hany Hk).
    unfold updated_below. cbn. rewrite Hx, Hy in *. split_and!; try done.
    + intros _. exists pix_matr, pic. rewrite <- Hp2, Hk. by split_and!.
    + intros Hno. lia.
  - rewrite (bool_decide_eq_false_2 _ Hk).
    unfold updated_below. split_and!; try done.
    + intros Hlt. apply Hin. lia.
    + intros Hno. apply Hout. lia.
Qed.

Lemma pixels_lookup (k : nat) (i : Z) :
  (Z.of_nat <$> seq 0 (Z.to_nat (nside2npix 2))) !! k = Some i -> i = Z.of_nat k.
Proof.
  rewrite list_lookup_fmap. intros H.
  destruct (seq 0 _ !! k) as [j|] eqn:E; [|done]. cbn in H. injection H as <-.
  apply lookup_seq in E as [-> _]. done.
Qed.

(** X18: when [update_old_dataset] returns, the table it writes to
    [pc.csv] has the rows of the file in their order, each row of a
    coarse pixel from 0 to 47 with the number of cells that are not zero
    in its window of the image of that pixel, and this window holds an
    object; the rows of other coarse pixels have no count. So the
    function does not return when a row of such a pixel has no object in
    its window. *)
Theorem update_sets_the_counts (path : string) (cats_subset : option (list string))
    (patch_size o_nside nside : Z) (file : string) (table : list csv_row) :
  update_old_dataset cats2dict read_csv path cats_subset patch_size o_nside nside
    = Ok (file, table) ->
  file = path_join path "pc.csv"
  ∧ ∃ df, catalogue_rows cats2dict (path_join path "cats") cats_subset = Ok df
    ∧ Forall2 (fun old new =>
        csv_x new = csv_x old ∧ csv_y new = csv_y old ∧ csv_pix2 new = csv_pix2 old
        ∧ (0 <= csv_pix2 old < 48 ->
             ∃ pix_matr pic,
               one_pixel_fragmentation o_nside (csv_pix2 old) nside = Ok pix_matr
               ∧ draw_dots (src_RA <$> df) (src_DEC <$> df) nside pix_matr = Ok pic
               ∧ matrix_any (slice2 (csv_x old) (csv_x old + patch_size)
                                    (csv_y old) (csv_y old + patch_size) pic) = true
               ∧ csv_n_src new
                 = Some (count_nonzero (slice2 (csv_x old) (csv_x old + patch_size)
                                               (csv_y old) (csv_y old + patch_size) pic)))
        ∧ (¬ (0 <= csv_pix2 old < 48) -> csv_n_src new = None))
        (read_csv (path_join path "pc.csv")) table.
Proof.
  unfold update_old_dataset.
  destruct (catalogue_rows cats2dict (path_join path "cats") cats_subset) as [df|] eqn:Hdf;
    [|done].
  rewrite bind_Ok. cbv zeta.
  destruct (for_each _ _ _) as [t|] eqn:Hfor; [|done]. rewrite bind_Ok.
  intros [= <- <-]. split; [done|]. exists df. split; [done|].
  apply (for_each_indexed
           (fun k t => Forall2 (updated_below df patch_size o_nside nside k)
                               (read_csv (path_join path "pc.csv")) t)) with (k0 := 0%nat)
    in Hfor.
  - rewrite length_fmap, length_seq in Hfor. exact Hfor.
  - intros k s x s' Hk HI Hb. apply pixels_lookup in Hk as ->. cbn in *.
    by eapply update_pixel_step.
  - apply Forall2_fmap_r, Forall_Forall2_diag, Forall_forall.
    intros row _. unfold updated_below. cbn. split_and!; try done. lia.
Qed.

(** X19: the round trip with the generator. When [pc.csv] holds the
    windows of a table that [generate_patch_coords] has returned for the
    same catalogues, resolutions and patch size, [update_old_dataset]
    returns, and the counts it writes are those of the generator. *)
Theorem update_restores_the_counts_of_the_generator (cats_path path : string)
    (step o_nside nside : Z) (radius : angle) (patch_size : Z) (n_patches : option Z)
    (cats_subset : option (list string)) (rows : list patch_row) :
  generate_patch_coords cats2dict cats_path step o_nside nside radius patch_size n_patches
                        cats_subset = Ok rows ->
  cats2dict (path_join path "cats") = cats2dict cats_path ->
  read_csv (path_join path "pc.csv")
    = (fun row => CsvRow (row_x row) (row_y row) (row_pix2 row) None) <$> rows ->
  update_old_dataset cats2dict read_csv path cats_subset patch_size o_nside nside
  = Ok (path_join path "pc.csv",
        (fun row => CsvRow (row_x row) (row_y row) (row_pix2 row) (Some (row_n_src row)))
          <$> rows).
Proof.
  intros Hgen Hcats Hcsv.
  destruct (generate_patch_coords_sound _ _ _ _ _ _ _ _ _ Hgen) as (df & Hdf & Hall & Hrows).
  unfold update_old_dataset.
  assert (Hdf' : catalogue_rows cats2dict (path_join path "cats") cats_subset = Ok df).
  { unfold catalogue_rows in *. by rewrite Hcats. }
  rewrite Hdf', bind_Ok. cbv zeta. rewrite Hcsv.
  set (orig := (fun row => CsvRow (row_x row) (row_y row) (row_pix2 row) None) <$> rows).
  assert (Horig : ∀ j old, orig !! j = Some old ->
            ∃ row, rows !! j = Some row
                   ∧ old = CsvRow (row_x row) (row_y row) (row_pix2 row) None).
  { intros j old. unfold orig. rewrite list_lookup_fmap.
    destruct (rows !! j) as [row|]; [|done]. cbn. intros [= <-]. eauto. }
  destruct (for_each_indexed_total
              (fun k t => Forall2 (updated_below df patch_size o_nside nside k) orig t)
              (update_pixel df patch_size o_nside nside)
              (Z.of_nat <$> seq 0 (Z.to_nat (nside2npix 2))) 0%nat
              ((fun row => CsvRow (csv_x row) (csv_y row) (csv_pix2 row) None) <$> orig))
    as (t & Hfor & Ht).
  - intros k s x Hk HI. pose proof (lookup_lt_Some _ _ _ Hk) as Hlt.
    rewrite length_fmap, length_seq in Hlt. change (Z.to_nat (nside2npix 2)) with 48%nat in Hlt.
    apply pixels_lookup in Hk as ->. cbn in HI.
    destruct (Hall (Z.of_nat k) ltac:(lia)) as (pix_matr & pic & Hm & Hp).
    assert (Hany : Forall (fun row => csv_pix2 row = Z.of_nat k ->
              matrix_any (slice2 (csv_x row) (csv_x row + patch_size)
                                 (csv_y row) (csv_y row + patch_size) pic) = true) s).
    { apply Forall_forall. intros new [j Hnew]%list_elem_of_lookup Hk.
      apply Forall2_same_length_lookup in HI as [Hlen HI].
      destruct (lookup_lt_is_Some_2 orig j) as [old Hold];
        [rewrite Hlen; by eapply lookup_lt_Some|].
      destruct (HI j old new Hold Hnew) as (Hx & Hy & Hp2 & _).
      destruct (Horig j old Hold) as (row & Hrow & ->). cbn in *.
      destruct (Hrows row (list_elem_of_lookup_2 _ _ _ Hrow))
        as (_ & pm & pc & Hm' & Hp' & Hany & _).
      rewrite <- Hp2, Hk in Hm'. assert (pm = pix_matr) as -> by congruence.
      assert (pc = pic) as -> by congruence.
      by rewrite Hx, Hy. }
    pose proof (proj2 (update_pixel_Ok df patch_size o_nside nside s _ (Z.of_nat k))
                  (ex_intro _ pix_matr (ex_intro _ pic
                     (conj Hm (conj Hp (conj Hany eq_refl)))))) as Hb.
    eexists. split; [exact Hb|]. by eapply update_pixel_step.
  - apply Forall2_fmap_r, Forall_Forall2_diag, Forall_forall.
    intros row _. unfold updated_below. cbn. split_and!; try done. lia.
  - rewrite Hfor, bind_Ok. do 2 f_equal.
    rewrite length_fmap, length_seq in Ht.
    change (0 + Z.to_nat (nside2npix 2))%nat with 48%nat in Ht.
    apply Forall2_same_length_lookup in Ht as [Hlen Ht].
    apply list_eq_same_length with (n := length t); [|done|].
    { rewrite length_fmap, <- Hlen. unfold orig. by rewrite length_fmap. }
    intros j new ann _ Hnew Hann.
    rewrite list_lookup_fmap in Hann.
    destruct (rows !! j) as [row|] eqn:Hrow; [|done]. cbn in Hann. injection Hann as <-.
    assert (Hold : orig !! j = Some (CsvRow (row_x row) (row_y row) (row_pix2 row) None)).
    { unfold orig. by rewrite list_lookup_fmap, Hrow. }
    destruct (Ht j _ new Hold Hnew) as (Hx & Hy & Hp2 & Hin & _). cbn in *.
    destruct (Hrows row (list_elem_of_lookup_2 _ _ _ Hrow))
      as (Hpix & pm & pc & Hm' & Hp' & _ & Hn).
    destruct (Hin ltac:(lia)) as (pix_matr & pic & Hm & Hp & _ & Hnew').
    assert (pm = pix_matr) as -> by congruence.
    assert (pc = pic) as -> by congruence.
    destruct new as [x y p2 n]. cbn in *. congruence.
Qed.
End UpdateFacts.

Lemma update_sets_the_counts_witness :
  "old/pc.csv" = path_join "old" "pc.csv"
  ∧ ∃ df, catalogue_rows (one_catalogue [7]) (path_join "old" "cats") None = Ok df
    ∧ Forall2 (fun old new =>
        csv_x new = csv_x old ∧ csv_y new = csv_y old ∧ csv_pix2 new = csv_pix2 old
        ∧ (0 <= csv_pix2 old < 48 ->
             ∃ pix_matr pic,
               one_pixel_fragmentation 2 (csv_pix2 old) 2 = Ok pix_matr
               ∧ draw_dots (src_RA <$> df) (src_DEC <$> df) 2 pix_matr = Ok pic
               ∧ matrix_any (slice2 (csv_x old) (csv_x old + 64)
                                    (csv_y old) (csv_y old + 64) pic) = true
               ∧ csv_n_src new
                 = Some (count_nonzero (slice2 (csv_x old) (csv_x old + 64)
                                               (csv_y old) (csv_y old + 64) pic)))
        ∧ (¬ (0 <= csv_pix2 old < 48) -> csv_n_src new = None))
        ((fun _ => [CsvRow 0 0 7 None; CsvRow 5 5 99 (Some 3)]) (path_join "old" "pc.csv"))
        [CsvRow 0 0 7 (Some 1); CsvRow 5 5 99 None].
Proof.
  apply (update_sets_the_counts (one_catalogue [7])
           (fun _ => [CsvRow 0 0 7 None; CsvRow 5 5 99 (Some 3)]) "old" None 64 2 2).
  vm_compute. reflexivity.
Defined.

Lemma update_restores_the_counts_of_the_generator_witness :
  update_old_dataset (one_catalogue [7; 9]) (fun _ => [CsvRow 0 0 7 None; CsvRow 0 0 9 None])
                     "old" None 64 2 2
  = Ok (path_join "old" "pc.csv",
        (fun row => CsvRow (row_x row) (row_y row) (row_pix2 row) (Some (row_n_src row)))
          <$> [PatchRow 0 0 7 1; PatchRow 0 0 9 1]).
Proof.
  apply (update_restores_the_counts_of_the_generator (one_catalogue [7; 9])
           (fun _ => [CsvRow 0 0 7 None; CsvRow 0 0 9 None])
           "new/cats" "old" 64 2 2 0 64 None None);
    [vm_compute; reflexivity|reflexivity|reflexivity].
Defined.

(** ** The mask writer *)

Lemma string_length_app (s t : string) :
  String.length (s +:+ t) = (String.length s + String.length t)%nat.
Proof.
  induction s as [|c s IH]; [done|].
  change (String c s +:+ t) with (String c (s +:+ t)). cbn [String.length]. by rewrite IH.
Qed.

Lemma string_app_inv_tail (s1 s2 t : string) : s1 +:+ t = s2 +:+ t -> s1 = s2.
Proof.
  revert s2. induction s1 as [|c s1 IH]; intros [|c2 s2] H; try done.
  - apply (f_equal String.length) in H. rewrite !string_length_app in H. cbn in H. lia.
  - apply (f_equal String.length) in H. rewrite !string_length_app in H. cbn in H. lia.
  - change (String c (s1 +:+ t) = String c2 (s2 +:+ t)) in H.
    injection H as -> H. f_equal. by apply IH.
Qed.

Lemma pretty_N_go_no_sep (x : N) (s : string) :
  starts_with_sep s = false -> starts_with_sep (pretty_N_go x s) = false.
Proof.
  revert s. induction (N.lt_wf_0 x) as [x _ IH]; intros s Hs.
  assert (x = 0 ∨ 0 < x)%N as [->|?] by lia.
  - by rewrite pretty_N_go_0.
  - rewrite pretty_N_go_step by done. apply IH.
    { by apply N.div_lt. }
    unfold pretty_N_char, starts_with_sep. by repeat case_match.
Qed.

Lemma npy_name_no_sep (i : Z) : 0 <= i -> starts_with_sep (npy_name i) = false.
Proof.
  intros Hi. unfold npy_name, pretty, pretty_Z. destruct i as [|p|p]; [done| |lia].
  unfold pretty, pretty_positive, pretty, pretty_N.
  destruct (decide (N.pos p = 0%N)); [done|].
  pose proof (pretty_N_go_no_sep (N.pos p) "" eq_refl) as H.
  destruct (pretty_N_go (N.pos p) "") as [|c s]; [done|]. exact H.
Qed.

Lemma npy_name_inj (i j : Z) : npy_name i = npy_name j -> i = j.
Proof. unfold npy_name. intros H%string_app_inv_tail. by apply pretty_Z_inj in H. Qed.

Lemma path_join_inj (a b1 b2 : string) :
  starts_with_sep b1 = false -> starts_with_sep b2 = false ->
  path_join a b1 = path_join a b2 -> b1 = b2.
Proof.
  intros H1 H2. unfold path_join. rewrite H1, H2.
  destruct (String.eqb a "" || ends_with_sep a).
  - apply String.app_inj.
  - intros H%String.app_inj. by apply (String.app_inj "/") in H.
Qed.

Lemma mask_path_inj (outpath : string) (i j : Z) :
  0 <= i -> 0 <= j ->
  path_join outpath (npy_name i) = path_join outpath (npy_name j) -> i = j.
Proof.
  intros Hi Hj H. apply npy_name_inj. eapply path_join_inj; [| |exact H];
    by apply npy_name_no_sep.
Qed.

(** What a saving loop leaves: the items before the first exception are
    saved, each under its path, and every other path is as it was; the
    exception is that of the body, or that of a write that fails. *)
Lemma save_each_spec {A}
    (save_fails : string -> A -> gmap string A -> option (py_error * gmap string A))
    (body : Z -> result (string * A)) (path_of : Z -> string) (xs : list Z) :
  (∀ i file arr, body i = Ok (file, arr) -> file = path_of i) ->
  NoDup (path_of <$> xs) ->
  ∀ files files' res, save_each save_fails body xs files = (files', res) ->
    ∃ saved rest before, xs = saved ++ rest
      ∧ (∀ i, i ∈ saved -> ∃ arr, body i = Ok (path_of i, arr)
                                  ∧ before !! path_of i = Some arr)
      ∧ (∀ p, p ∉ path_of <$> saved -> before !! p = files !! p)
      ∧ match res with
        | Ok _ => rest = [] ∧ files' = before
        | Raise e =>
          ∃ i rest', rest = i :: rest'
            ∧ (body i = Raise e ∧ files' = before
               ∨ ∃ arr, body i = Ok (path_of i, arr)
                        ∧ save_fails (path_of i) arr before = Some (e, files'))
        end.
Proof.
  intros Hpath. induction xs as [|i xs IH]; intros Hnd files files' res; cbn.
  - intros [= <- <-]. exists [], [], files. split_and!; try done.
    intros i Hi. by apply elem_of_nil in Hi.
  - rewrite fmap_cons in Hnd. apply NoDup_cons in Hnd as [Hi Hnd].
    destruct (body i) as [[file arr]|e] eqn:Hb.
    + pose proof (Hpath _ _ _ Hb) as ->.
      destruct (save_fails (path_of i) arr files) as [[e f']|] eqn:Hsave.
      * intros [= <- <-]. exists [], (i :: xs), files. split_and!; try done.
        -- intros j Hj. by apply elem_of_nil in Hj.
        -- exists i, xs. split; [done|]. right. by exists arr.
      * intros Hs.
        destruct (IH Hnd _ _ _ Hs) as (saved & rest & before & -> & Hsaved & Hother & Hres).
        exists (i :: saved), rest, before. split_and!; try done.
        -- intros j [->|Hj]%elem_of_cons; [|by apply Hsaved].
           exists arr. split; [done|]. rewrite Hother.
           ++ by rewrite lookup_insert_eq.
           ++ intros Hin. apply Hi. rewrite fmap_app. apply elem_of_app. by left.
        -- intros p Hp. rewrite fmap_cons in Hp. apply not_elem_of_cons in Hp as [Hp1 Hp2].
           rewrite (Hother p Hp2). by rewrite lookup_insert_ne.
    + intros [= <- <-]. exists [], (i :: xs), files. split_and!; try done.
      * intros j Hj. by apply elem_of_nil in Hj.
      * exists i, xs. split; [done|]. by left.
Qed.

Lemma add_axis_cell (pic : matrix Z) (r c : nat) :
  cell (add_axis pic) r c = (fun v => [v]) <$> cell pic r c.
Proof.
  unfold cell, add_axis. rewrite list_lookup_fmap.
  destruct (pic !! r) as [row|]; [|done]. cbn. by rewrite list_lookup_fmap.
Qed.

Section MaskFacts.
Context {angle vec : Type} `{!Pixelizer angle vec}.
Variable cats2dict : string -> gmap string (list (source angle)).
Variable np_save_fails :
  string -> matrix (list Z) -> gmap string (matrix (list Z))
  -> option (py_error * gmap string (matrix (list Z))).

Lemma mask_file_path (df : list (source angle)) (outpath : string) (o_nside nside : Z)
    (radius : angle) (i : Z) (file : string) (arr : matrix (list Z)) :
  mask_file df outpath o_nside nside radius i = Ok (file, arr) ->
  file = path_join outpath (npy_name i).
Proof.
  unfold mask_file. destruct (one_pixel_fragmentation _ _ _); [|done]. rewrite bind_Ok.
  destruct (draw_circles _ _ _ _ _ _); [|done]. rewrite bind_Ok. by intros [= <- _].
Qed.

Lemma mask_paths_NoDup (outpath : string) (n : nat) :
  NoDup ((fun i => path_join outpath (npy_name i)) <$> (Z.of_nat <$> seq 0 n)).
Proof.
  apply NoDup_fmap_2_strong.
  - intros i j (a & -> & _)%list_elem_of_fmap (b & -> & _)%list_elem_of_fmap.
    apply mask_path_inj; lia.
  - apply NoDup_fmap_2; [apply Nat2Z.inj'|apply NoDup_seq].
Qed.

(** X20: when [draw_masks_and_save] returns, the directory holds a mask for
    every coarse pixel of [o_nside], under the name of the pixel: the
    image of [draw_circles] for the matrix of the pixel, all catalogues
    and the radius, no filter, with an axis of length 1 added. Every
    other path of the directory is as it was. *)
Theorem masks_of_all_coarse_pixels_are_saved (cats_path outpath : string)
    (o_nside nside : Z) (radius : angle) (files : gmap string (matrix (list Z))) :
  let run := draw_masks_and_save cats2dict np_save_fails cats_path outpath o_nside nside
                                 radius files in
  snd run = Ok tt ->
  ∃ df, catalogue_rows cats2dict cats_path None = Ok df
    ∧ (∀ i, 0 <= i < nside2npix o_nside ->
         ∃ pix_matr pic,
           one_pixel_fragmentation o_nside i nside = Ok pix_matr
           ∧ draw_circles (src_RA <$> df) (src_DEC <$> df) (RadiusScalar radius) nside
                          pix_matr false = Ok pic
           ∧ fst run !! path_join outpath (npy_name i) = Some (add_axis pic))
    ∧ (∀ p, (∀ i, 0 <= i < nside2npix o_nside -> p ≠ path_join outpath (npy_name i)) ->
            fst run !! p = files !! p).
Proof.
  intros run. destruct run as [files' res] eqn:Hs. cbn [fst snd]. intros ->.
  unfold run, draw_masks_and_save in Hs.
  destruct (catalogue_rows cats2dict cats_path None) as [df|] eqn:Hdf; [|done].
  exists df. split; [done|].
  destruct (save_each_spec _ _ (fun i => path_join outpath (npy_name i)) _
              (mask_file_path df outpath o_nside nside radius)
              (mask_paths_NoDup outpath _) _ _ _ Hs)
    as (saved & rest & before & Hxs & Hsaved & Hother & -> & ->).
  rewrite app_nil_r in Hxs. subst saved. split.
  - intros i Hi. destruct (Hsaved i) as (arr & Hb & Hf).
    { apply list_elem_of_fmap. exists (Z.to_nat i). split; [lia|].
      apply elem_of_seq. lia. }
    unfold mask_file in Hb.
    destruct (one_pixel_fragmentation _ _ _) as [pix_matr|] eqn:Hm; [|done].
    rewrite bind_Ok in Hb.
    destruct (draw_circles _ _ _ _ _ _) as [pic|] eqn:Hp; [|done]. rewrite bind_Ok in Hb.
    injection Hb as <-. exists pix_matr, pic. by split_and!.
  - intros p Hp. apply Hother.
    intros (i & -> & (k & -> & Hk%elem_of_seq)%list_elem_of_fmap)%list_elem_of_fmap.
    apply (Hp (Z.of_nat k)); [lia|done].
Qed.

(** X21: when [draw_masks_and_save] raises, either the catalogues are
    refused and the directory is as it was, or the turn of a coarse pixel
    [i] raises. When that turn begins the masks of the coarse pixels
    below [i] are saved and every other path is as it was. The exception
    is that of the builder or of the rasteriser, and the directory stays
    so; or it is that of [np.save], and the directory is as the failed
    write of the mask of [i] leaves it. *)
Theorem an_exception_keeps_the_masks_saved_before_it (cats_path outpath : string)
    (o_nside nside : Z) (radius : angle) (files : gmap string (matrix (list Z)))
    (e : py_error) :
  let run := draw_masks_and_save cats2dict np_save_fails cats_path outpath o_nside nside
                                 radius files in
  snd run = Raise e ->
  (catalogue_rows cats2dict cats_path None = Raise e ∧ fst run = files)
  ∨ ∃ df i before,
      catalogue_rows cats2dict cats_path None = Ok df
      ∧ 0 <= i < nside2npix o_nside
      ∧ (∀ j, 0 <= j < i ->
           ∃ arr, mask_file df outpath o_nside nside radius j
                    = Ok (path_join outpath (npy_name j), arr)
                  ∧ before !! path_join outpath (npy_name j) = Some arr)
      ∧ (∀ p, (∀ j, 0 <= j < i -> p ≠ path_join outpath (npy_name j)) ->
              before !! p = files !! p)
      ∧ (mask_file df outpath o_nside nside radius i = Raise e ∧ fst run = before
         ∨ ∃ arr, mask_file df outpath o_nside nside radius i
                    = Ok (path_join outpath (npy_name i), arr)
                  ∧ np_save_fails (path_join outpath (npy_name i)) arr before
                    = Some (e, fst run)).
Proof.
  intros run. destruct run as [files' res] eqn:Hs. cbn [fst snd]. intros ->.
  unfold run, draw_masks_and_save in Hs.
  destruct (catalogue_rows cats2dict cats_path None) as [df|e'] eqn:Hdf.
  2: { injection Hs as <- <-. by left. }
  right. exists df.
  destruct (save_each_spec _ _ (fun i => path_join outpath (npy_name i)) _
              (mask_file_path df outpath o_nside nside radius)
              (mask_paths_NoDup outpath _) _ _ _ Hs)
    as (saved & rest & before & Hxs & Hsaved & Hother & i & rest' & -> & Hend).
  exists i, before.
  assert (Hi : (Z.of_nat <$> seq 0 (Z.to_nat (nside2npix o_nside))) !! length saved = Some i).
  { rewrite Hxs. by rewrite lookup_app_r, Nat.sub_diag by lia. }
  rewrite list_lookup_fmap in Hi.
  destruct (seq 0 _ !! length saved) as [k|] eqn:Hk; [|done]. cbn in Hi. injection Hi as <-.
  apply lookup_seq in Hk as [-> Hlt]. cbn in Hlt.
  assert (Hsv : ∀ j, j ∈ saved <-> 0 <= j < Z.of_nat (length saved)).
  { intros j. split.
    - intros [k Hk]%list_elem_of_lookup.
      pose proof (lookup_lt_Some _ _ _ Hk) as Hkl.
      assert (Hk' : (Z.of_nat <$> seq 0 (Z.to_nat (nside2npix o_nside))) !! k = Some j)
        by (rewrite Hxs; by rewrite lookup_app_l).
      rewrite list_lookup_fmap in Hk'.
      destruct (seq 0 _ !! k) as [k'|] eqn:Hk''; [|done]. cbn in Hk'. injection Hk' as <-.
      apply lookup_seq in Hk'' as [-> _]. lia.
    - intros Hj. apply list_elem_of_lookup. exists (Z.to_nat j).
      assert (Hk' : (Z.of_nat <$> seq 0 (Z.to_nat (nside2npix o_nside))) !! Z.to_nat j
                    = Some j).
      { rewrite list_lookup_fmap, lookup_seq_lt by lia. cbn. f_equal. lia. }
      rewrite Hxs, lookup_app_l in Hk' by lia. done. }
  split_and!; try done; try lia.
  - intros j Hj. apply Hsaved. by apply Hsv.
  - intros p Hp. apply Hother. intros (j & -> & Hj)%list_elem_of_fmap.
    apply Hsv in Hj. by apply (Hp j).
Qed.
End MaskFacts.

Lemma masks_of_all_coarse_pixels_are_saved_witness :
  let run := draw_masks_and_save (one_catalogue [5]) every_write_succeeds "cats" "out"
                                 1 1 1 ∅ in
  ∃ df, catalogue_rows (one_catalogue [5]) "cats" None = Ok df
    ∧ (∀ i, 0 <= i < nside2npix 1 ->
         ∃ pix_matr pic,
           one_pixel_fragmentation 1 i 1 = Ok pix_matr
           ∧ draw_circles (src_RA <$> df) (src_DEC <$> df) (RadiusScalar 1) 1
                          pix_matr false = Ok pic
           ∧ fst run !! path_join "out" (npy_name i) = Some (add_axis pic))
    ∧ (∀ p, (∀ i, 0 <= i < nside2npix 1 -> p ≠ path_join "out" (npy_name i)) ->
            fst run !! p = (∅ : gmap string (list (list (list Z)))) !! p).
Proof.
  apply (masks_of_all_coarse_pixels_are_saved (one_catalogue [5]) every_write_succeeds
           "cats" "out" 1 1 1 ∅).
  vm_compute. reflexivity.
Defined.

Lemma an_exception_keeps_the_masks_saved_before_it_witness :
  let old : gmap string (list (list (list Z))) := {[ "out/old.npy" := [[[1]]] ]} in
  let run := draw_masks_and_save (one_catalogue [5]) no_room_for_mask_2 "cats" "out"
                                 1 1 1 old in
  (catalogue_rows (one_catalogue [5]) "cats" None = Raise OSError ∧ fst run = old)
  ∨ ∃ df i before,
      catalogue_rows (one_catalogue [5]) "cats" None = Ok df
      ∧ 0 <= i < nside2npix 1
      ∧ (∀ j, 0 <= j < i ->
           ∃ arr, mask_file df "out" 1 1 1 j = Ok (path_join "out" (npy_name j), arr)
                  ∧ before !! path_join "out" (npy_name j) = Some arr)
      ∧ (∀ p, (∀ j, 0 <= j < i -> p ≠ path_join "out" (npy_name j)) ->
              before !! p = old !! p)
      ∧ (mask_file df "out" 1 1 1 i = Raise OSError ∧ fst run = before
         ∨ ∃ arr, mask_file df "out" 1 1 1 i = Ok (path_join "out" (npy_name i), arr)
                  ∧ no_room_for_mask_2 (path_join "out" (npy_name i)) arr before
                    = Some (OSError, fst run)).
Proof.
  intros old.
  apply (an_exception_keeps_the_masks_saved_before_it (one_catalogue [5])
           no_room_for_mask_2 "cats" "out" 1 1 1 old).
  vm_compute. reflexivity.
Defined.
